(** * Stagecoach DP solver: shallow embedding of [stagecoach.py]

    The solver works on Python floats (IEEE-754 binary64), which are modelled
    by Rocq's primitive floats; the two dictionaries it fills ([f_star] and
    [policy]) are finite maps, and the input dictionary [edges], whose
    iteration order decides which validation error is raised first, is an
    association list in JSON order.  Python exceptions are values of [error]. *)

From Stdlib Require Import ZArith Bool Lia.
From Stdlib Require Import PrimFloat SpecFloat FloatOps FloatAxioms.
From stdpp Require Import base option list strings gmap.

Local Open Scope string_scope.
Local Open Scope list_scope.

(** ** Exceptions *)

(** One constructor per [raise] of the module.  All but [EPathStuck] are
    [ValueError]s; [EPathStuck] is the [RuntimeError] of the reconstruction
    loop; [EKeyError] is the [KeyError] of [f_star[start]].  [ELoopBound] is
    no Python exception: it marks a [while] loop that has not ended within
    the iteration bound of the model (see [solve_never_loop_bound]). *)
Inductive error : Type :=
| EOptMode
| ECombineOp
| ELayers
| EDuplicateNode (u : string)
| EStartGoalUnknown
| EStartGoalBoundary
| EEdgeUnknownNode (u : string)
| EEdgeNotNextStage (u v : string)
| EDeadEnd (u : string) (stage : nat)
| EPathStuck (u : string)
| EKeyError (u : string)
| ELoopBound.

Inductive result (A : Type) : Type :=
| Ok (a : A)
| Err (e : error).
Arguments Ok {A} a.
Arguments Err {A} e.

(** Sequencing: an exception of the first computation is propagated. *)
#[global] Instance result_bind : MBind result := fun A B k r =>
  match r with
  | Ok a => k a
  | Err e => Err e
  end.

(** A [for] loop whose body may raise. *)
Fixpoint foldM {S A : Type} (body : S -> A -> result S) (l : list A) (s : S)
  : result S :=
  match l with
  | [] => Ok s
  | a :: l' => s' ← body s a; foldM body l' s'
  end.

(** [StructureError]s are the errors raised by [_validate_stagecoach]. *)
Definition is_structure_error (e : error) : bool :=
  match e with
  | ELayers | EDuplicateNode _ | EStartGoalUnknown | EStartGoalBoundary
  | EEdgeUnknownNode _ | EEdgeNotNextStage _ _ => true
  | _ => false
  end.

(** ** Input data *)

(** The inputs at the types that the solver declares:
    [layers: List[List[str]]] and [edges: Dict[str, Dict[str, float]]].  A
    weight is a float, on which the conversion [float(nbrs[v])] of the scan
    is the identity.  A weight given as an [int], which [float] converts
    (raising [OverflowError] beyond the range of binary64), or as any other
    value is outside the model, and so are the exceptions that the
    conversion raises. *)
Definition layers_t : Type := list (list string).
Definition nbrs_t : Type := list (string * float).
Definition edges_t : Type := list (string * nbrs_t).

(** [d.get(k)] on a dictionary given in key order. *)
Fixpoint dict_get {V : Type} (k : string) (d : list (string * V)) : option V :=
  match d with
  | [] => None
  | (k', x) :: d' => if String.eqb k k' then Some x else dict_get k d'
  end.

(** [edges.get(u, {})] *)
Definition edges_get (edges : edges_t) (u : string) : nbrs_t :=
  default [] (dict_get u edges).

(** ** Result of the solver *)

(** A row of a stage table: the node, the candidate total toward every node
    of the next stage ([None] where there is no edge), the optimal value and
    the tied optimal successors.  The rendering of the numbers and of the
    grid by [tabulate] is outside the model. *)
Record table_row : Type := {
  row_node : string;
  row_totals : list (option float);
  row_best : float;
  row_next : list string
}.

(** A stage table; [tbl_stage] is the number [t+1] of its title
    ["Stage {t+1} (opt_mode, op=combine_op)"]. *)
Record stage_table : Type := {
  tbl_stage : nat;
  tbl_opt_mode : string;
  tbl_combine_op : string;
  tbl_headers : list string;
  tbl_rows : list table_row
}.

Record StagecoachResult : Type := {
  optimal_cost : float;
  path : list string;
  tables : list stage_table;
  f_star : gmap string float;
  policy : gmap string (list string)
}.

(** ** Validation *)

(** [for u in L: if u in stage_of: raise ...; stage_of[u] = k] *)
Definition register_node (k : nat) (stage_of : gmap string nat) (u : string)
  : result (gmap string nat) :=
  match stage_of !! u with
  | Some _ => Err (EDuplicateNode u)
  | None => Ok (<[u := k]> stage_of)
  end.

(** [for k, L in enumerate(layers): ...], started at index [k]. *)
Fixpoint register_layers (k : nat) (layers : layers_t)
  (stage_of : gmap string nat) : result (gmap string nat) :=
  match layers with
  | [] => Ok stage_of
  | L :: rest =>
      stage_of' ← foldM (register_node k) L stage_of;
      register_layers (S k) rest stage_of'
  end.

(** [for v in nbrs: ...] for the edges leaving [u], whose stage is [su]. *)
Definition check_edge (stage_of : gmap string nat) (u : string) (su : nat)
  (_ : unit) (vw : string * float) : result unit :=
  match stage_of !! (fst vw) with
  | None => Err (EEdgeUnknownNode (fst vw))
  | Some sv =>
      if Nat.eqb sv (su + 1) then Ok tt else Err (EEdgeNotNextStage u (fst vw))
  end.

(** [for u, nbrs in edges.items(): ...] *)
Definition check_source (stage_of : gmap string nat) (_ : unit)
  (entry : string * nbrs_t) : result unit :=
  match stage_of !! (fst entry) with
  | None => Err (EEdgeUnknownNode (fst entry))
  | Some su => foldM (check_edge stage_of (fst entry) su) (snd entry) tt
  end.

Definition layers_well_formed (layers : layers_t) : bool :=
  match layers with
  | [] => false
  | _ => forallb (fun L => Nat.ltb 0 (length L)) layers
  end.

Definition _validate_stagecoach (layers : layers_t) (edges : edges_t)
  (start goal : string) : result (gmap string nat * list string) :=
  if negb (layers_well_formed layers) then Err ELayers else
  stage_of ← register_layers 0 layers ∅;
  match stage_of !! start, stage_of !! goal with
  | Some s0, Some sK =>
      if negb (Nat.eqb s0 0) || negb (Nat.eqb sK (length layers - 1))
      then Err EStartGoalBoundary
      else
        checked ← foldM (check_source stage_of) edges tt;
        Ok (stage_of, concat layers)
  | _, _ => Err EStartGoalUnknown
  end.

(** ** Solver *)

(** [agg_init]: [math.inf] for "min", [-math.inf] otherwise. *)
Definition agg_init (opt_mode : string) : float :=
  if String.eqb opt_mode "min" then infinity else neg_infinity.

(** [better]: [a < b] for "min", [a > b] otherwise. *)
Definition better (opt_mode : string) (a b : float) : bool :=
  if String.eqb opt_mode "min" then PrimFloat.ltb a b else PrimFloat.ltb b a.

(** [w + f] for "+", [w * f] otherwise. *)
Definition combine (combine_op : string) (w f : float) : float :=
  if String.eqb combine_op "+" then PrimFloat.add w f else PrimFloat.mul w f.

(** The value of the goal: [0.0 if combine_op == "+" else 1.0]. *)
Definition combine_identity (combine_op : string) : float :=
  if String.eqb combine_op "+" then 0%float else 1%float.

(** [f_star.get(v, agg_init)] *)
Definition f_star_get (opt_mode : string) (fs : gmap string float)
  (v : string) : float :=
  default (agg_init opt_mode) (fs !! v).

(** State of the scan of the next stage for one node. *)
Record scan : Type := {
  totals : list (option float);
  best_val : float;
  best_vs : list string
}.

Definition scan_init (opt_mode : string) : scan :=
  {| totals := []; best_val := agg_init opt_mode; best_vs := [] |}.

(** Body of [for v in next_layer]. *)
Definition scan_step (opt_mode combine_op : string) (nbrs : nbrs_t)
  (fs : gmap string float) (s : scan) (v : string) : scan :=
  match dict_get v nbrs with
  | Some w =>
      let tot := combine combine_op w (f_star_get opt_mode fs v) in
      if better opt_mode tot (best_val s) then
        {| totals := totals s ++ [Some tot]; best_val := tot; best_vs := [v] |}
      else if PrimFloat.eqb tot (best_val s) then
        {| totals := totals s ++ [Some tot]; best_val := best_val s;
           best_vs := best_vs s ++ [v] |}
      else
        {| totals := totals s ++ [Some tot]; best_val := best_val s;
           best_vs := best_vs s |}
  | None =>
      {| totals := totals s ++ [None]; best_val := best_val s;
         best_vs := best_vs s |}
  end.

Definition scan_next (opt_mode combine_op : string) (nbrs : nbrs_t)
  (fs : gmap string float) (next_layer : list string) : scan :=
  fold_left (scan_step opt_mode combine_op nbrs fs) next_layer
    (scan_init opt_mode).

(** State of the backward pass inside one stage. *)
Record dp_state : Type := {
  st_f_star : gmap string float;
  st_policy : gmap string (list string);
  st_rows : list table_row
}.

(** Body of [for u in current] at stage [t]. *)
Definition relax_node (opt_mode combine_op : string) (edges : edges_t)
  (t : nat) (next_layer : list string) (st : dp_state) (u : string)
  : result dp_state :=
  let s := scan_next opt_mode combine_op (edges_get edges u) (st_f_star st)
             next_layer in
  match best_vs s with
  | [] => Err (EDeadEnd u (t + 1))
  | _ =>
      Ok {| st_f_star := <[u := best_val s]> (st_f_star st);
            st_policy := <[u := best_vs s]> (st_policy st);
            st_rows := st_rows st ++
              [{| row_node := u; row_totals := totals s;
                  row_best := best_val s; row_next := best_vs s |}] |}
  end.

(** State of the backward pass between stages. *)
Record pass_state : Type := {
  ps_f_star : gmap string float;
  ps_policy : gmap string (list string);
  ps_tables : list stage_table
}.

(** [layers[t]]; the solver only reads stages that exist. *)
Definition layer_at (layers : layers_t) (t : nat) : list string :=
  default [] (layers !! t).

(** Body of [for t in range(K - 1, -1, -1)]. *)
Definition relax_stage (opt_mode combine_op : string) (layers : layers_t)
  (edges : edges_t) (ps : pass_state) (t : nat) : result pass_state :=
  let current := layer_at layers t in
  let next_layer := layer_at layers (t + 1) in
  let headers := ["node"] ++ next_layer ++ ["f* (node)"; "next*"] in
  st ← foldM (relax_node opt_mode combine_op edges t next_layer) current
          {| st_f_star := ps_f_star ps; st_policy := ps_policy ps;
             st_rows := [] |};
  Ok {| ps_f_star := st_f_star st; ps_policy := st_policy st;
        ps_tables := ps_tables ps ++
          [{| tbl_stage := t + 1; tbl_opt_mode := opt_mode;
              tbl_combine_op := combine_op; tbl_headers := headers;
              tbl_rows := st_rows st |}] |}.

(** [range(K - 1, -1, -1)] *)
Definition stage_range (K : nat) : list nat := rev (seq 0 K).

Definition pass_init (combine_op goal : string) : pass_state :=
  {| ps_f_star := {[ goal := combine_identity combine_op ]};
     ps_policy := {[ goal := [] ]};
     ps_tables := [] |}.

Definition backward_pass (opt_mode combine_op : string) (layers : layers_t)
  (edges : edges_t) (goal : string) : result pass_state :=
  foldM (relax_stage opt_mode combine_op layers edges)
    (stage_range (length layers - 1)) (pass_init combine_op goal).

(** The loop [while u != goal], run for at most [fuel] iterations;
    [pth] is the path built so far. *)
Fixpoint walk (fuel : nat) (pol : gmap string (list string)) (goal : string)
  (u : string) (pth : list string) : result (list string) :=
  if String.eqb u goal then Ok pth else
  match fuel with
  | 0 => Err ELoopBound
  | S fuel' =>
      match pol !! u with
      | None | Some [] => Err (EPathStuck u)
      | Some (v :: _) => walk fuel' pol goal v (pth ++ [v])
      end
  end.

Definition solve_stagecoach_dp (layers : layers_t) (edges : edges_t)
  (start goal opt_mode combine_op : string) : result StagecoachResult :=
  if negb (String.eqb opt_mode "min" || String.eqb opt_mode "max")
  then Err EOptMode else
  if negb (String.eqb combine_op "+" || String.eqb combine_op "*")
  then Err ECombineOp else
  validated ← _validate_stagecoach layers edges start goal;
  ps ← backward_pass opt_mode combine_op layers edges goal;
  pth ← walk (length layers) (ps_policy ps) goal start [start];
  match ps_f_star ps !! start with
  | None => Err (EKeyError start)
  | Some c =>
      Ok {| optimal_cost := c; path := pth; tables := ps_tables ps;
            f_star := ps_f_star ps; policy := ps_policy ps |}
  end.

(** ** Reconstruction of all paths *)

(** The inner function [dfs], returning the paths it appends to [paths], in
    order; [None] when the recursion is deeper than [fuel]. *)
Fixpoint dfs (fuel : nat) (pol : gmap string (list string)) (goal : string)
  (u : string) (current : list string) : option (list (list string)) :=
  match fuel with
  | 0 => None
  | S fuel' =>
      if String.eqb u goal then Some [current] else
      foldr (fun v acc =>
               ps ← dfs fuel' pol goal v (current ++ [v]);
               rest ← acc;
               Some (ps ++ rest))
            (Some []) (default [] (pol !! u))
  end.

Definition reconstruct_all_paths (fuel : nat) (pol : gmap string (list string))
  (start goal : string) : option (list (list string)) :=
  dfs fuel pol goal start [start].

(** ** The example of the specification *)

Definition ex_layers : layers_t := [["S"]; ["A"; "B"]; ["C"; "D"]; ["T"]].
Definition ex_edges : edges_t :=
  [("S", [("A", 2%float); ("B", 5%float)]);
   ("A", [("C", 4%float); ("D", 1%float)]);
   ("B", [("C", 2%float)]);
   ("C", [("T", 3%float)]);
   ("D", [("T", 2%float)])].


(** ** Notions used in the statements *)

(** What a successful validation says about the stages. *)
Record valid_stages (layers : layers_t) (start goal : string)
  (stage_of : gmap string nat) : Prop := {
  vs_nonempty : 0 < length layers;
  vs_stage : forall u j,
    stage_of !! u = Some j <-> exists L, layers !! j = Some L /\ u ∈ L;
  vs_start : stage_of !! start = Some 0;
  vs_goal : stage_of !! goal = Some (length layers - 1)
}.


(** The scan made for node [u] of stage [j], read on the value function
    [fs]. *)
Definition scan_of (opt_mode combine_op : string) (layers : layers_t)
  (edges : edges_t) (fs : gmap string float) (u : string) (j : nat) : scan :=
  scan_next opt_mode combine_op (edges_get edges u) fs (layer_at layers (j + 1)).

(** The nodes relaxed so far, when the stages [b], [b+1], ... below the last
    one are done and the nodes [done] of stage [b-1] are. *)
Definition processed (layers : layers_t) (stage_of : gmap string nat)
  (b : nat) (done : list string) (u : string) : Prop :=
  exists j, stage_of !! u = Some j /\ j < length layers - 1 /\
    (b <= j \/ (S j = b /\ u ∈ done)).

(** Invariant of the backward pass: the goal keeps its initial entries, the
    two dictionaries hold exactly the goal and the relaxed nodes, and the
    entries of a relaxed node are the outcome of its scan. *)
Record dp_inv (opt_mode combine_op : string) (layers : layers_t)
  (edges : edges_t) (goal : string) (stage_of : gmap string nat)
  (b : nat) (done : list string)
  (fs : gmap string float) (pol : gmap string (list string)) : Prop := {
  inv_goal_f : fs !! goal = Some (combine_identity combine_op);
  inv_goal_p : pol !! goal = Some [];
  inv_dom_f : forall u,
    is_Some (fs !! u) <-> u = goal \/ processed layers stage_of b done u;
  inv_dom_p : forall u,
    is_Some (pol !! u) <-> u = goal \/ processed layers stage_of b done u;
  inv_entry : forall u j,
    stage_of !! u = Some j -> processed layers stage_of b done u ->
    let s := scan_of opt_mode combine_op layers edges fs u j in
    fs !! u = Some (best_val s) /\ pol !! u = Some (best_vs s) /\
    best_vs s <> []
}.

(** What a returned result is known to satisfy: the stages are valid, the
    dictionaries satisfy the invariant of the finished backward pass, the
    tables are in the order of the pass, and the path is the one walked. *)
Record solved (layers : layers_t) (edges : edges_t)
  (start goal opt_mode combine_op : string) (r : StagecoachResult)
  (stage_of : gmap string nat) : Prop := {
  sv_mode : opt_mode = "min" \/ opt_mode = "max";
  sv_op : combine_op = "+" \/ combine_op = "*";
  sv_stages : valid_stages layers start goal stage_of;
  sv_inv : dp_inv opt_mode combine_op layers edges goal stage_of 0 []
             (f_star r) (policy r);
  sv_tables : map tbl_stage (tables r) = map S (stage_range (length layers - 1));
  sv_walk : walk (length layers) (policy r) goal start [start] = Ok (path r);
  sv_cost : f_star r !! start = Some (optimal_cost r)
}.

(** A graph in which validation passes although the last stage holds a node
    ["X"] besides the goal. *)
Definition extra_layers : layers_t := [["S"]; ["A"; "B"]; ["T"; "X"]].
Definition extra_edges : edges_t :=
  [("S", [("A", 1%float)]);
   ("A", [("T", 1%float)]);
   ("B", [("X", 1%float)])].

(** [follows pol goal p]: the node sequence [p] ends at [goal] and each of
    its steps goes to a successor that [pol] lists for the node. *)
Inductive follows (pol : gmap string (list string)) (goal : string)
  : list string -> Prop :=
| follows_goal : follows pol goal [goal]
| follows_step (u v : string) (vs p : list string) :
    u <> goal -> pol !! u = Some vs -> v ∈ vs ->
    follows pol goal (v :: p) -> follows pol goal (u :: v :: p).

(** A graph with two edges that skip a stage: [S -> B] and [A -> T]. *)
Definition skip_layers : layers_t := [["S"]; ["A"]; ["B"]; ["T"]].
Definition skip_edges : edges_t :=
  [("S", [("A", 1%float); ("B", 7%float)]);
   ("A", [("B", 1%float); ("T", 4%float)]);
   ("B", [("T", 1%float)])].

(** The nodes in the order in which the backward pass relaxes them, each
    with its stage index: stage K-1 first, stage 0 last, and the declared
    order inside a stage. *)
Definition processing_order (layers : layers_t) : list (nat * string) :=
  flat_map (fun t => map (pair t) (layer_at layers t))
    (stage_range (length layers - 1)).

(** The two loops of the backward pass as one loop over [processing_order]
    (the rows of the tables are not reset between stages here). *)
Definition relax_entry (opt_mode combine_op : string) (layers : layers_t)
  (edges : edges_t) (st : dp_state) (tu : nat * string) : result dp_state :=
  relax_node opt_mode combine_op edges (fst tu)
    (layer_at layers (fst tu + 1)) st (snd tu).

Definition dp_init (combine_op goal : string) : dp_state :=
  {| st_f_star := {[ goal := combine_identity combine_op ]};
     st_policy := {[ goal := [] ]};
     st_rows := [] |}.

(** Two outcomes agree: the same exception, or states with the same
    dictionaries. *)
Definition same_outcome {S S' : Type} (R : S -> S' -> Prop)
  (r : result S) (r' : result S') : Prop :=
  match r, r' with
  | Ok s, Ok s' => R s s'
  | Err e, Err e' => e = e'
  | _, _ => False
  end.

Definition same_dicts_st (st st' : dp_state) : Prop :=
  st_f_star st = st_f_star st' /\ st_policy st = st_policy st'.

Definition same_dicts_ps (ps : pass_state) (st : dp_state) : Prop :=
  ps_f_star ps = st_f_star st /\ ps_policy ps = st_policy st.

(** Two nodes of the middle stage without outgoing edge. *)
Definition dead_layers : layers_t := [["S"]; ["A"; "B"]; ["T"]].
Definition dead_edges : edges_t :=
  [("S", [("A", 1%float); ("B", 1%float)])].
(** The same stages, where only ["B"] has no outgoing edge. *)
Definition dead_edges_B : edges_t :=
  [("S", [("A", 1%float); ("B", 1%float)]); ("A", [("T", 1%float)])].

(** The nodes of [next_layer] that [u] has an edge to, in the order of the
    stage. *)
Definition successors_in (edges : edges_t) (u : string)
  (next_layer : list string) : list string :=
  filter (fun v => is_Some (dict_get v (edges_get edges u))) next_layer.

(** The weights of the edges of a node sequence, in the order of the
    sequence; [None] when a step is no edge of the graph. *)
Fixpoint edge_weights (edges : edges_t) (p : list string)
  : option (list float) :=
  match p with
  | u :: ((v :: _) as rest) =>
      w ← dict_get v (edges_get edges u);
      ws ← edge_weights edges rest;
      Some (w :: ws)
  | _ => Some []
  end.

(** The aggregate of a list of weights under the combine operator, taken
    from the goal end as the recurrence does:
    [w1 (+) (w2 (+) ... (wn (+) identity))].  On floats the grouping matters
    (see [aggregate_grouping_matters]). *)
Definition aggregate (combine_op : string) (ws : list float) : float :=
  foldr (combine combine_op) (combine_identity combine_op) ws.

(** The same weights accumulated from the start end:
    [((identity (+) w1) (+) w2) ... (+) wn]. *)
Definition aggregate_from_start (combine_op : string) (ws : list float)
  : float :=
  fold_left (combine combine_op) ws (combine_identity combine_op).

(** The floats that Python reads for 0.1, 0.2 and 0.3. *)
Definition w01 : float := 0x1.999999999999ap-4%float.
Definition w02 : float := 0x1.999999999999ap-3%float.
Definition w03 : float := 0x1.3333333333333p-2%float.

(** A chain with the weights 0.1, 0.2 and 0.3. *)
Definition chain_layers : layers_t := [["S"]; ["A"]; ["B"]; ["T"]].
Definition chain_edges : edges_t :=
  [("S", [("A", w01)]); ("A", [("B", w02)]); ("B", [("T", w03)])].

(** The exceptions that the solver can actually raise: all of them except
    the bound of the model on the [while] loop and the [KeyError] of
    [f_star[start]]. *)
Definition can_be_raised (e : error) : bool :=
  match e with
  | ELoopBound | EKeyError _ => false
  | _ => true
  end.

(** ** Binary64 numbers as integers

    Used to compare Python floats and their sums through integers. *)

Local Open Scope Z_scope.

(** [rne M n]: the integer nearest to [M / 2^n], ties going to the even
    one. *)
Definition rne (M n : Z) : Z :=
  if n <=? 0 then M else
  let q := M / 2 ^ n in
  let r := M mod 2 ^ n in
  let h := 2 ^ (n - 1) in
  if r <? h then q
  else if r =? h then (if Z.even q then q else q + 1)
  else q + 1.

(** [round_units X]: a number [X] of units in the last place of the
    subnormal numbers, rounded to [prec] digits. *)
Definition round_units (X : Z) : Z :=
  let c := Z.max (Zdigits2 X - prec) 0 in rne X c * 2 ^ c.

(** [units] maps the non-negative numbers and [-inf] to integers in an
    order-preserving way: a finite number to its value divided by the
    smallest subnormal [2^emin], [+inf] to [2^(emax - emin)], above every
    finite number, and [-inf] to [-1].  NaN and the negative finite numbers
    are outside its domain. *)
Definition units_inf : Z := 2 ^ (emax - emin).

Definition units (x : spec_float) : Z :=
  match x with
  | S754_zero _ => 0
  | S754_finite false m e => Zpos m * 2 ^ (e - emin)
  | S754_infinity false => units_inf
  | S754_infinity true => -1
  | _ => -2
  end.

Definition sf_nonneg (x : spec_float) : bool :=
  match x with
  | S754_zero _ | S754_finite false _ _ | S754_infinity false => true
  | _ => false
  end.

Definition sf_ordered (x : spec_float) : bool :=
  match x with
  | S754_infinity true => true
  | _ => sf_nonneg x
  end.

Definition fl_units (x : float) : Z := units (Prim2SF x).

Definition fl_nonneg (x : float) : bool := sf_nonneg (Prim2SF x).

Definition fl_neg_inf (x : float) : bool :=
  match Prim2SF x with S754_infinity true => true | _ => false end.

Local Close Scope Z_scope.

(** ** Notions for the comparison of the two modes *)

(** Every edge weight is strictly positive ([0 < w] on floats, so [+inf] is
    allowed and NaN is not). *)
Definition positive_weights (edges : edges_t) : Prop :=
  forall u nbrs v w, (u, nbrs) ∈ edges -> (v, w) ∈ nbrs ->
    PrimFloat.ltb 0 w = true.

(** The value [a] of a node in mode "min" and its value [b] in mode "max":
    [a] is non-negative, and [b] is [-inf] (no path to the goal was found) or
    a non-negative float not below [a]. *)
Definition bracket (a b : float) : Prop :=
  fl_nonneg a = true /\
  (fl_neg_inf b = true \/
   (fl_nonneg b = true /\ (fl_units a <= fl_units b)%Z)).

(** The same, as a check that computes. *)
Definition positive_weightsb (edges : edges_t) : bool :=
  forallb (fun entry : string * nbrs_t =>
             forallb (fun vw : string * float => PrimFloat.ltb 0 (snd vw))
               (snd entry))
    edges.

(** ** Tactics *)

(** Case analysis on one iteration of the scan: no edge, a strictly better
    candidate, a tie, or a worse (or NaN) candidate. *)
Ltac scan_cases :=
  unfold scan_step;
  match goal with
  | |- context [dict_get ?v ?n] =>
      let w := fresh "w" in let Hw := fresh "Hw" in
      destruct (dict_get v n) as [w|] eqn:Hw; simpl;
      [ match goal with
        | |- context [better ?m ?t ?b] =>
            let Hb := fresh "Hb" in let He := fresh "He" in
            destruct (better m t b) eqn:Hb; simpl;
            [ | destruct (PrimFloat.eqb t b) eqn:He; simpl ]
        end
      | ]
  end.

(** ** The order of the floats

    [SFcompare] orders the numbers other than NaN as their keys are ordered
    lexicographically: the class ([-inf], negative, zero, positive, [+inf]),
    then the exponent, then the mantissa, the last two negated for the
    negative numbers. *)

Local Open Scope Z_scope.

Definition sf_key (x : spec_float) : Z * Z * Z :=
  match x with
  | S754_zero _ => (0, 0, 0)
  | S754_infinity false => (2, 0, 0)
  | S754_infinity true => (-2, 0, 0)
  | S754_finite false m e => (1, e, Zpos m)
  | S754_finite true m e => (-1, - e, - Zpos m)
  | S754_nan => (0, 0, 0)
  end.

Definition lex3 (a b : Z * Z * Z) : comparison :=
  match fst (fst a) ?= fst (fst b) with
  | Eq =>
      match snd (fst a) ?= snd (fst b) with
      | Eq => snd a ?= snd b
      | c => c
      end
  | c => c
  end.

Local Close Scope Z_scope.

(** The candidate total of the edge toward [v], if there is one. *)
Definition candidate (opt_mode combine_op : string) (nbrs : nbrs_t)
  (fs : gmap string float) (v : string) : option float :=
  w ← dict_get v nbrs;
  Some (combine combine_op w (f_star_get opt_mode fs v)).

(** The nodes of [next_layer] whose candidate total equals [best], in the
    order of the stage. *)
Definition ties (opt_mode combine_op : string) (nbrs : nbrs_t)
  (fs : gmap string float) (best : float) (next_layer : list string)
  : list string :=
  List.filter
    (fun v =>
       match candidate opt_mode combine_op nbrs fs v with
       | Some tot => PrimFloat.eqb tot best
       | None => false
       end)
    next_layer.

(** All the values stored in [fs] are non-negative, and the nodes of [dom]
    have one. *)
Definition values_nonneg (dom : list string) (fs : gmap string float) : Prop :=
  (forall v x, fs !! v = Some x -> fl_nonneg x = true) /\
  (forall v, v ∈ dom -> is_Some (fs !! v)).
(** ** The stage tables read from the final dictionaries *)

(** The candidate totals of node [u] toward the nodes of [next_layer], on
    the value function [fs]; [None] where [u] has no edge. *)
Definition candidates (opt_mode combine_op : string) (edges : edges_t)
  (fs : gmap string float) (u : string) (next_layer : list string)
  : list (option float) :=
  map (fun v =>
         w ← dict_get v (edges_get edges u);
         Some (combine combine_op w (f_star_get opt_mode fs v)))
    next_layer.

(** The table of stage [t] as it reads on the dictionaries [fs] and [pol]. *)
Definition table_from (opt_mode combine_op : string) (layers : layers_t)
  (edges : edges_t) (fs : gmap string float) (pol : gmap string (list string))
  (t : nat) : stage_table :=
  {| tbl_stage := t + 1;
     tbl_opt_mode := opt_mode;
     tbl_combine_op := combine_op;
     tbl_headers := ["node"] ++ layer_at layers (t + 1) ++ ["f* (node)"; "next*"];
     tbl_rows :=
       map (fun u =>
              {| row_node := u;
                 row_totals :=
                   candidates opt_mode combine_op edges fs u
                     (layer_at layers (t + 1));
                 row_best := f_star_get opt_mode fs u;
                 row_next := default [] (pol !! u) |})
         (layer_at layers t) |}.
(** * The input page: shallow embedding of the checks of [app.py]

    The page parses the text fields with [json.loads] and passes the values
    to [validate_layers_edges] before it calls the solver.  The model takes
    the parsed values at the types the solver works on: [layers] a list of
    lists of strings, [edges] a dictionary of dictionaries of numbers.  On
    such values the [isinstance] tests of the function hold and [float(w)]
    does not raise, so the five messages about the shape of the input are
    not produced; the other six are the constructors of [message]. *)

(** The messages that [validate_layers_edges] appends to [errors]. *)
Inductive message : Type :=
| MDuplicate (n : string)
| MStartMissing (start : string)
| MGoalMissing (goal : string)
| MSourceUnknown (u : string)
| MTargetUnknown (v : string)
| MJump (u v : string) (su sv : nat).

(** [for i, stage_nodes in enumerate(layers): for node in stage_nodes:
    idx[node] = i], started at index [i]. *)
Fixpoint index_layers (i : nat) (layers : layers_t) (idx : gmap string nat)
  : gmap string nat :=
  match layers with
  | [] => idx
  | stage_nodes :: rest =>
      index_layers (S i) rest
        (fold_left (fun idx node => <[node := i]> idx) stage_nodes idx)
  end.

Definition build_stage_index (layers : layers_t) : gmap string nat :=
  index_layers 0 layers ∅.

(** Body of [for n in s]: [if n in seen: errors.append(...)], then
    [seen.add(n)]. *)
Definition note_node (st : gset string * list message) (n : string)
  : gset string * list message :=
  ({[ n ]} ∪ fst st,
   if bool_decide (n ∈ fst st) then snd st ++ [MDuplicate n] else snd st).

(** [for s in layers: for n in s: ...], from [seen = set()] and
    [errors = []]. *)
Definition note_layers (layers : layers_t) : gset string * list message :=
  fold_left (fun st s => fold_left note_node s st) layers (∅, []).

(** Body of [for v, w in nbrs.items()] for the edges leaving [u], whose
    stage is [su]. *)
Definition check_target (stage_of : gmap string nat) (u : string) (su : nat)
  (errors : list message) (vw : string * float) : list message :=
  match stage_of !! (fst vw) with
  | None => errors ++ [MTargetUnknown (fst vw)]
  | Some sv =>
      if Nat.eqb sv (su + 1) then errors
      else errors ++ [MJump u (fst vw) su sv]
  end.

(** Body of [for u, nbrs in edges.items()]. *)
Definition check_entry (stage_of : gmap string nat) (errors : list message)
  (entry : string * nbrs_t) : list message :=
  match stage_of !! (fst entry) with
  | None => errors ++ [MSourceUnknown (fst entry)]
  | Some su => fold_left (check_target stage_of (fst entry) su) (snd entry) errors
  end.

(** [validate_layers_edges] on values of the declared types.  The tests
    [isinstance(layers, list)], [isinstance(s, list)], [isinstance(n, str)],
    [isinstance(edges, dict)] and [isinstance(nbrs, dict)] hold there and
    [float(w)] returns, so the branches that append the messages about the
    shape of the input and about a weight that is no number are not taken;
    the function equals the source on such inputs only. *)
Definition validate_layers_edges (layers : layers_t) (edges : edges_t)
  (start goal : string) : list message :=
  let errors := snd (note_layers layers) in
  let stage_of := build_stage_index layers in
  let errors :=
    match stage_of !! start with
    | None => errors ++ [MStartMissing start]
    | Some _ => errors
    end in
  let errors :=
    match stage_of !! goal with
    | None => errors ++ [MGoalMissing goal]
    | Some _ => errors
    end in
  match errors with
  | [] => fold_left (check_entry stage_of) edges errors
  | _ => errors
  end.

(** The expanders of the tab of the stage tables: [for i, t in
    enumerate(result.tables[::-1])], each with the number
    [len(result.tables) - i] of its label ["Stage ... (mundur)"]. *)
Definition stage_expanders {A : Type} (tables : list A) : list (nat * A) :=
  imap (fun i t => (length tables - i, t)) (rev tables).

(** The solver raises [e] on some input that the input page lets
    through. *)
Definition raised_after_page (e : error) : Prop :=
  exists layers edges start goal opt_mode combine_op,
    validate_layers_edges layers edges start goal = [] /\
    solve_stagecoach_dp layers edges start goal opt_mode combine_op = Err e.

(** Stages and edges that the input page lets through with the start and
    the goal swapped. *)
Definition swapped_layers : layers_t := [["S"]; ["A"]; ["T"]].
Definition swapped_edges : edges_t :=
  [("S", [("A", 1%float)]); ("A", [("T", 1%float)])].

(** * Properties *)

(** ** Binary64 comparisons and arithmetic

    Facts on Python's [<], [==], [+] and [*] on floats, read off the
    specification of the primitive floats. *)

Lemma SFcompare_refl (x : spec_float) :
  x <> S754_nan -> SFcompare x x = Some Eq.
Proof.
  destruct x as [s|s| |s m e]; intros Hx; simpl; try congruence.
  - destruct s; reflexivity.
  - rewrite Z.compare_refl.
    replace (Pos.compare_cont Eq m m) with (m ?= m)%positive by reflexivity.
    rewrite Pos.compare_refl. destruct s; reflexivity.
Qed.

Lemma SFcompare_nan_l (y : spec_float) : SFcompare S754_nan y = None.
Proof. reflexivity. Qed.

Lemma SFcompare_nan_r (x : spec_float) : SFcompare x S754_nan = None.
Proof. destruct x; reflexivity. Qed.

Lemma SFcompare_Some_not_nan (x y : spec_float) (c : comparison) :
  SFcompare x y = Some c -> x <> S754_nan /\ y <> S754_nan.
Proof.
  intros H. split; intros ->.
  - discriminate.
  - rewrite SFcompare_nan_r in H. discriminate.
Qed.

(** [x == y] holds for equal numbers and for two zeros only. *)
Lemma SFcompare_Eq (x y : spec_float) :
  SFcompare x y = Some Eq ->
  x = y \/ exists s1 s2, x = S754_zero s1 /\ y = S754_zero s2.
Proof.
  destruct x as [s1|s1| |s1 m1 e1], y as [s2|s2| |s2 m2 e2]; simpl;
    try discriminate; eauto;
    try (destruct s1; discriminate); try (destruct s2; discriminate).
  - destruct s1, s2; intros H; try discriminate; auto.
  - intros H. left.
    assert (s1 = s2 /\ (e1 ?= e2)%Z = Eq /\ (m1 ?= m2)%positive = Eq)
      as (-> & He & Hm).
    { unfold Pos.compare.
      destruct s1, s2; try discriminate;
        destruct (e1 ?= e2)%Z; try discriminate;
        destruct (Pos.compare_cont Eq m1 m2); try discriminate; auto. }
    apply Z.compare_eq in He. apply Pos.compare_eq in Hm. congruence.
Qed.

Lemma float_eqb_refl_of_ltb_l (a b : float) :
  PrimFloat.ltb a b = true -> PrimFloat.eqb a a = true.
Proof.
  rewrite FloatAxioms.ltb_spec, FloatAxioms.eqb_spec. unfold SFltb, SFeqb.
  destruct (SFcompare (Prim2SF a) (Prim2SF b)) as [c|] eqn:H; [|discriminate].
  apply SFcompare_Some_not_nan in H as [Ha _].
  rewrite SFcompare_refl by assumption. reflexivity.
Qed.

Lemma float_eqb_refl_of_ltb_r (a b : float) :
  PrimFloat.ltb a b = true -> PrimFloat.eqb b b = true.
Proof.
  rewrite FloatAxioms.ltb_spec, FloatAxioms.eqb_spec. unfold SFltb, SFeqb.
  destruct (SFcompare (Prim2SF a) (Prim2SF b)) as [c|] eqn:H; [|discriminate].
  apply SFcompare_Some_not_nan in H as [_ Hb].
  rewrite SFcompare_refl by assumption. reflexivity.
Qed.

Lemma float_eqb_refl_of_eqb_l (a b : float) :
  PrimFloat.eqb a b = true -> PrimFloat.eqb a a = true.
Proof.
  rewrite !FloatAxioms.eqb_spec. unfold SFeqb.
  destruct (SFcompare (Prim2SF a) (Prim2SF b)) as [c|] eqn:H; [|discriminate].
  apply SFcompare_Some_not_nan in H as [Ha _].
  rewrite SFcompare_refl by assumption. reflexivity.
Qed.

(** [==] is a congruence for the two zeros on the right of [+] and [*]:
    replacing [b] by a float [a == b] in [w + b] or [w * b] keeps the
    result [==] to whatever it was [==] to. *)
Lemma SFeqb_zero_l (s1 s2 : bool) (y : spec_float) :
  SFeqb (S754_zero s1) y = SFeqb (S754_zero s2) y.
Proof. destruct y; reflexivity. Qed.

Lemma SF64add_zero_r_eqb (w y : spec_float) (s1 s2 : bool) :
  SFeqb (SF64add w (S754_zero s1)) y = SFeqb (SF64add w (S754_zero s2)) y.
Proof.
  destruct w as [s|s| |s m e]; simpl; try reflexivity.
  destruct s, s1, s2; simpl; first [reflexivity | apply SFeqb_zero_l].
Qed.

Lemma SF64mul_zero_r_eqb (w y : spec_float) (s1 s2 : bool) :
  SFeqb (SF64mul w (S754_zero s1)) y = SFeqb (SF64mul w (S754_zero s2)) y.
Proof.
  destruct w as [s|s| |s m e]; simpl; try reflexivity; apply SFeqb_zero_l.
Qed.

Lemma float_add_eqb_congr (w a b c : float) :
  PrimFloat.eqb a b = true ->
  PrimFloat.eqb (w + b) c = PrimFloat.eqb (w + a) c.
Proof.
  rewrite !FloatAxioms.eqb_spec, !FloatAxioms.add_spec. unfold SFeqb at 1.
  destruct (SFcompare (Prim2SF a) (Prim2SF b)) as [[| |]|] eqn:H;
    try discriminate.
  intros _. apply SFcompare_Eq in H as [H | (s1 & s2 & -> & ->)].
  - rewrite H. reflexivity.
  - apply SF64add_zero_r_eqb.
Qed.

Lemma float_mul_eqb_congr (w a b c : float) :
  PrimFloat.eqb a b = true ->
  PrimFloat.eqb (w * b) c = PrimFloat.eqb (w * a) c.
Proof.
  rewrite !FloatAxioms.eqb_spec, !FloatAxioms.mul_spec. unfold SFeqb at 1.
  destruct (SFcompare (Prim2SF a) (Prim2SF b)) as [[| |]|] eqn:H;
    try discriminate.
  intros _. apply SFcompare_Eq in H as [H | (s1 & s2 & -> & ->)].
  - rewrite H. reflexivity.
  - apply SF64mul_zero_r_eqb.
Qed.

Lemma SFcompare_Eq_sym (x y : spec_float) :
  SFcompare x y = Some Eq -> SFcompare y x = Some Eq.
Proof.
  intros H. destruct (SFcompare_Eq _ _ H) as [-> | (s1 & s2 & -> & ->)];
    [exact H | reflexivity].
Qed.

(** Two floats that are [==] are not [<] one another. *)
Lemma float_eqb_not_ltb (a b : float) :
  PrimFloat.eqb a b = true ->
  PrimFloat.ltb a b = false /\ PrimFloat.ltb b a = false.
Proof.
  rewrite FloatAxioms.eqb_spec, !FloatAxioms.ltb_spec. unfold SFeqb, SFltb.
  destruct (SFcompare (Prim2SF a) (Prim2SF b)) as [[| |]|] eqn:H;
    try discriminate.
  intros _. apply SFcompare_Eq_sym in H. rewrite H. auto.
Qed.

(** ** Rounding to nearest even on integers *)

Local Open Scope Z_scope.

(** The number of binary digits of a positive number [p]:
    [2^(digits - 1) <= p < 2^digits]. *)
Lemma digits2_pos_bounds (p : positive) :
  2 ^ (Zpos (digits2_pos p) - 1) <= Zpos p < 2 ^ Zpos (digits2_pos p).
Proof.
  induction p as [p IH|p IH|]; simpl digits2_pos.
  - rewrite Pos2Z.inj_succ.
    replace (Z.succ (Zpos (digits2_pos p)) - 1) with (Z.succ (Zpos (digits2_pos p) - 1)) by lia.
    rewrite !Z.pow_succ_r by lia. lia.
  - rewrite Pos2Z.inj_succ.
    replace (Z.succ (Zpos (digits2_pos p)) - 1) with (Z.succ (Zpos (digits2_pos p) - 1)) by lia.
    rewrite !Z.pow_succ_r by lia. lia.
  - simpl. lia.
Qed.

Lemma Zdigits2_nonneg (m : Z) : 0 <= Zdigits2 m.
Proof. destruct m; simpl; lia. Qed.

Lemma Zdigits2_bounds (m : Z) :
  0 < m -> 2 ^ (Zdigits2 m - 1) <= m < 2 ^ Zdigits2 m.
Proof. destruct m as [|p|p]; try lia. intros _. apply digits2_pos_bounds. Qed.

(** The number of digits is the only [g] with [2^(g-1) <= m < 2^g]. *)
Lemma Zdigits2_unique (m g : Z) :
  0 < m -> 2 ^ (g - 1) <= m < 2 ^ g -> Zdigits2 m = g.
Proof.
  intros Hm [Hlo Hhi]. pose proof (Zdigits2_bounds m Hm) as [Hlo' Hhi'].
  pose proof (Zdigits2_nonneg m) as Hd.
  assert (0 < g).
  { destruct (Z_lt_le_dec 0 g); [done|].
    assert (g < 0 \/ g = 0) as [Hg | ->] by lia.
    - rewrite (Z.pow_neg_r 2 g) in Hhi by lia. lia.
    - simpl in Hhi. lia. }
  destruct (Z_lt_le_dec (Zdigits2 m) g) as [Hlt|Hge].
  - assert (2 ^ Zdigits2 m <= 2 ^ (g - 1)) by (apply Z.pow_le_mono_r; lia). lia.
  - destruct (Z_lt_le_dec g (Zdigits2 m)) as [Hlt|Hge']; [|lia].
    assert (2 ^ g <= 2 ^ (Zdigits2 m - 1)) by (apply Z.pow_le_mono_r; lia). lia.
Qed.

Lemma Zdigits2_le (a b : Z) : 0 < a -> a <= b -> Zdigits2 a <= Zdigits2 b.
Proof.
  intros Ha Hab.
  pose proof (Zdigits2_bounds a Ha) as [Hlo _].
  pose proof (Zdigits2_bounds b ltac:(lia)) as [_ Hhi].
  destruct (Z_lt_le_dec (Zdigits2 b) (Zdigits2 a)) as [Hlt|]; [|lia].
  assert (2 ^ Zdigits2 b <= 2 ^ (Zdigits2 a - 1)) by (apply Z.pow_le_mono_r; lia).
  lia.
Qed.

Lemma Zdigits2_mul_pow2 (m k : Z) :
  0 < m -> 0 <= k -> Zdigits2 (m * 2 ^ k) = Zdigits2 m + k.
Proof.
  intros Hm Hk. pose proof (Zdigits2_bounds m Hm) as [Hlo Hhi].
  assert (0 < 2 ^ k) by (apply Z.pow_pos_nonneg; lia).
  apply Zdigits2_unique; [lia|].
  assert (0 < Zdigits2 m).
  { destruct m; simpl; lia. }
  replace (Zdigits2 m + k - 1) with ((Zdigits2 m - 1) + k) by lia.
  rewrite !Z.pow_add_r by lia. nia.
Qed.

Lemma rne_bounds (M n : Z) :
  0 <= n -> M / 2 ^ n <= rne M n <= M / 2 ^ n + 1.
Proof.
  intros Hn. unfold rne. destruct (Z.leb_spec n 0).
  - replace n with 0 by lia. rewrite Z.pow_0_r, Z.div_1_r. lia.
  - cbv zeta. destruct (_ <? _); [lia|]. destruct (_ =? _); [|lia].
    destruct (Z.even _); lia.
Qed.

Lemma rne_mono (M M' n : Z) :
  0 <= M <= M' -> rne M n <= rne M' n.
Proof.
  intros HM. unfold rne. destruct (Z.leb_spec n 0); [lia|]. cbv zeta.
  assert (0 < 2 ^ n) as Hp by (apply Z.pow_pos_nonneg; lia).
  assert (2 ^ n = 2 * 2 ^ (n - 1)) as Hh.
  { rewrite <- Z.pow_succ_r by lia. f_equal. lia. }
  pose proof (Z.div_mod M (2 ^ n) ltac:(lia)) as E.
  pose proof (Z.div_mod M' (2 ^ n) ltac:(lia)) as E'.
  pose proof (Z.mod_pos_bound M (2 ^ n) Hp) as B.
  pose proof (Z.mod_pos_bound M' (2 ^ n) Hp) as B'.
  assert (M / 2 ^ n <= M' / 2 ^ n) as Hq by (apply Z.div_le_mono; lia).
  set (q := M / 2 ^ n) in *. set (q' := M' / 2 ^ n) in *.
  set (r := M mod 2 ^ n) in *. set (r' := M' mod 2 ^ n) in *.
  set (h := 2 ^ (n - 1)) in *.
  destruct (Z.eq_dec q q') as [Heq | Hne].
  - assert (r <= r') by nia. rewrite <- Heq.
    destruct (Z.ltb_spec r h), (Z.ltb_spec r' h); try lia;
      destruct (Z.eqb_spec r h), (Z.eqb_spec r' h); try lia;
      destruct (Z.even q); lia.
  - assert (q + 1 <= q') by lia.
    destruct (r <? h), (r' <? h), (r =? h), (r' =? h), (Z.even q), (Z.even q');
      lia.
Qed.

Lemma rne_scale (M n k : Z) :
  0 <= n -> 0 <= k -> rne (M * 2 ^ k) (n + k) = rne M n.
Proof.
  intros Hn Hk. unfold rne at 2. destruct (Z.leb_spec n 0).
  - replace n with 0 by lia. rewrite Z.add_0_l. unfold rne.
    destruct (Z.leb_spec k 0).
    + replace k with 0 by lia. simpl. lia.
    + cbv zeta. assert (0 < 2 ^ k) by (apply Z.pow_pos_nonneg; lia).
      assert (0 < 2 ^ (k - 1)) by (apply Z.pow_pos_nonneg; lia).
      rewrite Z.div_mul, Z.mod_mul by lia.
      destruct (Z.ltb_spec 0 (2 ^ (k - 1))); lia.
  - unfold rne. destruct (Z.leb_spec (n + k) 0); [lia|]. cbv zeta.
    assert (0 < 2 ^ k) by (apply Z.pow_pos_nonneg; lia).
    assert (0 < 2 ^ n) by (apply Z.pow_pos_nonneg; lia).
    assert (0 < 2 ^ (n - 1)) by (apply Z.pow_pos_nonneg; lia).
    rewrite Z.pow_add_r by lia.
    rewrite Z.div_mul_cancel_r by lia.
    rewrite Z.mul_mod_distr_r by lia.
    replace (n + k - 1) with ((n - 1) + k) by lia.
    rewrite Z.pow_add_r by lia.
    set (r := M mod 2 ^ n). set (h := 2 ^ (n - 1)). set (q := M / 2 ^ n).
    destruct (Z.ltb_spec (r * 2 ^ k) (h * 2 ^ k)), (Z.ltb_spec r h);
      try nia; try reflexivity.
    destruct (Z.eqb_spec (r * 2 ^ k) (h * 2 ^ k)), (Z.eqb_spec r h);
      try nia; reflexivity.
Qed.

Lemma rne_exact (m c : Z) : 0 <= c -> rne (m * 2 ^ c) c = m.
Proof.
  intros Hc. replace c with (0 + c) at 2 by lia.
  rewrite rne_scale by lia. reflexivity.
Qed.

Lemma rne_nonneg (M n : Z) : 0 <= M -> 0 <= rne M n.
Proof.
  intros HM. destruct (Z.leb_spec n 0) as [Hn|Hn].
  - unfold rne. destruct (Z.leb_spec n 0); lia.
  - pose proof (rne_bounds M n ltac:(lia)).
    assert (0 <= M / 2 ^ n) by (apply Z.div_pos; [lia | apply Z.pow_pos_nonneg; lia]).
    lia.
Qed.

(** With [g] digits, [M / 2^n] has at most [g - n]. *)
Lemma rne_upper (M n : Z) :
  0 < M -> 0 <= n <= Zdigits2 M -> rne M n <= 2 ^ (Zdigits2 M - n).
Proof.
  intros HM Hn. pose proof (Zdigits2_bounds M HM) as [_ Hhi].
  pose proof (rne_bounds M n ltac:(lia)) as [_ Hr].
  assert (0 < 2 ^ n) by (apply Z.pow_pos_nonneg; lia).
  assert (M / 2 ^ n < 2 ^ (Zdigits2 M - n)).
  { apply Z.div_lt_upper_bound; [lia|].
    rewrite <- Z.pow_add_r by lia. replace (n + (Zdigits2 M - n)) with (Zdigits2 M) by lia.
    exact Hhi. }
  lia.
Qed.

Lemma rne_lower (M n : Z) :
  0 < M -> 0 <= n <= Zdigits2 M - 1 -> 2 ^ (Zdigits2 M - 1 - n) <= rne M n.
Proof.
  intros HM Hn. pose proof (Zdigits2_bounds M HM) as [Hlo _].
  pose proof (rne_bounds M n ltac:(lia)) as [Hr _].
  assert (0 < 2 ^ n) by (apply Z.pow_pos_nonneg; lia).
  assert (2 ^ (Zdigits2 M - 1 - n) <= M / 2 ^ n).
  { apply Z.div_le_lower_bound; [lia|].
    rewrite <- Z.pow_add_r by lia.
    replace (n + (Zdigits2 M - 1 - n)) with (Zdigits2 M - 1) by lia. exact Hlo. }
  lia.
Qed.

Lemma round_units_nonneg (X : Z) : 0 <= X -> 0 <= round_units X.
Proof.
  intros HX. unfold round_units. cbv zeta.
  apply Z.mul_nonneg_nonneg; [by apply rne_nonneg|].
  apply Z.pow_nonneg. lia.
Qed.

Lemma round_units_mono (X X' : Z) :
  0 <= X <= X' -> round_units X <= round_units X'.
Proof.
  intros [HX HXX'].
  destruct (Z.eq_dec X 0) as [-> | HX0].
  { replace (round_units 0) with 0 by reflexivity.
    apply round_units_nonneg. lia. }
  assert (0 < X) as HXpos by lia. assert (0 < X') as HXpos' by lia.
  pose proof (Zdigits2_le X X' HXpos HXX') as Hd.
  assert (0 < prec) as Hprec by reflexivity.
  assert (1 <= Zdigits2 X) as Hg by (destruct X; simpl in *; lia).
  unfold round_units. cbv zeta.
  set (c := Z.max (Zdigits2 X - prec) 0). set (c' := Z.max (Zdigits2 X' - prec) 0).
  assert (0 <= c <= c') as Hc by lia.
  destruct (Z.eq_dec c c') as [Heq | Hne].
  - rewrite <- Heq. apply Z.mul_le_mono_nonneg_r; [apply Z.pow_nonneg; lia|].
    apply rne_mono. lia.
  - assert (c' = Zdigits2 X' - prec /\ Zdigits2 X < Zdigits2 X') as [Hc' Hlt] by lia.
    pose proof (rne_upper X c HXpos ltac:(lia)) as Hup.
    pose proof (rne_lower X' c' HXpos' ltac:(lia)) as Hlo.
    assert (0 < 2 ^ c) by (apply Z.pow_pos_nonneg; lia).
    assert (0 < 2 ^ c') by (apply Z.pow_pos_nonneg; lia).
    assert (rne X c * 2 ^ c <= 2 ^ Zdigits2 X).
    { assert (2 ^ Zdigits2 X = 2 ^ (Zdigits2 X - c) * 2 ^ c) as ->.
      { rewrite <- Z.pow_add_r by lia. f_equal. lia. }
      nia. }
    assert (2 ^ (Zdigits2 X' - 1) <= rne X' c' * 2 ^ c').
    { assert (2 ^ (Zdigits2 X' - 1) = 2 ^ (Zdigits2 X' - 1 - c') * 2 ^ c') as ->.
      { rewrite <- Z.pow_add_r by lia. f_equal. lia. }
      nia. }
    assert (2 ^ Zdigits2 X <= 2 ^ (Zdigits2 X' - 1)) by (apply Z.pow_le_mono_r; lia).
    lia.
Qed.

(** ** The shifts of the rounding algorithm *)

Lemma iter_pos_nat {A : Type} (f : A -> A) (p : positive) :
  forall x, SpecFloat.iter_pos f p x = Nat.iter (Pos.to_nat p) f x.
Proof.
  induction p as [p IH|p IH|]; intros x.
  - change (SpecFloat.iter_pos f p~1 x)
      with (SpecFloat.iter_pos f p (SpecFloat.iter_pos f p (f x))).
    rewrite !IH, Pos2Nat.inj_xI, Nat.iter_succ_r.
    replace (2 * Pos.to_nat p)%nat with (Pos.to_nat p + Pos.to_nat p)%nat by lia.
    rewrite Nat.iter_add. reflexivity.
  - change (SpecFloat.iter_pos f p~0 x)
      with (SpecFloat.iter_pos f p (SpecFloat.iter_pos f p x)).
    rewrite !IH, Pos2Nat.inj_xO.
    replace (2 * Pos.to_nat p)%nat with (Pos.to_nat p + Pos.to_nat p)%nat by lia.
    rewrite Nat.iter_add. reflexivity.
  - reflexivity.
Qed.

Lemma shr_1_spec (m : Z) (r s : bool) :
  0 <= m ->
  shr_1 {| shr_m := m; shr_r := r; shr_s := s |}
  = {| shr_m := m / 2; shr_r := Z.odd m; shr_s := r || s |}.
Proof.
  intros Hm. destruct m as [|[p|p|]|p]; try lia; simpl shr_1; f_equal.
  - rewrite Pos2Z.inj_xI, Z.mul_comm, Z.div_add_l by lia. reflexivity.
  - rewrite Pos2Z.inj_xO, Z.mul_comm, Z.div_mul by lia. reflexivity.
Qed.

(** After [k+1] shifts the record holds the quotient by [2^(k+1)], the bit
    shifted out last, and whether a bit shifted out before was set. *)
Lemma shr_iter_spec (M : Z) (k : nat) :
  0 <= M ->
  let n := Z.of_nat (S k) in
  Nat.iter (S k) shr_1 {| shr_m := M; shr_r := false; shr_s := false |}
  = {| shr_m := M / 2 ^ n;
       shr_r := Z.odd (M / 2 ^ (n - 1));
       shr_s := negb (M mod 2 ^ (n - 1) =? 0) |}.
Proof.
  intros HM. induction k as [|k IH].
  - change (Nat.iter 1 shr_1 {| shr_m := M; shr_r := false; shr_s := false |})
      with (shr_1 {| shr_m := M; shr_r := false; shr_s := false |}).
    rewrite shr_1_spec by lia. cbv zeta.
    change (Z.of_nat 1) with 1. rewrite Z.sub_diag, Z.pow_0_r, Z.pow_1_r.
    rewrite Z.div_1_r, Z.mod_1_r. reflexivity.
  - cbv zeta in *. rewrite Nat.iter_succ, IH.
    set (n := Z.of_nat (S k)) in *.
    assert (1 <= n) as Hn by (unfold n; lia).
    replace (Z.of_nat (S (S k))) with (n + 1) by (unfold n; lia).
    replace (n + 1 - 1) with n by lia.
    assert (0 < 2 ^ n) by (apply Z.pow_pos_nonneg; lia).
    assert (0 < 2 ^ (n - 1)) as Hh by (apply Z.pow_pos_nonneg; lia).
    rewrite shr_1_spec by (apply Z.div_pos; lia). f_equal.
    + rewrite Z.div_div by lia. rewrite Z.pow_add_r by lia.
      rewrite Z.pow_1_r. reflexivity.
    + assert (2 ^ n = 2 ^ (n - 1) * 2) as Hp.
      { rewrite <- (Z.pow_1_r 2) at 3. rewrite <- Z.pow_add_r by lia.
        f_equal. lia. }
      rewrite Hp at 1. rewrite Z.rem_mul_r by lia.
      pose proof (Z.mod_pos_bound M (2 ^ (n - 1)) Hh) as B.
      pose proof (Z.mod_pos_bound (M / 2 ^ (n - 1)) 2 ltac:(lia)) as B2.
      rewrite (Zmod_odd (M / 2 ^ (n - 1))) in *.
      destruct (Z.odd (M / 2 ^ (n - 1))); simpl orb.
      * destruct (Z.eqb_spec (M mod 2 ^ (n - 1) + 2 ^ (n - 1) * 1) 0); [lia|].
        reflexivity.
      * rewrite Z.mul_0_r, Z.add_0_r. reflexivity.
Qed.

(** Rounding the shifted record is rounding the quotient to nearest even. *)
Lemma round_shr_record (M n : Z) :
  0 <= M -> 1 <= n ->
  round_nearest_even (M / 2 ^ n)
    (loc_of_shr_record
       {| shr_m := M / 2 ^ n;
          shr_r := Z.odd (M / 2 ^ (n - 1));
          shr_s := negb (M mod 2 ^ (n - 1) =? 0) |})
  = rne M n.
Proof.
  intros HM Hn. unfold rne. destruct (Z.leb_spec n 0); [lia|]. cbv zeta.
  assert (0 < 2 ^ (n - 1)) as Hh by (apply Z.pow_pos_nonneg; lia).
  assert (2 ^ n = 2 ^ (n - 1) * 2) as Hp.
  { rewrite <- (Z.pow_1_r 2) at 3. rewrite <- Z.pow_add_r by lia.
    f_equal. lia. }
  assert (M mod 2 ^ n
          = M mod 2 ^ (n - 1) + 2 ^ (n - 1) * ((M / 2 ^ (n - 1)) mod 2)) as Hr.
  { rewrite Hp at 1. apply Z.rem_mul_r; lia. }
  rewrite Hr. rewrite (Zmod_odd (M / 2 ^ (n - 1))).
  pose proof (Z.mod_pos_bound M (2 ^ (n - 1)) Hh) as B.
  set (lo := M mod 2 ^ (n - 1)) in *. set (h := 2 ^ (n - 1)) in *.
  destruct (Z.odd (M / h)); destruct (Z.eqb_spec lo 0) as [Hlo|Hlo];
    simpl loc_of_shr_record; simpl round_nearest_even.
  - destruct (Z.ltb_spec (lo + h * 1) h); [lia|].
    destruct (Z.eqb_spec (lo + h * 1) h); [|lia]. reflexivity.
  - destruct (Z.ltb_spec (lo + h * 1) h); [lia|].
    destruct (Z.eqb_spec (lo + h * 1) h); [lia|]. reflexivity.
  - destruct (Z.ltb_spec (lo + h * 0) h); [|lia]. reflexivity.
  - destruct (Z.ltb_spec (lo + h * 0) h); [|lia]. reflexivity.
Qed.

(** [shr] by [n] places, then rounding: the result is [rne M n]. *)
Lemma shr_round (M e n : Z) :
  0 <= M ->
  let '(mrs, e') := shr {| shr_m := M; shr_r := false; shr_s := false |} e n in
  round_nearest_even (shr_m mrs) (loc_of_shr_record mrs) = rne M n /\
  e' = e + Z.max n 0.
Proof.
  intros HM. destruct n as [|p|p]; simpl shr.
  - split; [reflexivity | lia].
  - rewrite iter_pos_nat.
    destruct (Pos.to_nat p) as [|k] eqn:Hk; [pose proof (Pos2Nat.is_pos p); lia|].
    rewrite shr_iter_spec by lia. cbv zeta.
    assert (Z.of_nat (S k) = Zpos p) as -> by (rewrite <- Hk; apply positive_nat_Z).
    split; [|lia]. simpl shr_m. apply round_shr_record; lia.
  - split; [reflexivity | lia].
Qed.

(** [shr] by [n] places alone: the quotient. *)
Lemma shr_quotient (M e n : Z) :
  0 <= M ->
  let '(mrs, e') := shr {| shr_m := M; shr_r := false; shr_s := false |} e n in
  shr_m mrs = M / 2 ^ Z.max n 0 /\ e' = e + Z.max n 0.
Proof.
  intros HM. destruct n as [|p|p]; simpl shr.
  - simpl. rewrite Z.div_1_r. lia.
  - rewrite iter_pos_nat.
    destruct (Pos.to_nat p) as [|k] eqn:Hk; [pose proof (Pos2Nat.is_pos p); lia|].
    rewrite shr_iter_spec by lia. cbv zeta.
    assert (Z.of_nat (S k) = Zpos p) as -> by (rewrite <- Hk; apply positive_nat_Z).
    simpl shr_m. split; [|lia]. f_equal.
  - simpl. rewrite Z.div_1_r. lia.
Qed.

(** ** The value of a binary64 number in units of [2^emin] *)

Lemma prec_val : prec = 53.
Proof. reflexivity. Qed.

Lemma emax_val : emax = 1024.
Proof. reflexivity. Qed.

Lemma emin_val : emin = -1074.
Proof. reflexivity. Qed.

Lemma fexp_val (x : Z) : fexp prec emax x = Z.max (x - 53) (-1074).
Proof. reflexivity. Qed.

Lemma units_inf_pos : 0 < units_inf.
Proof.
  unfold units_inf. apply Z.pow_pos_nonneg; [lia|].
  rewrite emin_val, emax_val. lia.
Qed.

Lemma pow2_mul_lt (x a b : Z) :
  0 <= a -> 0 <= b -> x < 2 ^ a -> x * 2 ^ b < 2 ^ (a + b).
Proof.
  intros Ha Hb Hx. rewrite Z.pow_add_r by lia.
  assert (0 < 2 ^ b) by (apply Z.pow_pos_nonneg; lia). nia.
Qed.

Lemma pow2_mul_le (x a b : Z) :
  0 <= a -> 0 <= b -> 2 ^ a <= x -> 2 ^ (a + b) <= x * 2 ^ b.
Proof.
  intros Ha Hb Hx. rewrite Z.pow_add_r by lia.
  assert (0 < 2 ^ b) by (apply Z.pow_pos_nonneg; lia). nia.
Qed.

(** The last step of the rounding: zero, a finite number, or an overflow. *)
Lemma round_tail_units (V E : Z) :
  0 <= V ->
  let r := match V with
           | Z0 => S754_zero false
           | Zpos m => if E <=? emax - prec then S754_finite false m E
                       else S754_infinity false
           | Zneg _ => S754_nan
           end in
  sf_nonneg r = true /\
  units r = if V =? 0 then 0
            else if E <=? emax - prec then V * 2 ^ (E - emin) else units_inf.
Proof.
  intros HV. destruct V as [|m|m]; [done| |lia]. cbv zeta.
  simpl (Z.pos m =? 0). cbv iota.
  destruct (E <=? emax - prec); done.
Qed.

Lemma rne_small (M n : Z) : 0 <= M -> 1 <= n -> M < 2 ^ (n - 1) -> rne M n = 0.
Proof.
  intros HM Hn Hlt. unfold rne. destruct (Z.leb_spec n 0); [lia|]. cbv zeta.
  assert (2 ^ (n - 1) <= 2 ^ n) by (apply Z.pow_le_mono_r; lia).
  rewrite Z.mod_small, Z.div_small by lia.
  destruct (Z.ltb_spec M (2 ^ (n - 1))); lia.
Qed.

(** The rounding of [m * 2^e] when no left shift is needed. *)
Lemma binary_round_aux_units (m : positive) (e : Z) :
  let f := fexp prec emax (Zpos (digits2_pos m) + e) in
  e <= f ->
  let r := binary_round_aux prec emax false (Zpos m) e loc_Exact in
  sf_nonneg r = true /\
  units r = Z.min (rne (Zpos m) (f - e) * 2 ^ (f - emin)) units_inf.
Proof.
  intros f Hef. unfold binary_round_aux, shr_fexp.
  change (Zdigits2 (Zpos m)) with (Zpos (digits2_pos m)). fold f.
  change (shr_record_of_loc (Zpos m) loc_Exact)
    with {| shr_m := Zpos m; shr_r := false; shr_s := false |}.
  pose proof (shr_round (Zpos m) e (f - e) ltac:(lia)) as H1.
  destruct (shr _ e (f - e)) as [mrs' e']. destruct H1 as [H1 He'].
  rewrite H1. replace e' with f by lia. clear H1 He' mrs' e'.
  set (M1 := rne (Zpos m) (f - e)).
  assert (0 <= M1) as HM1 by (apply rne_nonneg; lia).
  change (shr_record_of_loc M1 loc_Exact)
    with {| shr_m := M1; shr_r := false; shr_s := false |}.
  set (n2 := fexp prec emax (Zdigits2 M1 + f) - f).
  pose proof (shr_quotient M1 f n2 HM1) as H2.
  destruct (shr _ f n2) as [mrs'' e'']. destruct H2 as [H2 He''].
  rewrite H2. clear H2 mrs''.
  assert (0 < 2 ^ Z.max n2 0) as Hpow by (apply Z.pow_pos_nonneg; lia).
  destruct (round_tail_units (M1 / 2 ^ Z.max n2 0) e''
              ltac:(apply Z.div_pos; lia)) as [Hnn Hu].
  split; [exact Hnn|]. rewrite Hu. clear Hnn Hu.
  pose proof units_inf_pos as HUpos.
  (* the facts on the exponents *)
  pose proof (digits2_pos_bounds m) as [Hlo Hhi].
  set (g := Zpos (digits2_pos m)) in *.
  assert (1 <= g) as Hg by (unfold g; lia).
  assert (f = Z.max (g + e - 53) (-1074)) as Hf by (unfold f; apply fexp_val).
  assert (n2 = Z.max (Zdigits2 M1 + f - 53) (-1074) - f) as Hn2
    by (unfold n2; rewrite fexp_val; reflexivity).
  unfold units_inf. rewrite emin_val, emax_val, prec_val.
  destruct (Z.eq_dec M1 0) as [HM0 | HM0].
  { rewrite HM0. rewrite Z.div_0_l by lia. simpl (0 =? 0). cbv iota.
    rewrite Z.mul_0_l. symmetry. apply Z.min_l.
    apply Z.pow_nonneg. lia. }
  assert (0 < M1) as HM1pos by lia.
  pose proof (Zdigits2_bounds M1 HM1pos) as [Hlo1 Hhi1].
  set (g1 := Zdigits2 M1) in *.
  assert (1 <= g1) as Hg1 by (unfold g1; destruct M1; simpl; lia).
  set (t := g - (f - e)).
  assert (t <= 53) as Ht by lia.
  (* M1 has [t] or [t+1] digits *)
  assert (t <= 0 -> f = -1074 /\ g1 = 1) as Hsub.
  { intros Ht0.
    assert (f - e <= g) as Hng.
    { destruct (Z_lt_le_dec g (f - e)) as [Hlt|]; [|lia]. exfalso.
      assert (2 ^ g <= 2 ^ (f - e - 1)) by (apply Z.pow_le_mono_r; lia).
      assert (M1 = 0); [|lia].
      apply rne_small; lia. }
    pose proof (rne_upper (Zpos m) (f - e) ltac:(lia) ltac:(change (Zdigits2 (Zpos m)) with g; lia)) as Hup.
    change (Zdigits2 (Zpos m)) with g in Hup. fold M1 in Hup.
    replace (g - (f - e)) with 0 in Hup by lia. simpl in Hup.
    assert (M1 = 1) as HM1eq by lia.
    split; [lia|]. unfold g1. rewrite HM1eq. reflexivity. }
  assert (1 <= t -> t <= g1 <= t + 1 /\ (g1 = t + 1 -> M1 = 2 ^ t)) as Hnorm.
  { intros Ht1.
    pose proof (rne_upper (Zpos m) (f - e) ltac:(lia) ltac:(change (Zdigits2 (Zpos m)) with g; lia)) as Hup.
    pose proof (rne_lower (Zpos m) (f - e) ltac:(lia) ltac:(change (Zdigits2 (Zpos m)) with g; lia)) as Hlw.
    change (Zdigits2 (Zpos m)) with g in Hup, Hlw. fold M1 in Hup, Hlw.
    fold t in Hup. replace (g - 1 - (f - e)) with (t - 1) in Hlw by (unfold t; lia).
    assert (t <= g1).
    { destruct (Z_lt_le_dec g1 t); [|lia].
      assert (2 ^ g1 <= 2 ^ (t - 1)) by (apply Z.pow_le_mono_r; lia). lia. }
    assert (g1 <= t + 1).
    { destruct (Z_lt_le_dec (t + 1) g1); [|lia].
      assert (2 ^ (t + 1) <= 2 ^ (g1 - 1)) by (apply Z.pow_le_mono_r; lia).
      assert (2 ^ t < 2 ^ (t + 1)) by (apply Z.pow_lt_mono_r; lia). lia. }
    split; [lia|]. intros Heq. rewrite Heq in Hlo1.
    replace (t + 1 - 1) with t in Hlo1 by lia. lia. }
  destruct (Z.eqb_spec (M1 / 2 ^ Z.max n2 0) 0) as [Hq0 | Hq0].
  { (* the quotient of the second shift is not zero *)
    exfalso.
    assert (n2 <= 1) as Hn21 by lia.
    destruct (Z_le_gt_dec n2 0) as [Hle|Hgt].
    - rewrite Z.max_r in Hq0 by lia. rewrite Z.pow_0_r, Z.div_1_r in Hq0. lia.
    - assert (n2 = 1) as Hn2eq by lia. rewrite Hn2eq in Hq0.
      simpl (Z.max 1 0) in Hq0. rewrite Z.pow_1_r in Hq0.
      assert (2 <= M1); [|pose proof (Z.div_le_lower_bound M1 2 1 ltac:(lia) ltac:(lia)); lia].
      assert (2 ^ 1 <= 2 ^ (g1 - 1)) by (apply Z.pow_le_mono_r; lia).
      rewrite Z.pow_1_r in *. lia. }
  destruct (Z_le_gt_dec n2 0) as [Hle|Hgt].
  - (* no second shift *)
    rewrite Z.max_r in * by lia. rewrite Z.pow_0_r, Z.div_1_r.
    replace e'' with f by lia.
    assert (-1074 <= f) as Hfmin by lia.
    destruct (Z.leb_spec f (1024 - 53)) as [Hfin|Hovf].
    + symmetry. apply Z.min_l.
      assert (M1 * 2 ^ (f - -1074) < 2 ^ (53 + (f - -1074))) as Hlt.
      { apply pow2_mul_lt; [lia|lia|].
        assert (g1 <= 53) by lia.
        assert (2 ^ g1 <= 2 ^ 53) by (apply Z.pow_le_mono_r; lia). lia. }
      assert (2 ^ (53 + (f - -1074)) <= 2 ^ (1024 - -1074))
        by (apply Z.pow_le_mono_r; lia).
      lia.
    + symmetry. apply Z.min_r.
      assert (1 <= t) as Ht1 by lia.
      destruct (Hnorm Ht1) as [Hg1t _].
      assert (2 ^ ((g1 - 1) + (f - -1074)) <= M1 * 2 ^ (f - -1074)) as Hge
        by (apply pow2_mul_le; lia).
      assert (2 ^ (1024 - -1074) <= 2 ^ ((g1 - 1) + (f - -1074)))
        by (apply Z.pow_le_mono_r; lia).
      lia.
  - (* a second shift by one place *)
    assert (n2 = 1 /\ f = g + e - 53 /\ g1 = 54) as (Hn2eq & Hfeq & Hg1eq) by lia.
    assert (t = 53) as Hteq by (unfold t; lia).
    destruct (Hnorm ltac:(lia)) as [_ HM1eq].
    specialize (HM1eq ltac:(lia)). rewrite Hteq in HM1eq.
    rewrite Hn2eq in *. simpl (Z.max 1 0) in *. rewrite Z.pow_1_r.
    replace e'' with (f + 1) by lia.
    assert (M1 / 2 = 2 ^ 52) as ->.
    { rewrite HM1eq. change (2 ^ 53) with (2 ^ 52 * 2).
      apply Z.div_mul. lia. }
    assert (-1074 <= f) as Hfmin by lia.
    assert (2 ^ 52 * 2 ^ (f + 1 - -1074) = M1 * 2 ^ (f - -1074)) as Heq.
    { rewrite HM1eq. rewrite <- !Z.pow_add_r by lia. f_equal. lia. }
    assert (M1 * 2 ^ (f - -1074) = 2 ^ (53 + (f - -1074))) as Hval.
    { rewrite HM1eq. rewrite <- !Z.pow_add_r by lia. reflexivity. }
    destruct (Z.leb_spec (f + 1) (1024 - 53)) as [Hfin|Hovf].
    + rewrite Heq. symmetry. apply Z.min_l. rewrite Hval.
      apply Z.pow_le_mono_r; lia.
    + symmetry. apply Z.min_r. rewrite Hval.
      apply Z.pow_le_mono_r; lia.
Qed.

(** ** Addition of non-negative binary64 numbers *)

Lemma valid_finite_canonical (s : bool) (m : positive) (e : Z) :
  valid_binary (S754_finite s m e) = true ->
  let g := Zpos (digits2_pos m) in
  -1074 <= e <= 971 /\ g <= 53 /\ (e = -1074 \/ g = 53).
Proof.
  simpl. unfold bounded, canonical_mantissa. rewrite fexp_val.
  rewrite emax_val, prec_val.
  intros H. apply andb_true_iff in H as [H1 H2].
  apply Z.eqb_eq in H1. apply Z.leb_le in H2. lia.
Qed.

Lemma pos_iter_xO (m d : positive) :
  Zpos (Pos.iter xO m d) = Zpos m * 2 ^ Zpos d.
Proof.
  induction d as [|d IH] using Pos.peano_ind.
  - simpl. rewrite Z.pow_1_r. lia.
  - rewrite Pos.iter_succ, Pos2Z.inj_xO, IH, Pos2Z.inj_succ.
    rewrite Z.pow_succ_r by lia. lia.
Qed.

Lemma shl_align_fst (m : positive) (e e' : Z) :
  e' <= e -> Zpos (fst (shl_align m e e')) = Zpos m * 2 ^ (e - e').
Proof.
  intros H. unfold shl_align. destruct (e' - e) as [|d|d] eqn:Hd; simpl fst.
  - replace (e - e') with 0 by lia. simpl. lia.
  - lia.
  - rewrite pos_iter_xO. f_equal. f_equal. lia.
Qed.

Lemma shl_align_id (m : positive) (e e' : Z) :
  e <= e' -> shl_align m e e' = (m, e).
Proof.
  intros H. unfold shl_align. destruct (e' - e) as [|d|d] eqn:Hd; [done|done|lia].
Qed.

Lemma units_finite_pos (m : positive) (e : Z) :
  -1074 <= e -> 0 < units (S754_finite false m e).
Proof.
  intros He. simpl. rewrite emin_val.
  assert (0 < 2 ^ (e - -1074)) by (apply Z.pow_pos_nonneg; lia). lia.
Qed.

(** A representable number rounds to itself. *)
Lemma round_units_representable (m : positive) (e : Z) :
  valid_binary (S754_finite false m e) = true ->
  round_units (units (S754_finite false m e)) = units (S754_finite false m e).
Proof.
  intros Hv. apply valid_finite_canonical in Hv as (He & Hg & Hc). cbv zeta in *.
  simpl units. rewrite emin_val. unfold round_units. cbv zeta.
  rewrite Zdigits2_mul_pow2 by lia. rewrite prec_val.
  change (Zdigits2 (Zpos m)) with (Zpos (digits2_pos m)).
  assert (1 <= Zpos (digits2_pos m)) by lia.
  replace (Z.max (Zpos (digits2_pos m) + (e - -1074) - 53) 0) with (e - -1074)
    by lia.
  rewrite rne_exact by lia. reflexivity.
Qed.

Lemma units_finite_lt_inf (m : positive) (e : Z) :
  valid_binary (S754_finite false m e) = true ->
  units (S754_finite false m e) < units_inf.
Proof.
  intros Hv. apply valid_finite_canonical in Hv as (He & Hg & Hc). cbv zeta in *.
  simpl units. unfold units_inf. rewrite emin_val, emax_val.
  pose proof (digits2_pos_bounds m) as [_ Hhi].
  assert (2 ^ Zpos (digits2_pos m) <= 2 ^ 53) by (apply Z.pow_le_mono_r; lia).
  assert (Zpos m * 2 ^ (e - -1074) < 2 ^ (53 + (e - -1074)))
    by (apply pow2_mul_lt; lia).
  assert (2 ^ (53 + (e - -1074)) <= 2 ^ (1024 - -1074))
    by (apply Z.pow_le_mono_r; lia).
  lia.
Qed.

(** The sum of two positive finite numbers is their exact sum, rounded, or
    [+inf] on overflow. *)
Lemma SF64add_units_pos (mx my : positive) (ex ey : Z) :
  valid_binary (S754_finite false mx ex) = true ->
  valid_binary (S754_finite false my ey) = true ->
  let x := S754_finite false mx ex in
  let y := S754_finite false my ey in
  sf_nonneg (SF64add x y) = true /\
  units (SF64add x y) = Z.min (round_units (units x + units y)) units_inf.
Proof.
  intros Hvx Hvy x y.
  apply valid_finite_canonical in Hvx as (Hex & Hgx & Hcx).
  apply valid_finite_canonical in Hvy as (Hey & Hgy & Hcy). cbv zeta in *.
  unfold x, y, SF64add, SFadd, binary_normalize.
  set (ez := Z.min ex ey). unfold cond_Zopp.
  rewrite !shl_align_fst by lia.
  pose proof (digits2_pos_bounds mx) as [Hlox Hhix].
  assert (0 < 2 ^ (ex - ez)) by (apply Z.pow_pos_nonneg; lia).
  assert (0 < 2 ^ (ey - ez)) by (apply Z.pow_pos_nonneg; lia).
  destruct (Zpos mx * 2 ^ (ex - ez) + Zpos my * 2 ^ (ey - ez)) as [|S|S] eqn:HS;
    [lia| |lia].
  unfold binary_round.
  set (f := fexp prec emax (Zpos (digits2_pos S) + ez)).
  assert (ez <= f) as Hf.
  { unfold f. rewrite fexp_val.
    change (Zpos (digits2_pos S)) with (Zdigits2 (Zpos S)).
    assert (Zdigits2 (Zpos mx * 2 ^ (ex - ez)) <= Zdigits2 (Zpos S))
      by (apply Zdigits2_le; lia).
    rewrite Zdigits2_mul_pow2 in * by lia.
    change (Zdigits2 (Zpos mx)) with (Zpos (digits2_pos mx)) in *. lia. }
  rewrite shl_align_id by exact Hf.
  destruct (binary_round_aux_units S ez Hf) as [Hnn Hu]. fold f in Hu.
  split; [exact Hnn|]. rewrite Hu. f_equal.
  simpl units. rewrite emin_val.
  assert (Zpos mx * 2 ^ (ex - -1074) + Zpos my * 2 ^ (ey - -1074)
          = Zpos S * 2 ^ (ez - -1074)) as ->.
  { rewrite <- HS, Z.mul_add_distr_r, <- !Z.mul_assoc, <- !Z.pow_add_r by lia.
    f_equal; f_equal; f_equal; lia. }
  unfold round_units. cbv zeta.
  rewrite Zdigits2_mul_pow2 by lia. rewrite prec_val.
  change (Zdigits2 (Zpos S)) with (Zpos (digits2_pos S)).
  assert (f = Z.max (Zpos (digits2_pos S) + ez - 53) (-1074)) as Hfv
    by (unfold f; apply fexp_val).
  replace (Z.max (Zpos (digits2_pos S) + (ez - -1074) - 53) 0)
    with ((f - ez) + (ez - -1074)) by lia.
  rewrite rne_scale by lia. f_equal. f_equal. lia.
Qed.

(** ** Comparisons through [units] *)

Lemma compare_Lt_of_lt (a b : Z) : a < b -> Some Lt = Some (a ?= b).
Proof. intros H. apply Z.compare_lt_iff in H. by rewrite H. Qed.

Lemma compare_Gt_of_gt (a b : Z) : b < a -> Some Gt = Some (a ?= b).
Proof. intros H. apply Z.compare_gt_iff in H. by rewrite H. Qed.

(** On valid numbers that are non-negative or [-inf], the comparison of
    binary64 numbers is the comparison of their units. *)
Lemma SFcompare_units (x y : spec_float) :
  valid_binary x = true -> valid_binary y = true ->
  sf_ordered x = true -> sf_ordered y = true ->
  SFcompare x y = Some (units x ?= units y).
Proof.
  intros Hvx Hvy Hox Hoy. pose proof units_inf_pos as HU.
  destruct x as [sx|[|]| |[|] mx ex]; try discriminate Hox;
  destruct y as [sy|[|]| |[|] my ey]; try discriminate Hoy;
    try pose proof (units_finite_lt_inf _ _ Hvx) as Hltx;
    try pose proof (units_finite_lt_inf _ _ Hvy) as Hlty;
    try (pose proof (valid_finite_canonical _ _ _ Hvx) as (Hex & Hgx & Hcx);
         pose proof (units_finite_pos mx ex ltac:(lia)) as Hpx);
    try (pose proof (valid_finite_canonical _ _ _ Hvy) as (Hey & Hgy & Hcy);
         pose proof (units_finite_pos my ey ltac:(lia)) as Hpy);
    cbv zeta in *;
    try (simpl SFcompare; simpl units in *;
         first [ apply compare_Lt_of_lt; lia
               | apply compare_Gt_of_gt; lia
               | by rewrite Z.compare_refl ]).
  (* two finite positive numbers *)
  simpl SFcompare. simpl units. rewrite emin_val.
  pose proof (digits2_pos_bounds mx) as [Hlox Hhix].
  pose proof (digits2_pos_bounds my) as [Hloy Hhiy].
  destruct (Z.compare_spec ex ey) as [Heq | Hlt | Hgt].
  - subst ey. f_equal. symmetry.
    replace (Pos.compare_cont Eq mx my) with (Zpos mx ?= Zpos my) by reflexivity.
    assert (0 < 2 ^ (ex - -1074)) by (apply Z.pow_pos_nonneg; lia).
    destruct (Z.compare_spec (Zpos mx) (Zpos my)),
      (Z.compare_spec (Zpos mx * 2 ^ (ex - -1074)) (Zpos my * 2 ^ (ex - -1074)));
      try reflexivity; nia.
  - apply compare_Lt_of_lt.
    assert (Zpos (digits2_pos my) = 53) as Hg by lia. rewrite Hg in Hloy.
    assert (2 ^ Zpos (digits2_pos mx) <= 2 ^ 53) by (apply Z.pow_le_mono_r; lia).
    assert (Zpos mx * 2 ^ (ex - -1074) < 2 ^ (53 + (ex - -1074)))
      by (apply pow2_mul_lt; lia).
    assert (2 ^ (52 + (ey - -1074)) <= Zpos my * 2 ^ (ey - -1074))
      by (apply pow2_mul_le; [lia|lia|exact Hloy]).
    assert (2 ^ (53 + (ex - -1074)) <= 2 ^ (52 + (ey - -1074)))
      by (apply Z.pow_le_mono_r; lia).
    lia.
  - apply compare_Gt_of_gt.
    assert (Zpos (digits2_pos mx) = 53) as Hg by lia. rewrite Hg in Hlox.
    assert (2 ^ Zpos (digits2_pos my) <= 2 ^ 53) by (apply Z.pow_le_mono_r; lia).
    assert (Zpos my * 2 ^ (ey - -1074) < 2 ^ (53 + (ey - -1074)))
      by (apply pow2_mul_lt; lia).
    assert (2 ^ (52 + (ex - -1074)) <= Zpos mx * 2 ^ (ex - -1074))
      by (apply pow2_mul_le; [lia|lia|exact Hlox]).
    assert (2 ^ (53 + (ey - -1074)) <= 2 ^ (52 + (ex - -1074)))
      by (apply Z.pow_le_mono_r; lia).
    lia.
Qed.

Lemma round_units_inf : round_units units_inf = units_inf.
Proof.
  unfold units_inf. rewrite emin_val, emax_val.
  change (1024 - -1074) with 2098. unfold round_units. cbv zeta.
  assert (Zdigits2 (2 ^ 2098) = 2099) as ->.
  { apply Zdigits2_unique; [apply Z.pow_pos_nonneg; lia|].
    split; [apply Z.pow_le_mono_r; lia | apply Z.pow_lt_mono_r; lia]. }
  rewrite prec_val. change (Z.max (2099 - 53) 0) with 2046.
  assert (2 ^ 2098 = 2 ^ 52 * 2 ^ 2046) as ->
    by (rewrite <- Z.pow_add_r by lia; reflexivity).
  rewrite rne_exact by lia. reflexivity.
Qed.

(** The sum of two non-negative numbers: the exact sum of the units,
    rounded, capped at [+inf]. *)
Lemma SF64add_units_nonneg (x y : spec_float) :
  valid_binary x = true -> valid_binary y = true ->
  sf_nonneg x = true -> sf_nonneg y = true ->
  sf_nonneg (SF64add x y) = true /\
  units (SF64add x y) = Z.min (round_units (units x + units y)) units_inf.
Proof.
  intros Hvx Hvy Hnx Hny. pose proof units_inf_pos as HU.
  assert (forall X, units_inf <= X ->
            units_inf = Z.min (round_units X) units_inf) as Hcap.
  { intros X HX. symmetry. apply Z.min_r. rewrite <- round_units_inf at 1.
    apply round_units_mono. lia. }
  assert (forall m e, valid_binary (S754_finite false m e) = true ->
            units (S754_finite false m e)
            = Z.min (round_units (units (S754_finite false m e))) units_inf)
    as Hrep.
  { intros m e Hv. rewrite round_units_representable by done.
    symmetry. apply Z.min_l. pose proof (units_finite_lt_inf m e Hv). lia. }
  destruct x as [sx|[|]| |[|] mx ex]; try discriminate Hnx;
  destruct y as [sy|[|]| |[|] my ey]; try discriminate Hny.
  - split; [by destruct sx, sy|].
    assert (units (SF64add (S754_zero sx) (S754_zero sy)) = 0) as ->
      by (by destruct sx, sy).
    reflexivity.
  - split; [done|]. simpl. apply Hcap. lia.
  - split; [done|]. change (units (S754_zero sx)) with 0. rewrite Z.add_0_l.
    by apply Hrep.
  - split; [done|]. simpl. apply Hcap. lia.
  - split; [done|]. simpl. apply Hcap. lia.
  - split; [done|].
    pose proof (valid_finite_canonical _ _ _ Hvy) as (Hey & _).
    pose proof (units_finite_pos my ey ltac:(lia)).
    change (SF64add (S754_infinity false) (S754_finite false my ey))
      with (S754_infinity false).
    change (units (S754_infinity false)) with units_inf. apply Hcap. lia.
  - split; [done|]. change (units (S754_zero sy)) with 0. rewrite Z.add_0_r.
    by apply Hrep.
  - split; [done|].
    pose proof (valid_finite_canonical _ _ _ Hvx) as (Hex & _).
    pose proof (units_finite_pos mx ex ltac:(lia)).
    change (SF64add (S754_finite false mx ex) (S754_infinity false))
      with (S754_infinity false).
    change (units (S754_infinity false)) with units_inf. apply Hcap. lia.
  - by apply SF64add_units_pos.
Qed.

(** Adding [-inf] never gives a non-negative number: the sum is [-inf] or
    NaN. *)
Lemma SF64add_neg_inf (x : spec_float) :
  let r := SF64add x (S754_infinity true) in
  r = S754_infinity true \/ r = S754_nan.
Proof. destruct x as [s|[|]| |s m e]; simpl; auto. Qed.

(** A valid non-negative number is its own rounding. *)
Lemma units_fixed (x : spec_float) :
  valid_binary x = true -> sf_nonneg x = true ->
  units x = Z.min (round_units (units x)) units_inf.
Proof.
  intros Hv Hn. pose proof units_inf_pos as HU.
  destruct x as [s|[|]| |[|] m e]; try discriminate Hn.
  - reflexivity.
  - simpl units. rewrite round_units_inf. lia.
  - rewrite round_units_representable by done.
    pose proof (units_finite_lt_inf m e Hv). lia.
Qed.

Lemma units_nonneg (x : spec_float) : sf_nonneg x = true -> 0 <= units x.
Proof.
  pose proof units_inf_pos.
  destruct x as [s|[|]| |[|] m e]; try discriminate; intros _; simpl;
    first [lia | apply Z.mul_nonneg_nonneg; [lia | apply Z.pow_nonneg; lia]].
Qed.

(** ** Python floats *)

Lemma fl_ordered_cases (x : float) :
  fl_nonneg x = true \/ fl_neg_inf x = true ->
  sf_ordered (Prim2SF x) = true.
Proof.
  unfold fl_nonneg, fl_neg_inf.
  destruct (Prim2SF x) as [s|[|]| |[|] m e]; simpl; intros [H|H]; done.
Qed.

Lemma fl_nonneg_units (x : float) : fl_nonneg x = true -> 0 <= fl_units x.
Proof. apply units_nonneg. Qed.

Lemma fl_neg_inf_units (x : float) : fl_neg_inf x = true -> fl_units x = -1.
Proof.
  unfold fl_neg_inf, fl_units.
  destruct (Prim2SF x) as [s|[|]| |[|] m e]; simpl; done.
Qed.

Lemma float_compare_units (x y : float) :
  fl_nonneg x = true \/ fl_neg_inf x = true ->
  fl_nonneg y = true \/ fl_neg_inf y = true ->
  SFcompare (Prim2SF x) (Prim2SF y) = Some (fl_units x ?= fl_units y).
Proof.
  intros Hx Hy. apply SFcompare_units;
    auto using Prim2SF_valid, fl_ordered_cases.
Qed.

Lemma float_ltb_units (x y : float) :
  fl_nonneg x = true \/ fl_neg_inf x = true ->
  fl_nonneg y = true \/ fl_neg_inf y = true ->
  PrimFloat.ltb x y = (fl_units x <? fl_units y).
Proof.
  intros Hx Hy. rewrite FloatAxioms.ltb_spec. unfold SFltb.
  rewrite float_compare_units by done. unfold Z.ltb.
  by destruct (fl_units x ?= fl_units y).
Qed.

Lemma float_leb_units (x y : float) :
  fl_nonneg x = true \/ fl_neg_inf x = true ->
  fl_nonneg y = true \/ fl_neg_inf y = true ->
  PrimFloat.leb x y = (fl_units x <=? fl_units y).
Proof.
  intros Hx Hy. rewrite FloatAxioms.leb_spec. unfold SFleb.
  rewrite float_compare_units by done. unfold Z.leb.
  by destruct (fl_units x ?= fl_units y).
Qed.

(** A float that is [==] to a non-negative one is non-negative, with the
    same units. *)
Lemma float_eqb_nonneg (x y : float) :
  PrimFloat.eqb x y = true -> fl_nonneg x = true ->
  fl_nonneg y = true /\ fl_units y = fl_units x.
Proof.
  rewrite FloatAxioms.eqb_spec. unfold SFeqb, fl_nonneg, fl_units.
  destruct (SFcompare (Prim2SF x) (Prim2SF y)) as [[| |]|] eqn:H;
    try discriminate.
  intros _ Hx. apply SFcompare_Eq in H as [<- | (s1 & s2 & -> & ->)]; done.
Qed.

(** A float that is not NaN and comes out of adding [-inf] is [-inf]. *)
Lemma float_add_neg_inf (w y : float) :
  fl_neg_inf y = true ->
  fl_nonneg (w + y) = false /\
  (PrimFloat.eqb (w + y) (w + y) = true -> fl_neg_inf (w + y) = true).
Proof.
  unfold fl_neg_inf, fl_nonneg. rewrite FloatAxioms.eqb_spec, FloatAxioms.add_spec.
  destruct (Prim2SF y) as [s|[|]| |[|] m e]; try discriminate. intros _.
  destruct (SF64add_neg_inf (Prim2SF w)) as [-> | ->]; split; try done.
Qed.

(** The sum of two non-negative floats. *)
Lemma float_add_nonneg (w y : float) :
  fl_nonneg w = true -> fl_nonneg y = true ->
  fl_nonneg (w + y) = true /\
  fl_units (w + y) = Z.min (round_units (fl_units w + fl_units y)) units_inf.
Proof.
  unfold fl_nonneg, fl_units. rewrite FloatAxioms.add_spec.
  apply SF64add_units_nonneg; apply Prim2SF_valid.
Qed.

(** Float addition is monotone in its right operand on the non-negative
    floats, and never below its left operand. *)
Lemma float_add_mono (w a b : float) :
  fl_nonneg w = true -> fl_nonneg a = true -> fl_nonneg b = true ->
  fl_units a <= fl_units b ->
  fl_units (w + a) <= fl_units (w + b).
Proof.
  intros Hw Ha Hb Hab.
  destruct (float_add_nonneg w a Hw Ha) as [_ ->].
  destruct (float_add_nonneg w b Hw Hb) as [_ ->].
  apply Z.min_le_compat_r, round_units_mono.
  pose proof (fl_nonneg_units w Hw). pose proof (fl_nonneg_units a Ha). lia.
Qed.

Lemma float_pos_nonneg (w : float) :
  PrimFloat.ltb 0 w = true -> fl_nonneg w = true.
Proof.
  rewrite FloatAxioms.ltb_spec. unfold SFltb, fl_nonneg.
  change (Prim2SF 0) with (S754_zero false).
  destruct (Prim2SF w) as [s|[|]| |[|] m e]; simpl; done.
Qed.

Lemma fl_zero : fl_nonneg 0 = true /\ fl_units 0 = 0.
Proof. split; reflexivity. Qed.

Lemma fl_infinity : fl_nonneg infinity = true.
Proof. reflexivity. Qed.

Lemma fl_neg_infinity : fl_neg_inf neg_infinity = true.
Proof. reflexivity. Qed.

Lemma fl_nonneg_not_neg_inf (x : float) :
  fl_nonneg x = true -> fl_neg_inf x = true -> False.
Proof.
  unfold fl_nonneg, fl_neg_inf.
  destruct (Prim2SF x) as [s|[|]| |[|] m e]; simpl; done.
Qed.

Local Close Scope Z_scope.

(** ** Loops that may raise *)

Lemma bind_Ok {A B : Type} (r : result A) (k : A -> result B) (b : B) :
  (r ≫= k) = Ok b -> exists a, r = Ok a /\ k a = Ok b.
Proof. destruct r as [a|e]; simpl; [eauto | discriminate]. Qed.

Lemma bind_Err {A B : Type} (r : result A) (k : A -> result B) (e : error) :
  (r ≫= k) = Err e -> r = Err e \/ exists a, r = Ok a /\ k a = Err e.
Proof. destruct r as [a|e']; simpl; [eauto | intros [= ->]; auto]. Qed.

Lemma foldM_app {S A : Type} (body : S -> A -> result S) (l1 l2 : list A)
  (s : S) :
  foldM body (l1 ++ l2) s = (foldM body l1 s ≫= foldM body l2).
Proof.
  revert s. induction l1 as [|a l1 IH]; intros s; simpl; [reflexivity|].
  destruct (body s a) as [s'|e]; simpl; [apply IH | reflexivity].
Qed.

(** A loop that ends normally has run its body on every element. *)
Lemma foldM_Ok_inv {S A : Type} (body : S -> A -> result S)
  (P : list A -> S -> Prop) (l : list A) (s0 s : S) :
  P [] s0 ->
  (forall done a rest s1 s2,
     l = done ++ a :: rest -> P done s1 -> body s1 a = Ok s2 ->
     P (done ++ [a]) s2) ->
  foldM body l s0 = Ok s -> P l s.
Proof.
  intros H0 Hstep.
  assert (forall l1 l2 s, l = l1 ++ l2 -> foldM body l1 s0 = Ok s -> P l1 s)
    as Hgen.
  { induction l1 as [|a l1 IH] using rev_ind; intros l2 s1 Hl; simpl.
    - intros [= <-]. exact H0.
    - rewrite foldM_app. intros H.
      apply bind_Ok in H as (s2 & H1 & H2). simpl in H2.
      apply bind_Ok in H2 as (s3 & H2 & [= <-]).
      rewrite <- app_assoc in Hl. simpl in Hl.
      eapply Hstep; eauto. }
  intros H. apply (Hgen l [] s); [by rewrite app_nil_r | exact H].
Qed.

(** A loop that raises does so at its first element whose body raises. *)
Lemma foldM_Err_inv {S A : Type} (body : S -> A -> result S) (l : list A)
  (s0 : S) (e : error) :
  foldM body l s0 = Err e ->
  exists done a rest s1,
    l = done ++ a :: rest /\ foldM body done s0 = Ok s1 /\ body s1 a = Err e.
Proof.
  revert s0. induction l as [|a l IH]; intros s0; simpl; [discriminate|].
  intros H. apply bind_Err in H as [H | (s1 & H1 & H2)].
  - exists [], a, l, s0. auto.
  - destruct (IH _ H2) as (done & b & rest & s2 & -> & Hd & Hb).
    exists (a :: done), b, rest, s2. simpl. rewrite H1. auto.
Qed.

(** ** Validation *)

Lemma register_nodes_spec (k : nat) (L : list string) (m m' : gmap string nat) :
  foldM (register_node k) L m = Ok m' ->
  (forall u, u ∈ L -> m !! u = None) /\
  (forall u j, m' !! u = Some j <-> m !! u = Some j \/ (u ∈ L /\ j = k)).
Proof.
  revert m. induction L as [|a L IH]; intros m; simpl.
  - intros [= <-]. split; [intros u Hu; inversion Hu | ].
    intros u j. split; [auto | intros [H | [Hu _]]; [done | inversion Hu]].
  - intros H. apply bind_Ok in H as (m1 & H1 & H2).
    unfold register_node in H1. destruct (m !! a) eqn:Ha; [discriminate|].
    injection H1 as <-. destruct (IH _ H2) as [Hfresh Hiff]. split.
    + intros u Hu. apply elem_of_cons in Hu as [-> | Hu]; [done|].
      specialize (Hfresh u Hu). rewrite lookup_insert in Hfresh.
      case_decide; [discriminate | done].
    + intros u j. rewrite Hiff, lookup_insert, elem_of_cons.
      case_decide as Hau.
      * subst a. split.
        -- intros [[= <-] | [Hu ->]]; auto.
        -- intros [Hm | [_ ->]]; [congruence | auto].
      * split; [intros [H | [Hu ->]]; auto | ].
        intros [H | [[-> | Hu] ->]]; auto. done.
Qed.

Lemma register_layers_spec (layers : layers_t) :
  forall k (m m' : gmap string nat),
  register_layers k layers m = Ok m' ->
  (forall i L u, layers !! i = Some L -> u ∈ L -> m !! u = None) /\
  (forall u j, m' !! u = Some j <->
     m !! u = Some j \/ exists i L, layers !! i = Some L /\ u ∈ L /\ j = k + i).
Proof.
  induction layers as [|L0 rest IH]; intros k m m'; simpl.
  - intros [= <-]. split; [intros i L u Hi; inversion Hi|].
    intros u j. split; [auto|]. intros [H | (i & L & Hi & _)]; [done|].
    inversion Hi.
  - intros H. apply bind_Ok in H as (m1 & H1 & H2).
    apply register_nodes_spec in H1 as [Hfresh1 Hiff1].
    apply IH in H2 as [Hfresh2 Hiff2]. split.
    + intros [|i] L u Hi Hu; simpl in Hi.
      * injection Hi as <-. auto.
      * specialize (Hfresh2 i L u Hi Hu).
        destruct (m !! u) as [j|] eqn:Hm; [|done].
        assert (m1 !! u = Some j) by (apply Hiff1; auto). congruence.
    + intros u j. rewrite Hiff2, Hiff1. split.
      * intros [[H | [Hu ->]] | (i & L & Hi & Hu & ->)]; auto.
        -- right. exists 0, L0. split; [done|]. split; [done|lia].
        -- right. exists (S i), L. split; [done|]. split; [done|lia].
      * intros [H | ([|i] & L & Hi & Hu & ->)]; auto; simpl in Hi.
        -- injection Hi as <-. left. right. split; [done|lia].
        -- right. exists i, L. split; [done|]. split; [done|lia].
Qed.

Lemma validate_stages layers edges start goal stage_of flat :
  _validate_stagecoach layers edges start goal = Ok (stage_of, flat) ->
  valid_stages layers start goal stage_of.
Proof.
  unfold _validate_stagecoach.
  destruct (layers_well_formed layers) eqn:Hwf; simpl; [|discriminate].
  intros H. apply bind_Ok in H as (m & Hreg & H).
  destruct (m !! start) as [s0|] eqn:Hs; [|discriminate].
  destruct (m !! goal) as [sK|] eqn:Hg; [|discriminate].
  destruct (Nat.eqb s0 0) eqn:E0; simpl in H; [|discriminate].
  destruct (Nat.eqb sK (length layers - 1)) eqn:EK; simpl in H; [|discriminate].
  apply bind_Ok in H as (c & _ & [= <- <-]).
  apply Nat.eqb_eq in E0, EK. subst s0 sK.
  apply register_layers_spec in Hreg as [_ Hiff].
  split; auto.
  - destruct layers; [discriminate | simpl; lia].
  - intros u j. rewrite Hiff, lookup_empty. split.
    + intros [H | (i & L & Hi & Hu & ->)]; [discriminate | eauto].
    + intros (L & Hi & Hu). right. exists j, L. auto.
Qed.

(** ** The scan of the next stage *)

Section Scan.
Variables (opt_mode combine_op : string) (nbrs : nbrs_t).

Lemma scan_next_ind (fs : gmap string float)
  (P : list string -> scan -> Prop) (next_layer : list string) :
  P [] (scan_init opt_mode) ->
  (forall seen v s,
     P seen s -> P (seen ++ [v]) (scan_step opt_mode combine_op nbrs fs s v)) ->
  P next_layer (scan_next opt_mode combine_op nbrs fs next_layer).
Proof.
  intros H0 Hstep. unfold scan_next.
  induction next_layer as [|v l IH] using rev_ind; simpl; [exact H0|].
  rewrite fold_left_app. simpl. apply Hstep, IH.
Qed.

(** The scan reads [fs] on the nodes of the next stage only. *)
Lemma scan_next_ext (fs fs' : gmap string float) (next_layer : list string) :
  (forall v, v ∈ next_layer -> fs !! v = fs' !! v) ->
  scan_next opt_mode combine_op nbrs fs next_layer =
  scan_next opt_mode combine_op nbrs fs' next_layer.
Proof.
  unfold scan_next. generalize (scan_init opt_mode).
  induction next_layer as [|v l IH]; intros s H; simpl; [reflexivity|].
  rewrite IH by (intros; apply H; by right).
  f_equal. unfold scan_step, f_star_get. rewrite (H v) by left. reflexivity.
Qed.

Lemma agg_init_eqb_refl :
  PrimFloat.eqb (agg_init opt_mode) (agg_init opt_mode) = true.
Proof. unfold agg_init. destruct (String.eqb opt_mode "min"); reflexivity. Qed.

Lemma better_eqb_refl (a b : float) :
  better opt_mode a b = true -> PrimFloat.eqb a a = true.
Proof.
  unfold better. destruct (String.eqb opt_mode "min").
  - apply float_eqb_refl_of_ltb_l.
  - apply float_eqb_refl_of_ltb_r.
Qed.

(** Every tied successor is a node of the next stage that [u] has an edge
    to, and its candidate total is [==] to the best value. *)
Lemma scan_next_best_vs (fs : gmap string float) (next_layer : list string) :
  let s := scan_next opt_mode combine_op nbrs fs next_layer in
  forall v, v ∈ best_vs s ->
    v ∈ next_layer /\
    exists w, dict_get v nbrs = Some w /\
      PrimFloat.eqb (combine combine_op w (f_star_get opt_mode fs v))
        (best_val s) = true.
Proof.
  apply (scan_next_ind fs (fun seen s => forall v, v ∈ best_vs s ->
    v ∈ seen /\ exists w, dict_get v nbrs = Some w /\
      PrimFloat.eqb (combine combine_op w (f_star_get opt_mode fs v))
        (best_val s) = true)).
  - intros v Hv. inversion Hv.
  - intros seen v s IH v'. scan_cases; intros Hv'.
    + apply list_elem_of_singleton in Hv' as ->.
      split; [apply elem_of_app; right; by left|].
      exists w. split; [done|]. eapply better_eqb_refl, Hb.
    + apply elem_of_app in Hv' as [Hv' | Hv'].
      * destruct (IH _ Hv') as [Hin Hex].
        split; [apply elem_of_app; by left | done].
      * apply list_elem_of_singleton in Hv' as ->.
        split; [apply elem_of_app; right; by left | eauto].
    + destruct (IH _ Hv') as [Hin Hex].
      split; [apply elem_of_app; by left | done].
    + destruct (IH _ Hv') as [Hin Hex].
      split; [apply elem_of_app; by left | done].
Qed.

(** The best value is never NaN. *)
Lemma scan_next_best_val_eqb (fs : gmap string float) (next_layer : list string) :
  let s := scan_next opt_mode combine_op nbrs fs next_layer in
  PrimFloat.eqb (best_val s) (best_val s) = true.
Proof.
  apply (scan_next_ind fs
           (fun _ s => PrimFloat.eqb (best_val s) (best_val s) = true)).
  - apply agg_init_eqb_refl.
  - intros seen v s IH. scan_cases; try exact IH.
    eapply better_eqb_refl, Hb.
Qed.

(** Without a successor kept, the best value is still the initial one. *)
Lemma scan_next_empty_best_val (fs : gmap string float) (next_layer : list string) :
  let s := scan_next opt_mode combine_op nbrs fs next_layer in
  best_vs s = [] -> best_val s = agg_init opt_mode.
Proof.
  apply (scan_next_ind fs
           (fun _ s => best_vs s = [] -> best_val s = agg_init opt_mode)).
  - reflexivity.
  - intros seen v s IH. scan_cases; try exact IH; [discriminate|].
    intros H. by apply app_eq_nil in H as [_ ?].
Qed.

(** A node without an edge into the next stage keeps no successor. *)
Lemma scan_next_no_edge (fs : gmap string float) (next_layer : list string) :
  (forall v, v ∈ next_layer -> dict_get v nbrs = None) ->
  best_vs (scan_next opt_mode combine_op nbrs fs next_layer) = [].
Proof.
  intros Hno.
  apply (scan_next_ind fs (fun seen s =>
    (forall v, v ∈ seen -> v ∈ next_layer) -> best_vs s = [])); [done| |done].
  intros seen v s IH Hsub. unfold scan_step.
  rewrite Hno by (apply Hsub, elem_of_app; right; by left). simpl.
  apply IH. intros v' Hv'. apply Hsub, elem_of_app. by left.
Qed.
End Scan.

(** ** The backward pass *)

Lemma stage_range_split (K t : nat) (done rest : list nat) :
  stage_range K = done ++ t :: rest -> K = length done + S t /\ length rest = t.
Proof.
  unfold stage_range. intros H.
  assert (seq 0 K = rev rest ++ t :: rev done) as Hseq.
  { rewrite <- (rev_involutive (seq 0 K)), H, rev_app_distr. simpl.
    by rewrite <- app_assoc. }
  assert (length (seq 0 K) = length (rev rest ++ t :: rev done)) as Hlen
    by (by rewrite Hseq).
  rewrite length_seq, length_app in Hlen. simpl in Hlen.
  rewrite !length_rev in Hlen.
  assert (seq 0 K !! length (rev rest) = Some t) as Hl
    by (rewrite Hseq; apply list_lookup_middle; reflexivity).
  apply lookup_seq in Hl as [-> _]. rewrite length_rev. lia.
Qed.

Section Pass.
Variables (opt_mode combine_op : string) (layers : layers_t) (edges : edges_t).
Variables (start goal : string) (stage_of : gmap string nat).
Hypothesis Hvs : valid_stages layers start goal stage_of.

Let K := length layers - 1.
Let inv := dp_inv opt_mode combine_op layers edges goal stage_of.

Lemma layer_at_stage (u : string) (j : nat) :
  u ∈ layer_at layers j <-> stage_of !! u = Some j.
Proof.
  rewrite (vs_stage _ _ _ _ Hvs). unfold layer_at. split.
  - destruct (layers !! j) as [L|]; simpl; [eauto | intros H; inversion H].
  - intros (L & -> & Hu). exact Hu.
Qed.

Lemma processed_goal (b : nat) (done : list string) :
  ~ processed layers stage_of b done goal.
Proof.
  intros (j & Hj & Hlt & _). rewrite (vs_goal _ _ _ _ Hvs) in Hj.
  injection Hj as <-. lia.
Qed.

Lemma processed_snoc (t : nat) (done : list string) (u u' : string) :
  stage_of !! u = Some t -> t < K ->
  processed layers stage_of (S t) (done ++ [u]) u' <->
  processed layers stage_of (S t) done u' \/ u' = u.
Proof.
  intros Hu Ht. unfold processed. split.
  - intros (j & Hj & Hlt & [Hb | [Hb Hin]]); [left; eauto 6|].
    apply elem_of_app in Hin as [Hin | Hin].
    + left. eauto 8.
    + right. by apply list_elem_of_singleton in Hin.
  - intros [(j & Hj & Hlt & [Hb | [Hb Hin]]) | ->].
    + eauto 6.
    + exists j. split; [done|]. split; [done|]. right. split; [done|].
      apply elem_of_app. by left.
    + exists t. split; [done|]. split; [exact Ht|]. right. split; [done|].
      apply elem_of_app. right. by left.
Qed.

Lemma processed_stage_done (t : nat) (u : string) :
  processed layers stage_of (S t) (layer_at layers t) u <->
  processed layers stage_of t [] u.
Proof.
  unfold processed. split.
  - intros (j & Hj & Hlt & [Hb | [Hb Hin]]); exists j;
      (split; [done|]); (split; [done|]); left; lia.
  - intros (j & Hj & Hlt & [Hb | [_ Hin]]); [|inversion Hin].
    exists j. split; [done|]. split; [done|].
    destruct (decide (j = t)) as [-> | Hne]; [right | left; lia].
    split; [done|]. by apply layer_at_stage.
Qed.

Lemma dp_inv_proper (b b' : nat) (done done' : list string) fs pol :
  (forall u, processed layers stage_of b done u <->
             processed layers stage_of b' done' u) ->
  inv b done fs pol -> inv b' done' fs pol.
Proof.
  intros Heq [Hgf Hgp Hdf Hdp Hent]. split; auto.
  - intros u. rewrite Hdf, Heq. reflexivity.
  - intros u. rewrite Hdp, Heq. reflexivity.
  - intros u j Hj Hp. apply Hent; [done | by apply Heq].
Qed.

Lemma dp_inv_init :
  inv K [] {[ goal := combine_identity combine_op ]} {[ goal := [] ]}.
Proof.
  assert (forall u, ~ processed layers stage_of K [] u) as Hnone.
  { intros u (j & _ & Hlt & [Hb | [_ Hin]]); [fold K in Hlt; lia | inversion Hin]. }
  split.
  - apply lookup_singleton_eq.
  - apply lookup_singleton_eq.
  - intros u. rewrite lookup_singleton_is_Some. split; [auto|].
    intros [-> | H]; [done | by apply Hnone in H].
  - intros u. rewrite lookup_singleton_is_Some. split; [auto|].
    intros [-> | H]; [done | by apply Hnone in H].
  - intros u j _ H. by apply Hnone in H.
Qed.

(** Relaxing node [u] of stage [t] adds its scan and changes nothing else. *)
Lemma relax_node_inv (t : nat) (done : list string) (st st' : dp_state)
  (u : string) :
  stage_of !! u = Some t -> t < K ->
  inv (S t) done (st_f_star st) (st_policy st) ->
  relax_node opt_mode combine_op edges t (layer_at layers (t + 1)) st u
    = Ok st' ->
  inv (S t) (done ++ [u]) (st_f_star st') (st_policy st') /\
  st_rows st' = st_rows st ++
    [let s := scan_of opt_mode combine_op layers edges (st_f_star st) u t in
     {| row_node := u; row_totals := totals s; row_best := best_val s;
        row_next := best_vs s |}].
Proof.
  intros Hu Ht [Hgf Hgp Hdf Hdp Hent]. unfold relax_node.
  fold (scan_of opt_mode combine_op layers edges (st_f_star st) u t).
  set (s := scan_of _ _ _ _ _ u t).
  destruct (best_vs s) as [|v0 vs0] eqn:Hbest; [discriminate|].
  intros [= <-]. simpl. split; [|reflexivity].
  assert (u <> goal) as Hug.
  { intros ->. rewrite (vs_goal _ _ _ _ Hvs) in Hu. injection Hu as Hu.
    fold K in Hu. lia. }
  assert (forall u' j, stage_of !! u' = Some j ->
            processed layers stage_of (S t) (done ++ [u]) u' ->
            scan_of opt_mode combine_op layers edges
              (<[u := best_val s]> (st_f_star st)) u' j =
            scan_of opt_mode combine_op layers edges (st_f_star st) u' j)
    as Hscan.
  { intros u' j Hj (j' & Hj' & _ & Hb). unfold scan_of.
    apply scan_next_ext. intros v Hv. apply layer_at_stage in Hv.
    rewrite lookup_insert_ne; [done|]. intros <-.
    assert (j' = j) by congruence. assert (t = j + 1) by congruence. lia. }
  split.
  - by rewrite lookup_insert_ne.
  - by rewrite lookup_insert_ne.
  - intros u'. rewrite lookup_insert_is_Some, Hdf, processed_snoc by done.
    destruct (decide (u = u')) as [-> | Hne]; [tauto|].
    split; [intros [? | [_ [? | ?]]]; [done | auto..] | ].
    intros [? | [? | ?]]; [auto..|]. by subst.
  - intros u'. rewrite lookup_insert_is_Some, Hdp, processed_snoc by done.
    destruct (decide (u = u')) as [-> | Hne]; [tauto|].
    split; [intros [? | [_ [? | ?]]]; [done | auto..] | ].
    intros [? | [? | ?]]; [auto..|]. by subst.
  - intros u' j Hj Hp. simpl. rewrite (Hscan u' j Hj Hp).
    destruct (decide (u = u')) as [<- | Hne].
    + assert (j = t) by congruence. subst j.
      rewrite !lookup_insert_eq. fold s. rewrite Hbest. done.
    + apply processed_snoc in Hp as [Hp | ->]; [| done..].
      rewrite !lookup_insert_ne by done. by apply Hent.
Qed.

Lemma relax_nodes_inv (t : nat) (st0 st : dp_state) :
  t < K ->
  inv (S t) [] (st_f_star st0) (st_policy st0) ->
  foldM (relax_node opt_mode combine_op edges t (layer_at layers (t + 1)))
    (layer_at layers t) st0 = Ok st ->
  inv t [] (st_f_star st) (st_policy st).
Proof.
  intros Ht H0 H.
  apply (dp_inv_proper (S t) t (layer_at layers t) []);
    [apply processed_stage_done|].
  revert H.
  apply (foldM_Ok_inv _
           (fun done st => inv (S t) done (st_f_star st) (st_policy st)));
    [exact H0|].
  intros done u rest s1 s2 Hl Hinv Hstep.
  eapply relax_node_inv; [| exact Ht | exact Hinv | exact Hstep].
  apply layer_at_stage. rewrite Hl. apply elem_of_app. right. by left.
Qed.

Lemma relax_stage_inv (t : nat) (ps ps' : pass_state) :
  t < K ->
  inv (S t) [] (ps_f_star ps) (ps_policy ps) ->
  relax_stage opt_mode combine_op layers edges ps t = Ok ps' ->
  inv t [] (ps_f_star ps') (ps_policy ps') /\
  map tbl_stage (ps_tables ps') = map tbl_stage (ps_tables ps) ++ [S t].
Proof.
  intros Ht H0. unfold relax_stage. intros H.
  apply bind_Ok in H as (st & Hst & [= <-]). simpl. split.
  - eapply relax_nodes_inv; [exact Ht | | exact Hst]. exact H0.
  - rewrite map_app. simpl. by rewrite Nat.add_1_r.
Qed.

(** After the backward pass every node below the last stage is relaxed,
    and the tables are in the order of the pass. *)
Lemma backward_pass_inv (ps : pass_state) :
  backward_pass opt_mode combine_op layers edges goal = Ok ps ->
  inv 0 [] (ps_f_star ps) (ps_policy ps) /\
  map tbl_stage (ps_tables ps) = map S (stage_range K).
Proof.
  unfold backward_pass. fold K. intros H.
  assert (inv (K - length (stage_range K)) [] (ps_f_star ps) (ps_policy ps) /\
          map tbl_stage (ps_tables ps) = map S (stage_range K)) as [H1 H2].
  { revert H.
    apply (foldM_Ok_inv _ (fun done ps =>
             inv (K - length done) [] (ps_f_star ps) (ps_policy ps) /\
             map tbl_stage (ps_tables ps) = map S done)).
    - simpl. rewrite Nat.sub_0_r. split; [apply dp_inv_init | reflexivity].
    - intros done t rest ps1 ps2 Hl [Hinv Htab] Hstep.
      apply stage_range_split in Hl as [HK Hrest].
      replace (K - length done) with (S t) in Hinv by lia.
      apply relax_stage_inv in Hstep as [Hinv' Htab']; [|lia|exact Hinv].
      rewrite length_app. simpl.
      replace (K - (length done + 1)) with t by lia. split; [exact Hinv'|].
      rewrite Htab', Htab, map_app. reflexivity. }
  split; [|exact H2].
  unfold stage_range in H1. rewrite length_rev, length_seq, Nat.sub_diag in H1.
  exact H1.
Qed.
End Pass.

(** ** What [solve_stagecoach_dp] returns *)

Lemma solve_Ok_inv layers edges start goal opt_mode combine_op r :
  solve_stagecoach_dp layers edges start goal opt_mode combine_op = Ok r ->
  exists stage_of flat ps,
    (opt_mode = "min" \/ opt_mode = "max") /\
    (combine_op = "+" \/ combine_op = "*") /\
    _validate_stagecoach layers edges start goal = Ok (stage_of, flat) /\
    backward_pass opt_mode combine_op layers edges goal = Ok ps /\
    walk (length layers) (ps_policy ps) goal start [start] = Ok (path r) /\
    ps_f_star ps !! start = Some (optimal_cost r) /\
    f_star r = ps_f_star ps /\ policy r = ps_policy ps /\
    tables r = ps_tables ps.
Proof.
  unfold solve_stagecoach_dp.
  destruct (String.eqb opt_mode "min" || String.eqb opt_mode "max") eqn:Hm;
    simpl; [|discriminate].
  destruct (String.eqb combine_op "+" || String.eqb combine_op "*") eqn:Ho;
    simpl; [|discriminate].
  intros H. apply bind_Ok in H as ([stage_of flat] & Hv & H).
  apply bind_Ok in H as (ps & Hps & H).
  apply bind_Ok in H as (pth & Hw & H).
  destruct (ps_f_star ps !! start) as [c|] eqn:Hc; [|discriminate].
  injection H as <-. simpl.
  exists stage_of, flat, ps.
  apply orb_true_iff in Hm, Ho. rewrite !String.eqb_eq in Hm, Ho.
  repeat split; auto.
Qed.

Lemma solve_solved layers edges start goal opt_mode combine_op r :
  solve_stagecoach_dp layers edges start goal opt_mode combine_op = Ok r ->
  exists stage_of, solved layers edges start goal opt_mode combine_op r stage_of.
Proof.
  intros H. apply solve_Ok_inv in H
    as (stage_of & flat & ps & Hm & Ho & Hv & Hps & Hw & Hc & Hf & Hp & Ht).
  exists stage_of. apply validate_stages in Hv.
  destruct (backward_pass_inv _ _ _ _ _ _ _ Hv _ Hps) as [Hinv Htab].
  split; auto; rewrite ?Hf, ?Hp, ?Ht; auto.
Qed.

Section Solved.
Variables (layers : layers_t) (edges : edges_t).
Variables (start goal opt_mode combine_op : string).
Variables (stage_of : gmap string nat).
Variables (fs : gmap string float) (pol : gmap string (list string)).
Hypothesis Hvs : valid_stages layers start goal stage_of.
Hypothesis Hinv :
  dp_inv opt_mode combine_op layers edges goal stage_of 0 [] fs pol.

Lemma stage_lt_length (u : string) (j : nat) :
  stage_of !! u = Some j -> j < length layers.
Proof.
  intros H. apply (vs_stage _ _ _ _ Hvs) in H as (L & HL & _).
  by apply lookup_lt_Some in HL.
Qed.

Lemma final_processed (u : string) :
  processed layers stage_of 0 [] u <->
  exists j, stage_of !! u = Some j /\ j < length layers - 1.
Proof.
  unfold processed. split.
  - intros (j & Hj & Hlt & _). eauto.
  - intros (j & Hj & Hlt). exists j. split; [done|]. split; [done|]. left. lia.
Qed.

(** Every node below the last stage holds the outcome of its scan. *)
Lemma final_entry (u : string) (j : nat) :
  stage_of !! u = Some j -> j < length layers - 1 ->
  let s := scan_of opt_mode combine_op layers edges fs u j in
  fs !! u = Some (best_val s) /\ pol !! u = Some (best_vs s) /\ best_vs s <> [].
Proof.
  intros Hj Hlt. apply (inv_entry _ _ _ _ _ _ _ _ _ _ Hinv); [done|].
  apply final_processed. eauto.
Qed.

(** The keys of [policy] are the goal and the nodes below the last stage. *)
Lemma final_policy_key (u : string) (vs : list string) :
  pol !! u = Some vs ->
  (u = goal /\ vs = []) \/
  exists j, stage_of !! u = Some j /\ j < length layers - 1 /\
    vs = best_vs (scan_of opt_mode combine_op layers edges fs u j) /\
    fs !! u = Some (best_val (scan_of opt_mode combine_op layers edges fs u j)) /\
    vs <> [].
Proof.
  intros Hu.
  assert (is_Some (pol !! u)) as Hs by eauto.
  apply (inv_dom_p _ _ _ _ _ _ _ _ _ _ Hinv) in Hs as [-> | Hp].
  - left. split; [done|].
    rewrite (inv_goal_p _ _ _ _ _ _ _ _ _ _ Hinv) in Hu. congruence.
  - right. apply final_processed in Hp as (j & Hj & Hlt).
    destruct (final_entry u j Hj Hlt) as (Hf & Hp & Hne).
    exists j. rewrite Hp in Hu. injection Hu as <-. auto.
Qed.

(** Every successor kept in the policy lies one stage further, is reached by
    an edge, and its candidate total is [==] to the value of the node. *)
Lemma final_policy_edge (u v : string) (vs : list string) :
  pol !! u = Some vs -> v ∈ vs ->
  exists j w fu,
    stage_of !! u = Some j /\ j < length layers - 1 /\
    stage_of !! v = Some (S j) /\
    dict_get v (edges_get edges u) = Some w /\
    fs !! u = Some fu /\
    PrimFloat.eqb (combine combine_op w (f_star_get opt_mode fs v)) fu = true.
Proof.
  intros Hu Hv.
  apply final_policy_key in Hu as [[_ ->] | (j & Hj & Hlt & -> & Hf & _)];
    [inversion Hv|].
  apply scan_next_best_vs in Hv as (Hin & w & Hw & He).
  eexists j, w, _. repeat split; eauto.
  rewrite <- Nat.add_1_r. by apply (layer_at_stage layers start goal stage_of Hvs).
Qed.

(** A node without a value is a node of the last stage other than the goal,
    or no node of the graph. *)
Lemma final_missing (v : string) (i : nat) :
  stage_of !! v = Some i -> fs !! v = None ->
  v <> goal /\ i = length layers - 1.
Proof.
  intros Hi Hnone.
  assert (~ is_Some (fs !! v)) as Hn by (rewrite Hnone; by intros [? ?]).
  rewrite (inv_dom_f _ _ _ _ _ _ _ _ _ _ Hinv), final_processed in Hn.
  split; [tauto|].
  apply stage_lt_length in Hi as Hlt.
  destruct (decide (i < length layers - 1)); [|lia].
  exfalso. apply Hn. right. eauto.
Qed.
End Solved.

(** ** The representative path *)

Lemma follows_last pol goal p : follows pol goal p -> last p = Some goal.
Proof.
  induction 1 as [|u v vs p Hne Hu Hv Hf IH]; [reflexivity|].
  rewrite <- IH. reflexivity.
Qed.

(** A walk that ends normally extends the path by a chain of first
    successors up to the goal. *)
Lemma walk_Ok_follows pol goal fuel :
  forall u pth p,
  walk fuel pol goal u pth = Ok p ->
  exists q, p = pth ++ q /\ follows pol goal (u :: q).
Proof.
  induction fuel as [|fuel IH]; intros u pth p; simpl;
    destruct (String.eqb u goal) eqn:Hug.
  - apply String.eqb_eq in Hug as ->. intros [= <-].
    exists []. rewrite app_nil_r. split; [done | constructor].
  - discriminate.
  - apply String.eqb_eq in Hug as ->. intros [= <-].
    exists []. rewrite app_nil_r. split; [done | constructor].
  - apply String.eqb_neq in Hug.
    destruct (pol !! u) as [[|v vs]|] eqn:Hu; try discriminate.
    intros H. apply IH in H as (q & -> & Hf).
    exists (v :: q). rewrite <- app_assoc. split; [done|].
    econstructor; eauto. by left.
Qed.

Section Walk.
Variables (layers : layers_t) (edges : edges_t).
Variables (start goal opt_mode combine_op : string).
Variables (stage_of : gmap string nat).
Variables (fs : gmap string float) (pol : gmap string (list string)).
Hypothesis Hvs : valid_stages layers start goal stage_of.
Hypothesis Hinv :
  dp_inv opt_mode combine_op layers edges goal stage_of 0 [] fs pol.

(** The walk moves one stage forward at each step, so it ends within as
    many steps as there are stages: at the goal, or at another node of the
    last stage, which has no policy entry. *)
Lemma walk_outcome (fuel : nat) :
  forall u j pth,
  stage_of !! u = Some j -> length layers <= j + fuel ->
  (exists p, walk fuel pol goal u pth = Ok p) \/
  (exists x, walk fuel pol goal u pth = Err (EPathStuck x) /\
     x <> goal /\ stage_of !! x = Some (length layers - 1) /\ pol !! x = None).
Proof.
  induction fuel as [|fuel IH]; intros u j pth Hj Hfuel.
  - apply (stage_lt_length _ _ _ _ Hvs) in Hj. lia.
  - simpl. destruct (String.eqb u goal) eqn:Hug; [eauto|].
    apply String.eqb_neq in Hug.
    destruct (pol !! u) as [vs|] eqn:Hu.
    + destruct (final_policy_key _ _ _ _ _ _ _ _ Hinv u vs Hu)
        as [[-> _] | (j' & Hj' & Hlt & _ & _ & Hne)]; [done|].
      destruct vs as [|v vs]; [done|].
      destruct (final_policy_edge _ _ _ _ _ _ _ _ _ Hvs Hinv u v (v :: vs) Hu)
        as (j'' & w & fu & Hj'' & _ & Hv & _); [by left|].
      assert (j'' = j) by congruence. subst j''.
      apply (IH v (S j)); [done | lia].
    + right. exists u. split; [done|]. split; [done|]. split; [|done].
      rewrite Hj. f_equal.
      assert (~ is_Some (pol !! u)) as Hn by (rewrite Hu; by intros [? ?]).
      rewrite (inv_dom_p _ _ _ _ _ _ _ _ _ _ Hinv) in Hn.
      rewrite final_processed in Hn.
      apply (stage_lt_length _ _ _ _ Hvs) in Hj as Hlt.
      destruct (decide (j < length layers - 1)); [|lia].
      exfalso. apply Hn. right. eauto.
Qed.

(** When the last stage is the goal alone, the walk reaches the goal. *)
Lemma walk_reaches_goal (fuel : nat) (pth : list string) :
  layer_at layers (length layers - 1) = [goal] ->
  length layers <= fuel ->
  exists p, walk fuel pol goal start pth = Ok p.
Proof.
  intros Hlast Hfuel.
  destruct (walk_outcome fuel start 0 pth (vs_start _ _ _ _ Hvs))
    as [H | (x & _ & Hx & Hst & _)]; [lia | done |].
  apply (layer_at_stage _ _ _ _ Hvs) in Hst. rewrite Hlast in Hst.
  by apply list_elem_of_singleton in Hst.
Qed.
End Walk.

(** ** Errors of the validation *)

Lemma foldM_unit_Ok {A : Type} (body : unit -> A -> result unit) (l : list A) :
  foldM body l tt = Ok tt -> forall a, a ∈ l -> body tt a = Ok tt.
Proof.
  induction l as [|a l IH]; simpl; intros H b Hb; [inversion Hb|].
  apply bind_Ok in H as ([] & H1 & H2).
  apply elem_of_cons in Hb as [-> | Hb]; auto.
Qed.

Lemma register_layers_Err layers : forall k m e,
  register_layers k layers m = Err e -> exists u, e = EDuplicateNode u.
Proof.
  induction layers as [|L rest IH]; intros k m e; simpl; [discriminate|].
  intros H. apply bind_Err in H as [H | (m' & _ & H)]; [|eauto].
  apply foldM_Err_inv in H as (done & u & rest' & m1 & _ & _ & H).
  unfold register_node in H. destruct (m1 !! u); [|discriminate].
  injection H as <-. eauto.
Qed.

Lemma check_edge_Err stage_of u su vw e :
  check_edge stage_of u su tt vw = Err e ->
  e = EEdgeUnknownNode (fst vw) \/ e = EEdgeNotNextStage u (fst vw).
Proof.
  unfold check_edge. destruct (stage_of !! vw.1) as [sv|]; [|intros [= <-]; auto].
  destruct (Nat.eqb sv (su + 1)); [discriminate | intros [= <-]; auto].
Qed.

Lemma check_source_Err stage_of entry e :
  check_source stage_of tt entry = Err e -> is_structure_error e = true.
Proof.
  unfold check_source. destruct (stage_of !! entry.1) as [su|];
    [|by intros [= <-]].
  intros H. apply foldM_Err_inv in H as (done & vw & rest & [] & _ & _ & H).
  by apply check_edge_Err in H as [-> | ->].
Qed.

(** Every error of the validation is a structure error. *)
Lemma validate_Err_structure layers edges start goal e :
  _validate_stagecoach layers edges start goal = Err e ->
  is_structure_error e = true.
Proof.
  unfold _validate_stagecoach.
  destruct (layers_well_formed layers); simpl; [|by intros [= <-]].
  intros H. apply bind_Err in H as [H | (m & _ & H)].
  - by apply register_layers_Err in H as (u & ->).
  - destruct (m !! start) as [s0|]; [|by injection H as <-].
    destruct (m !! goal) as [sK|]; [|by injection H as <-].
    destruct (negb (Nat.eqb s0 0) || negb (Nat.eqb sK (length layers - 1)));
      [by injection H as <-|].
    apply bind_Err in H as [H | ([] & _ & H)]; [|discriminate].
    apply foldM_Err_inv in H as (done & entry & rest & [] & _ & _ & H).
    by apply check_source_Err in H.
Qed.

(** A successful validation has checked every edge. *)
Lemma validate_Ok_edges layers edges start goal stage_of flat :
  _validate_stagecoach layers edges start goal = Ok (stage_of, flat) ->
  forall u nbrs v w, (u, nbrs) ∈ edges -> (v, w) ∈ nbrs ->
  exists su, stage_of !! u = Some su /\ stage_of !! v = Some (su + 1).
Proof.
  unfold _validate_stagecoach.
  destruct (layers_well_formed layers); simpl; [|discriminate].
  intros H. apply bind_Ok in H as (m & _ & H).
  destruct (m !! start) as [s0|]; [|discriminate].
  destruct (m !! goal) as [sK|]; [|discriminate].
  destruct (negb (Nat.eqb s0 0) || negb (Nat.eqb sK (length layers - 1)));
    [discriminate|].
  apply bind_Ok in H as ([] & Hchk & [= <- <-]).
  intros u nbrs v w Hu Hv.
  pose proof (foldM_unit_Ok _ _ Hchk _ Hu) as H. unfold check_source in H.
  simpl in H. destruct (m !! u) as [su|] eqn:Hsu; [|discriminate].
  pose proof (foldM_unit_Ok _ _ H _ Hv) as H'. unfold check_edge in H'.
  simpl in H'. destruct (m !! v) as [sv|] eqn:Hsv; [|discriminate].
  destruct (Nat.eqb sv (su + 1)) eqn:E; [|discriminate].
  apply Nat.eqb_eq in E as ->. eauto.
Qed.

(** The checks made before the edges do not depend on the edges. *)
Lemma validate_edges_indep layers edges edges' start goal stage_of flat :
  _validate_stagecoach layers edges start goal = Ok (stage_of, flat) ->
  _validate_stagecoach layers edges' start goal =
    (checked ← foldM (check_source stage_of) edges' tt; Ok (stage_of, flat)).
Proof.
  unfold _validate_stagecoach.
  destruct (layers_well_formed layers); simpl; [|discriminate].
  destruct (register_layers 0 layers ∅) as [m|]; simpl; [|discriminate].
  destruct (m !! start) as [s0|]; [|discriminate].
  destruct (m !! goal) as [sK|]; [|discriminate].
  destruct (negb (Nat.eqb s0 0) || negb (Nat.eqb sK (length layers - 1)));
    [discriminate|].
  intros H. apply bind_Ok in H as ([] & _ & [= <- <-]). reflexivity.
Qed.

(** Whatever the configuration, no result comes out of a failed validation. *)
Lemma solve_after_validate_Err layers edges start goal e opt_mode combine_op :
  _validate_stagecoach layers edges start goal = Err e ->
  exists e', solve_stagecoach_dp layers edges start goal opt_mode combine_op
             = Err e'.
Proof.
  intros H. unfold solve_stagecoach_dp.
  destruct (negb _); [eauto|]. destruct (negb _); [eauto|].
  rewrite H. simpl. eauto.
Qed.

(** ** The backward pass as one loop *)

Lemma foldM_same_outcome {S S' A : Type} (R : S -> S' -> Prop)
  (body : S -> A -> result S) (body' : S' -> A -> result S') (l : list A) :
  (forall s s' a, R s s' -> same_outcome R (body s a) (body' s' a)) ->
  forall s s', R s s' -> same_outcome R (foldM body l s) (foldM body' l s').
Proof.
  intros Hbody. induction l as [|a l IH]; intros s s' HR; simpl; [exact HR|].
  specialize (Hbody s s' a HR).
  destruct (body s a) as [s1|e], (body' s' a) as [s1'|e']; simpl in *;
    try done.
  by apply IH.
Qed.

Lemma relax_node_same_outcome opt_mode combine_op edges t next st st' u :
  same_dicts_st st st' ->
  same_outcome same_dicts_st
    (relax_node opt_mode combine_op edges t next st u)
    (relax_node opt_mode combine_op edges t next st' u).
Proof.
  intros [Hf Hp]. unfold relax_node. rewrite Hf, Hp.
  destruct (best_vs _); simpl; [reflexivity | split; reflexivity].
Qed.

Lemma relax_nodes_flat opt_mode combine_op layers edges t (L : list string) :
  forall st st', same_dicts_st st st' ->
  same_outcome same_dicts_st
    (foldM (relax_node opt_mode combine_op edges t (layer_at layers (t + 1)))
       L st)
    (foldM (relax_entry opt_mode combine_op layers edges) (map (pair t) L) st').
Proof.
  induction L as [|u L IH]; intros st st' HR; simpl; [exact HR|].
  change (relax_entry opt_mode combine_op layers edges st' (t, u))
    with (relax_node opt_mode combine_op edges t (layer_at layers (t + 1))
            st' u).
  pose proof (relax_node_same_outcome opt_mode combine_op edges t
                (layer_at layers (t + 1)) st st' u HR) as H.
  destruct (relax_node _ _ _ _ _ st u) as [s1|e],
           (relax_node _ _ _ _ _ st' u) as [s1'|e']; simpl in *; try done.
  by apply IH.
Qed.

Lemma relax_stages_flat opt_mode combine_op layers edges (ts : list nat) :
  forall ps st, same_dicts_ps ps st ->
  same_outcome same_dicts_ps
    (foldM (relax_stage opt_mode combine_op layers edges) ts ps)
    (foldM (relax_entry opt_mode combine_op layers edges)
       (flat_map (fun t => map (pair t) (layer_at layers t)) ts) st).
Proof.
  induction ts as [|t ts IH]; intros ps st HR; simpl; [exact HR|].
  rewrite foldM_app.
  pose proof (relax_nodes_flat opt_mode combine_op layers edges t
                (layer_at layers t)
                {| st_f_star := ps_f_star ps; st_policy := ps_policy ps;
                   st_rows := [] |} st HR) as H.
  destruct (relax_stage opt_mode combine_op layers edges ps t) as [ps1|e]
    eqn:Hrs; unfold relax_stage in Hrs;
    destruct (foldM (relax_node _ _ _ _ _) _ _) as [s1|e1];
    destruct (foldM (relax_entry _ _ _ _) (map _ _) st) as [s1'|e1'];
    simpl in *; try done; try congruence.
  injection Hrs as <-. apply IH. exact H.
Qed.

(** The backward pass and the single loop end alike. *)
Lemma backward_pass_flat opt_mode combine_op layers edges goal :
  same_outcome same_dicts_ps
    (backward_pass opt_mode combine_op layers edges goal)
    (foldM (relax_entry opt_mode combine_op layers edges)
       (processing_order layers) (dp_init combine_op goal)).
Proof. apply relax_stages_flat. split; reflexivity. Qed.

Lemma relax_node_Err opt_mode combine_op edges t next st u e :
  relax_node opt_mode combine_op edges t next st u = Err e <->
  e = EDeadEnd u (t + 1) /\
  best_vs (scan_next opt_mode combine_op (edges_get edges u) (st_f_star st)
             next) = [].
Proof.
  unfold relax_node. destruct (best_vs _) as [|v vs]; split.
  - intros [= <-]. done.
  - intros [-> _]. done.
  - discriminate.
  - intros [_ H]. discriminate.
Qed.

(** The only exception of the backward pass is the dead end, raised at the
    first node in processing order whose scan keeps no successor. *)
Lemma backward_pass_Err opt_mode combine_op layers edges goal e :
  backward_pass opt_mode combine_op layers edges goal = Err e ->
  exists before t u after st,
    processing_order layers = before ++ (t, u) :: after /\
    foldM (relax_entry opt_mode combine_op layers edges) before
      (dp_init combine_op goal) = Ok st /\
    best_vs (scan_next opt_mode combine_op (edges_get edges u) (st_f_star st)
               (layer_at layers (t + 1))) = [] /\
    e = EDeadEnd u (t + 1).
Proof.
  intros H. pose proof (backward_pass_flat opt_mode combine_op layers edges goal)
    as Hflat.
  rewrite H in Hflat.
  destruct (foldM _ (processing_order layers) _) as [st|e'] eqn:Hf;
    simpl in Hflat; [done|]. subst e'.
  apply foldM_Err_inv in Hf as (before & [t u] & after & st & Hord & Hb & Hr).
  apply relax_node_Err in Hr as [-> Hbest]. simpl in *.
  exists before, t, u, after, st. auto.
Qed.

(** Conversely, the pass raises at a node it reaches whose scan keeps no
    successor. *)
Lemma backward_pass_dead_end opt_mode combine_op layers edges goal
  before t u after st :
  processing_order layers = before ++ (t, u) :: after ->
  foldM (relax_entry opt_mode combine_op layers edges) before
    (dp_init combine_op goal) = Ok st ->
  best_vs (scan_next opt_mode combine_op (edges_get edges u) (st_f_star st)
             (layer_at layers (t + 1))) = [] ->
  backward_pass opt_mode combine_op layers edges goal = Err (EDeadEnd u (t + 1)).
Proof.
  intros Hord Hb Hbest.
  pose proof (backward_pass_flat opt_mode combine_op layers edges goal)
    as Hflat.
  rewrite Hord, foldM_app, Hb in Hflat. simpl in Hflat.
  assert (relax_entry opt_mode combine_op layers edges st (t, u)
          = Err (EDeadEnd u (t + 1))) as Hr by (by apply relax_node_Err).
  rewrite Hr in Hflat. simpl in Hflat.
  destruct (backward_pass _ _ _ _ _) as [ps|e]; simpl in Hflat; [done|].
  by subst e.
Qed.

Lemma solve_backward_Err layers edges start goal opt_mode combine_op sm e :
  opt_mode = "min" \/ opt_mode = "max" ->
  combine_op = "+" \/ combine_op = "*" ->
  _validate_stagecoach layers edges start goal = Ok sm ->
  backward_pass opt_mode combine_op layers edges goal = Err e ->
  solve_stagecoach_dp layers edges start goal opt_mode combine_op = Err e.
Proof.
  intros Hm Ho Hval Hbp. unfold solve_stagecoach_dp.
  assert (String.eqb opt_mode "min" || String.eqb opt_mode "max" = true) as ->
    by (destruct Hm as [-> | ->]; reflexivity).
  assert (String.eqb combine_op "+" || String.eqb combine_op "*" = true) as ->
    by (destruct Ho as [-> | ->]; reflexivity).
  simpl. rewrite Hval. simpl. rewrite Hbp. reflexivity.
Qed.

(** ** The outcomes of [solve_stagecoach_dp] *)

(** On a valid input with a recognised configuration the solver either
    fails in the backward pass with a dead-end error, or returns a result
    whose path follows the policy from [start] to [goal], or fails in the
    walk at a node of the last stage other than the goal. *)
Lemma solve_outcome layers edges start goal opt_mode combine_op stage_of flat :
  opt_mode = "min" \/ opt_mode = "max" ->
  combine_op = "+" \/ combine_op = "*" ->
  _validate_stagecoach layers edges start goal = Ok (stage_of, flat) ->
  match backward_pass opt_mode combine_op layers edges goal with
  | Err e =>
      solve_stagecoach_dp layers edges start goal opt_mode combine_op = Err e /\
      exists u t, e = EDeadEnd u t
  | Ok ps =>
      (exists r,
         solve_stagecoach_dp layers edges start goal opt_mode combine_op = Ok r /\
         f_star r = ps_f_star ps /\ policy r = ps_policy ps /\
         tables r = ps_tables ps /\
         exists q, path r = start :: q /\
                   follows (ps_policy ps) goal (start :: q)) \/
      (exists x,
         solve_stagecoach_dp layers edges start goal opt_mode combine_op
           = Err (EPathStuck x) /\
         x <> goal /\ stage_of !! x = Some (length layers - 1) /\
         ps_policy ps !! x = None)
  end.
Proof.
  intros Hm Ho Hval.
  destruct (backward_pass opt_mode combine_op layers edges goal) as [ps|e]
    eqn:Hbp.
  - pose proof (validate_stages _ _ _ _ _ _ Hval) as Hvs.
    destruct (backward_pass_inv _ _ _ _ _ _ _ Hvs _ Hbp) as [Hinv _].
    unfold solve_stagecoach_dp.
    assert (String.eqb opt_mode "min" || String.eqb opt_mode "max" = true) as ->
      by (destruct Hm as [-> | ->]; reflexivity).
    assert (String.eqb combine_op "+" || String.eqb combine_op "*" = true) as ->
      by (destruct Ho as [-> | ->]; reflexivity).
    simpl. rewrite Hval. simpl. rewrite Hbp. simpl.
    destruct (walk_outcome _ _ _ _ _ _ _ _ _ Hvs Hinv (length layers) start 0
                [start] (vs_start _ _ _ _ Hvs) ltac:(lia))
      as [[p Hp] | (x & Hx & Hxg & Hxs & Hxp)].
    + left. rewrite Hp. simpl.
      apply walk_Ok_follows in Hp as (q & -> & Hq).
      assert (is_Some (ps_f_star ps !! start)) as [c Hc].
      { apply (inv_dom_f _ _ _ _ _ _ _ _ _ _ Hinv).
        apply (inv_dom_p _ _ _ _ _ _ _ _ _ _ Hinv).
        inversion Hq; subst; [|eauto].
        rewrite (inv_goal_p _ _ _ _ _ _ _ _ _ _ Hinv). eauto. }
      rewrite Hc. eexists. split; [reflexivity|]. simpl. eauto 10.
    + right. exists x. rewrite Hx. simpl. auto.
  - split; [by eapply solve_backward_Err; eauto|].
    apply backward_pass_Err in Hbp
      as (before & t & u & after & st & _ & _ & _ & ->). eauto.
Qed.

(** ** Ties with the initial value *)

Lemma better_false_of_eqb opt_mode (a b : float) :
  PrimFloat.eqb a b = true -> better opt_mode a b = false.
Proof.
  intros H. apply float_eqb_not_ltb in H as [H1 H2].
  unfold better. by destruct (String.eqb opt_mode "min").
Qed.

(** When the successors of a node have no value and each candidate is [==]
    to the initial value, the scan keeps every successor and the best value
    is still the initial one. *)
Lemma scan_next_all_ties opt_mode combine_op edges u fs next_layer :
  (forall v w, v ∈ next_layer -> dict_get v (edges_get edges u) = Some w ->
     fs !! v = None /\
     PrimFloat.eqb (combine combine_op w (agg_init opt_mode))
       (agg_init opt_mode) = true) ->
  let s := scan_next opt_mode combine_op (edges_get edges u) fs next_layer in
  best_val s = agg_init opt_mode /\
  best_vs s = successors_in edges u next_layer.
Proof.
  intros Hties.
  apply (scan_next_ind opt_mode combine_op (edges_get edges u) fs
           (fun seen s => (forall v, v ∈ seen -> v ∈ next_layer) ->
              best_val s = agg_init opt_mode /\
              best_vs s = successors_in edges u seen)); [done| |done].
  intros seen v s IH Hsub.
  destruct IH as [IHv IHs];
    [intros v' Hv'; apply Hsub, elem_of_app; by left|].
  assert (v ∈ next_layer) as Hv by (apply Hsub, elem_of_app; right; by left).
  unfold successors_in. rewrite filter_app. fold (successors_in edges u seen).
  unfold scan_step.
  destruct (dict_get v (edges_get edges u)) as [w|] eqn:Hw.
  - destruct (Hties v w Hv Hw) as [Hnone Htie].
    unfold f_star_get. rewrite Hnone. simpl. rewrite IHv.
    rewrite (better_false_of_eqb _ _ _ Htie), Htie. simpl.
    split; [done|]. rewrite IHs. f_equal.
    rewrite filter_cons_True by (rewrite Hw; eauto). reflexivity.
  - simpl. split; [done|]. rewrite IHs.
    rewrite filter_cons_False by (rewrite Hw; by intros [? ?]).
    by rewrite app_nil_r.
Qed.

Lemma processing_order_elem layers t u :
  (t, u) ∈ processing_order layers <->
  t < length layers - 1 /\ u ∈ layer_at layers t.
Proof.
  unfold processing_order. rewrite list_elem_of_In, in_flat_map. split.
  - intros (t' & Ht' & Hin). apply in_map_iff in Hin as (u' & [= -> ->] & Hu).
    unfold stage_range in Ht'. apply in_rev, in_seq in Ht'.
    split; [lia | by apply list_elem_of_In].
  - intros [Ht Hu]. exists t. split.
    + unfold stage_range. apply in_rev. rewrite rev_involutive.
      apply in_seq. lia.
    + apply in_map. by apply list_elem_of_In.
Qed.

(** During the pass only the goal and relaxed nodes have a value. *)
Lemma relax_entries_dom opt_mode combine_op layers edges goal order st :
  foldM (relax_entry opt_mode combine_op layers edges) order
    (dp_init combine_op goal) = Ok st ->
  forall v, is_Some (st_f_star st !! v) -> v = goal \/ exists t, (t, v) ∈ order.
Proof.
  apply (foldM_Ok_inv _ (fun done st => forall v,
           is_Some (st_f_star st !! v) -> v = goal \/ exists t, (t, v) ∈ done)).
  - intros v. simpl. rewrite lookup_singleton_is_Some. auto.
  - intros done [t u] rest s1 s2 _ IH Hstep v.
    unfold relax_entry, relax_node in Hstep. simpl in Hstep.
    destruct (best_vs _); [discriminate|]. injection Hstep as <-. simpl.
    rewrite lookup_insert_is_Some. intros [<- | [_ Hv]].
    + right. exists t. apply elem_of_app. right. by left.
    + destruct (IH v Hv) as [-> | [t' Ht']]; [by left|].
      right. exists t'. apply elem_of_app. by left.
Qed.

(** A node of the last stage other than the goal never gets a value. *)
Lemma last_stage_no_value opt_mode combine_op layers edges start goal
  stage_of order st v :
  valid_stages layers start goal stage_of ->
  (forall tu, tu ∈ order -> tu ∈ processing_order layers) ->
  foldM (relax_entry opt_mode combine_op layers edges) order
    (dp_init combine_op goal) = Ok st ->
  v ∈ layer_at layers (length layers - 1) -> v <> goal ->
  st_f_star st !! v = None.
Proof.
  intros Hvs Hsub Hfold Hv Hvg.
  destruct (st_f_star st !! v) as [x|] eqn:Hx; [|done]. exfalso.
  destruct (relax_entries_dom _ _ _ _ _ _ _ Hfold v) as [-> | [t Ht]];
    [eauto | done |].
  apply Hsub, processing_order_elem in Ht as [Ht Hin].
  apply (layer_at_stage _ _ _ _ Hvs) in Hin, Hv.
  rewrite Hin in Hv. injection Hv as ->. lia.
Qed.

(** ** All the paths of the policy *)

Lemma combine_identity_eqb_refl combine_op :
  PrimFloat.eqb (combine_identity combine_op) (combine_identity combine_op)
    = true.
Proof.
  unfold combine_identity. destruct (String.eqb combine_op "+"); reflexivity.
Qed.

Lemma combine_eqb_congr combine_op (w a b c : float) :
  PrimFloat.eqb a b = true ->
  PrimFloat.eqb (combine combine_op w b) c
  = PrimFloat.eqb (combine combine_op w a) c.
Proof.
  unfold combine. destruct (String.eqb combine_op "+").
  - apply float_add_eqb_congr.
  - apply float_mul_eqb_congr.
Qed.

(** Every path that [dfs] returns extends [current] by a chain of policy
    successors from [u] to the goal. *)
Lemma dfs_follows pol goal fuel :
  forall u current paths,
  dfs fuel pol goal u current = Some paths ->
  forall p, p ∈ paths ->
  exists q, p = current ++ q /\ follows pol goal (u :: q).
Proof.
  induction fuel as [|fuel IH]; intros u current paths; simpl; [discriminate|].
  destruct (String.eqb u goal) eqn:Hug.
  - apply String.eqb_eq in Hug as ->. intros [= <-] p Hp.
    apply list_elem_of_singleton in Hp as ->.
    exists []. rewrite app_nil_r. split; [done | constructor].
  - apply String.eqb_neq in Hug.
    destruct (pol !! u) as [vs|] eqn:Hu; simpl;
      [|intros [= <-] p Hp; inversion Hp].
    assert (forall l paths,
              (forall v, v ∈ l -> v ∈ vs) ->
              foldr (fun v acc =>
                       ps ← dfs fuel pol goal v (current ++ [v]);
                       rest ← acc; Some (ps ++ rest)) (Some []) l = Some paths ->
              forall p, p ∈ paths ->
              exists q, p = current ++ q /\ follows pol goal (u :: q)) as Hl.
    { induction l as [|v l IHl]; intros ps Hsub; simpl.
      - intros [= <-] p Hp. inversion Hp.
      - destruct (dfs fuel pol goal v (current ++ [v])) as [ps1|] eqn:Hd;
          simpl; [|discriminate].
        destruct (foldr _ _ l) as [ps2|] eqn:Hf; simpl; [|discriminate].
        intros [= <-] p Hp. apply elem_of_app in Hp as [Hp | Hp].
        + destruct (IH _ _ _ Hd p Hp) as (q & -> & Hq).
          exists (v :: q). rewrite <- app_assoc. split; [done|].
          econstructor; eauto. apply Hsub. by left.
        + apply (IHl ps2); [|done|done].
          intros v' Hv'. apply Hsub. by right. }
    intros H. by apply (Hl vs).
Qed.

Section Paths.
Variables (layers : layers_t) (edges : edges_t).
Variables (start goal opt_mode combine_op : string).
Variables (stage_of : gmap string nat).
Variables (fs : gmap string float) (pol : gmap string (list string)).
Hypothesis Hvs : valid_stages layers start goal stage_of.
Hypothesis Hinv :
  dp_inv opt_mode combine_op layers edges goal stage_of 0 [] fs pol.

(** The recursion of [dfs] is no deeper than the number of stages. *)
Lemma dfs_terminates (fuel : nat) :
  forall u j current,
  stage_of !! u = Some j -> length layers <= j + fuel ->
  exists paths, dfs fuel pol goal u current = Some paths.
Proof.
  induction fuel as [|fuel IH]; intros u j current Hj Hfuel.
  - apply (stage_lt_length _ _ _ _ Hvs) in Hj. lia.
  - simpl. destruct (String.eqb u goal); [eauto|].
    destruct (pol !! u) as [vs|] eqn:Hu; simpl; [|eauto].
    assert (forall l, (forall v, v ∈ l -> v ∈ vs) ->
              exists paths,
                foldr (fun v acc =>
                         ps ← dfs fuel pol goal v (current ++ [v]);
                         rest ← acc; Some (ps ++ rest)) (Some []) l
                = Some paths) as Hl.
    { induction l as [|v l IHl]; intros Hsub; simpl; [eauto|].
      destruct (final_policy_edge _ _ _ _ _ _ _ _ _ Hvs Hinv u v vs Hu)
        as (j' & w & fu & Hj' & _ & Hv & _); [apply Hsub; by left|].
      assert (j' = j) by congruence. subst j'.
      destruct (IH v (S j) (current ++ [v]) Hv ltac:(lia)) as [ps1 ->].
      destruct IHl as [ps2 ->]; [intros v' Hv'; apply Hsub; by right|].
      simpl. eauto. }
    by apply Hl.
Qed.

(** Along a chain of policy successors, the weights aggregated from the
    goal end are [==] to the value of the first node. *)
Lemma follows_aggregate (p : list string) :
  follows pol goal p ->
  exists u ws fu,
    head p = Some u /\ edge_weights edges p = Some ws /\ fs !! u = Some fu /\
    PrimFloat.eqb (aggregate combine_op ws) fu = true.
Proof.
  induction 1 as [|u v vs p Hne Hu Hv Hf IH].
  - exists goal, [], (combine_identity combine_op).
    split; [done|]. split; [done|].
    split; [exact (inv_goal_f _ _ _ _ _ _ _ _ _ _ Hinv)|].
    apply combine_identity_eqb_refl.
  - destruct IH as (v' & ws & fv & [= <-] & Hws & Hfv & He).
    destruct (final_policy_edge _ _ _ _ _ _ _ _ _ Hvs Hinv u v vs Hu Hv)
      as (j & w & fu & _ & _ & _ & Hw & Hfu & Hcand).
    exists u, (w :: ws), fu. split; [done|]. split.
    + change (edge_weights edges (u :: v :: p))
        with (w ← dict_get v (edges_get edges u);
              ws ← edge_weights edges (v :: p); Some (w :: ws)).
      rewrite Hw, Hws. reflexivity.
    + split; [done|]. unfold f_star_get in Hcand. rewrite Hfv in Hcand.
      simpl in Hcand. simpl. fold (aggregate combine_op ws).
      rewrite <- Hcand. symmetry. by apply combine_eqb_congr.
Qed.
End Paths.

(** ** Minimum against maximum, with the sum and positive weights *)

Lemma dict_get_elem {V : Type} (k : string) (d : list (string * V)) (x : V) :
  dict_get k d = Some x -> (k, x) ∈ d.
Proof.
  induction d as [|[k' x'] d IH]; simpl; [discriminate|].
  destruct (String.eqb k k') eqn:E.
  - apply String.eqb_eq in E as ->. intros [= ->]. by left.
  - intros H. right. by apply IH.
Qed.

Lemma edge_weight_positive edges u v w :
  positive_weights edges ->
  dict_get v (edges_get edges u) = Some w -> PrimFloat.ltb 0 w = true.
Proof.
  intros Hpos. unfold edges_get.
  destruct (dict_get u edges) as [nbrs|] eqn:Hu; simpl; [|discriminate].
  intros Hv. apply dict_get_elem in Hu, Hv. eapply Hpos; eauto.
Qed.

(** The best value of a scan is the initial value or one of the candidate
    totals. *)
Lemma scan_next_best_val_cases opt_mode combine_op nbrs fs next_layer :
  let s := scan_next opt_mode combine_op nbrs fs next_layer in
  best_val s = agg_init opt_mode \/
  exists v w, v ∈ next_layer /\ dict_get v nbrs = Some w /\
    best_val s = combine combine_op w (f_star_get opt_mode fs v).
Proof.
  apply (scan_next_ind opt_mode combine_op nbrs fs (fun seen s =>
    best_val s = agg_init opt_mode \/
    exists v w, v ∈ seen /\ dict_get v nbrs = Some w /\
      best_val s = combine combine_op w (f_star_get opt_mode fs v))).
  - by left.
  - intros seen v s IH.
    assert (best_val s = agg_init opt_mode \/
            exists v' w, v' ∈ seen ++ [v] /\ dict_get v' nbrs = Some w /\
              best_val s = combine combine_op w (f_star_get opt_mode fs v'))
      as IH'.
    { destruct IH as [IH | (v' & w & Hin & Hw & Hb)]; [by left|].
      right. exists v', w. split; [apply elem_of_app; by left | done]. }
    scan_cases; try exact IH'.
    right. exists v, w. split; [apply elem_of_app; right; by left | done].
Qed.

(** In mode "min", when every candidate total is a non-negative float, the
    best value is non-negative and not above any candidate. *)
Lemma scan_min_lower_bound nbrs fs next_layer :
  (forall v w, v ∈ next_layer -> dict_get v nbrs = Some w ->
     fl_nonneg (w + f_star_get "min" fs v) = true) ->
  let s := scan_next "min" "+" nbrs fs next_layer in
  fl_nonneg (best_val s) = true /\
  forall v w, v ∈ next_layer -> dict_get v nbrs = Some w ->
    (fl_units (best_val s) <= fl_units (w + f_star_get "min" fs v))%Z.
Proof.
  intros Hcand.
  apply (scan_next_ind "min" "+" nbrs fs (fun seen s =>
    (forall v, v ∈ seen -> v ∈ next_layer) ->
    fl_nonneg (best_val s) = true /\
    forall v w, v ∈ seen -> dict_get v nbrs = Some w ->
      (fl_units (best_val s) <= fl_units (w + f_star_get "min" fs v))%Z));
    [| |done].
  - intros _. split; [reflexivity|]. intros v w Hv. inversion Hv.
  - intros seen v s IH Hsub.
    destruct IH as [IHn IHle];
      [intros v' Hv'; apply Hsub, elem_of_app; by left|].
    assert (v ∈ next_layer) as Hv by (apply Hsub, elem_of_app; right; by left).
    unfold scan_step.
    destruct (dict_get v nbrs) as [w|] eqn:Hw; simpl.
    + change (combine "+" w (f_star_get "min" fs v))
        with (w + f_star_get "min" fs v)%float.
      set (tot := (w + f_star_get "min" fs v)%float).
      pose proof (Hcand v w Hv Hw) as Htot. fold tot in Htot.
      change (better "min" tot (best_val s))
        with (PrimFloat.ltb tot (best_val s)).
      rewrite (float_ltb_units tot (best_val s)) by auto.
      destruct (Z.ltb_spec (fl_units tot) (fl_units (best_val s))) as [Hlt|Hge];
        simpl.
      * split; [exact Htot|]. intros v' w' Hv' Hw'.
        apply elem_of_app in Hv' as [Hv' | Hv'].
        -- specialize (IHle v' w' Hv' Hw'). lia.
        -- apply list_elem_of_singleton in Hv' as ->.
           rewrite Hw in Hw'. injection Hw' as <-. fold tot. lia.
      * assert (forall v' w', v' ∈ seen ++ [v] -> dict_get v' nbrs = Some w' ->
                  (fl_units (best_val s)
                   <= fl_units (w' + f_star_get "min" fs v'))%Z) as Hall.
        { intros v' w' Hv' Hw'. apply elem_of_app in Hv' as [Hv' | Hv'].
          - by apply IHle.
          - apply list_elem_of_singleton in Hv' as ->.
            rewrite Hw in Hw'. injection Hw' as <-. fold tot. lia. }
        destruct (PrimFloat.eqb tot (best_val s)); simpl; auto.
    + split; [exact IHn|]. intros v' w' Hv' Hw'.
      apply elem_of_app in Hv' as [Hv' | Hv']; [by apply IHle|].
      apply list_elem_of_singleton in Hv' as ->. congruence.
Qed.

(** The two scans of a node, one in each mode, on value functions that are
    bracketed on the next stage. *)
Lemma scan_bracket edges u fsm fsM next_layer :
  positive_weights edges ->
  (forall v, v ∈ next_layer ->
     bracket (f_star_get "min" fsm v) (f_star_get "max" fsM v)) ->
  bracket
    (best_val (scan_next "min" "+" (edges_get edges u) fsm next_layer))
    (best_val (scan_next "max" "+" (edges_get edges u) fsM next_layer)).
Proof.
  intros Hpos Hnext.
  destruct (scan_min_lower_bound (edges_get edges u) fsm next_layer)
    as [Hmin Hle].
  { intros v w Hv Hw. apply float_add_nonneg.
    - eapply float_pos_nonneg, edge_weight_positive; eauto.
    - by destruct (Hnext v Hv). }
  split; [exact Hmin|].
  pose proof (scan_next_best_val_eqb "max" "+" (edges_get edges u) fsM
                next_layer) as Hnan.
  destruct (scan_next_best_val_cases "max" "+" (edges_get edges u) fsM
              next_layer) as [Hinit | (v & w & Hv & Hw & Hbest)].
  - left. cbv zeta in Hinit. rewrite Hinit. reflexivity.
  - cbv zeta in Hbest, Hnan. rewrite Hbest in Hnan |- *.
    change (combine "+" w (f_star_get "max" fsM v))
      with (w + f_star_get "max" fsM v)%float in *.
    pose proof (edge_weight_positive _ _ _ _ Hpos Hw) as Hw0.
    apply float_pos_nonneg in Hw0.
    destruct (Hnext v Hv) as [Ha [Hb | [Hb Hab]]].
    + left. by apply float_add_neg_inf.
    + right. split; [by apply float_add_nonneg|].
      specialize (Hle v w Hv Hw).
      pose proof (float_add_mono w _ _ Hw0 Ha Hb Hab). lia.
Qed.

Section TwoModes.
Variables (layers : layers_t) (edges : edges_t) (start goal : string).
Variables (stage_of : gmap string nat).
Variables (fsm fsM : gmap string float) (polm polM : gmap string (list string)).
Hypothesis Hvs : valid_stages layers start goal stage_of.
Hypothesis Hinvm : dp_inv "min" "+" layers edges goal stage_of 0 [] fsm polm.
Hypothesis HinvM : dp_inv "max" "+" layers edges goal stage_of 0 [] fsM polM.
Hypothesis Hpos : positive_weights edges.

(** The values of every node of the graph are bracketed, by induction from
    the last stage down. *)
Lemma bracket_stage (n : nat) :
  forall j v, j + n = length layers - 1 -> stage_of !! v = Some j ->
  bracket (f_star_get "min" fsm v) (f_star_get "max" fsM v).
Proof.
  induction n as [|n IH]; intros j v Hj Hv.
  - destruct (decide (v = goal)) as [-> | Hvg].
    + unfold f_star_get.
      rewrite (inv_goal_f _ _ _ _ _ _ _ _ _ _ Hinvm).
      rewrite (inv_goal_f _ _ _ _ _ _ _ _ _ _ HinvM). simpl.
      split; [reflexivity|]. right. split; [reflexivity | done].
    + assert (forall mode (fs : gmap string float) pol,
                dp_inv mode "+" layers edges goal stage_of 0 [] fs pol ->
                fs !! v = None) as Hnone.
      { intros mode fs pol Hinv.
        destruct (fs !! v) as [x|] eqn:Hx; [|done]. exfalso.
        assert (is_Some (fs !! v)) as Hs by eauto.
        apply (inv_dom_f _ _ _ _ _ _ _ _ _ _ Hinv) in Hs as [-> | Hp]; [done|].
        apply final_processed in Hp as (j' & Hj' & Hlt).
        rewrite Hv in Hj'. injection Hj' as <-. lia. }
      unfold f_star_get. rewrite (Hnone _ _ _ Hinvm), (Hnone _ _ _ HinvM). simpl.
      split; [reflexivity|]. left. reflexivity.
  - destruct (final_entry _ _ _ _ _ _ _ _ Hinvm v j Hv ltac:(lia))
      as (Hfm & _ & _).
    destruct (final_entry _ _ _ _ _ _ _ _ HinvM v j Hv ltac:(lia))
      as (HfM & _ & _).
    replace (f_star_get "min" fsm v)
      with (best_val (scan_of "min" "+" layers edges fsm v j))
      by (unfold f_star_get; by rewrite Hfm).
    replace (f_star_get "max" fsM v)
      with (best_val (scan_of "max" "+" layers edges fsM v j))
      by (unfold f_star_get; by rewrite HfM).
    unfold scan_of. apply scan_bracket; [exact Hpos|].
    intros v' Hv'. apply (layer_at_stage _ _ _ _ Hvs) in Hv'.
    apply (IH (j + 1)); [lia | exact Hv'].
Qed.

(** In mode "max" a node from which the policy leads to the goal has a
    non-negative value. *)
Lemma follows_max_nonneg (p : list string) :
  follows polM goal p ->
  exists u fu, head p = Some u /\ fsM !! u = Some fu /\ fl_nonneg fu = true.
Proof.
  induction 1 as [|u v vs p Hne Hu Hv Hf IH].
  - exists goal, 0%float. split; [done|].
    split; [exact (inv_goal_f _ _ _ _ _ _ _ _ _ _ HinvM) | reflexivity].
  - destruct IH as (v' & fv & [= <-] & Hfv & Hnn).
    destruct (final_policy_edge _ _ _ _ _ _ _ _ _ Hvs HinvM u v vs Hu Hv)
      as (j & w & fu & _ & _ & _ & Hw & Hfu & Hcand).
    exists u, fu. split; [done|]. split; [done|].
    unfold f_star_get in Hcand. rewrite Hfv in Hcand. simpl in Hcand.
    change (combine "+" w fv) with (w + fv)%float in Hcand.
    pose proof (edge_weight_positive _ _ _ _ Hpos Hw) as Hw0.
    apply float_pos_nonneg in Hw0.
    destruct (float_add_nonneg w fv Hw0 Hnn) as [Hsum _].
    by destruct (float_eqb_nonneg _ _ Hcand Hsum).
Qed.
End TwoModes.

Lemma positive_weightsb_spec edges :
  positive_weightsb edges = true -> positive_weights edges.
Proof.
  unfold positive_weightsb. rewrite forallb_forall.
  intros H u nbrs v w Hu Hv.
  apply list_elem_of_In in Hu, Hv. specialize (H _ Hu). simpl in H.
  rewrite forallb_forall in H. exact (H _ Hv).
Qed.

(** ** Totality of the model *)

(** On inputs of the declared types (the weights are floats), the solver
    returns a result or raises one of its own exceptions: the [while] loop
    of the reconstruction ends within [len(layers)] iterations, and
    [f_star[start]] is never a missing key. *)
Lemma solve_never_loop_bound layers edges start goal opt_mode combine_op :
  match solve_stagecoach_dp layers edges start goal opt_mode combine_op with
  | Ok _ => True
  | Err e => can_be_raised e = true
  end.
Proof.
  destruct (String.eqb opt_mode "min" || String.eqb opt_mode "max") eqn:Hm.
  2: { unfold solve_stagecoach_dp. rewrite Hm. reflexivity. }
  destruct (String.eqb combine_op "+" || String.eqb combine_op "*") eqn:Ho.
  2: { unfold solve_stagecoach_dp. rewrite Hm, Ho. reflexivity. }
  destruct (_validate_stagecoach layers edges start goal) as [[so fl]|e]
    eqn:Hval.
  2: { unfold solve_stagecoach_dp. rewrite Hm, Ho, Hval. simpl.
       apply validate_Err_structure in Hval. by destruct e. }
  apply orb_true_iff in Hm, Ho. rewrite !String.eqb_eq in Hm, Ho.
  pose proof (solve_outcome _ _ _ _ _ _ _ _ Hm Ho Hval) as Hout.
  destruct (backward_pass opt_mode combine_op layers edges goal) as [ps|e].
  - destruct Hout as [(r & -> & _) | (x & -> & _)]; done.
  - destruct Hout as [-> (u & t & ->)]. reflexivity.
Qed.

(** ** The representative path attains the optimal cost *)

(** The path of a result follows the policy from [start] to [goal], and the
    aggregate of its edge weights, taken from the goal end, is [==] to
    [optimal_cost]. *)
Lemma representative_path_optimal
  layers edges start goal opt_mode combine_op :
  match solve_stagecoach_dp layers edges start goal opt_mode combine_op with
  | Ok r =>
      follows (policy r) goal (path r) /\
      head (path r) = Some start /\ last (path r) = Some goal /\
      exists ws, edge_weights edges (path r) = Some ws /\
        PrimFloat.eqb (aggregate combine_op ws) (optimal_cost r) = true
  | Err _ => True
  end.
Proof.
  destruct (solve_stagecoach_dp layers edges start goal opt_mode combine_op)
    as [r|e] eqn:Hsolve; [|done].
  apply solve_solved in Hsolve as (stage_of & Hs).
  destruct Hs as [_ _ Hvs Hinv _ Hwalk Hcost].
  apply walk_Ok_follows in Hwalk as (q & Hq & Hf). simpl in Hq.
  rewrite Hq. split; [exact Hf|]. split; [done|].
  split; [by apply follows_last in Hf|].
  destruct (follows_aggregate _ _ _ _ _ _ _ _ _ Hvs Hinv _ Hf)
    as (u & ws & fu & [= <-] & Hws & Hfu & He).
  exists ws. split; [done|]. congruence.
Qed.

(** ** When a candidate ties with the initial value *)

(** With the sum, a weight that is neither NaN nor the infinity opposite to
    the initial value leaves the initial value unchanged. *)
Lemma sum_keeps_agg_init opt_mode (w : float) :
  opt_mode = "min" \/ opt_mode = "max" ->
  PrimFloat.eqb w w = true ->
  PrimFloat.eqb w (PrimFloat.opp (agg_init opt_mode)) = false ->
  PrimFloat.eqb (combine "+" w (agg_init opt_mode)) (agg_init opt_mode) = true.
Proof.
  change (combine "+" w (agg_init opt_mode)) with (w + agg_init opt_mode)%float.
  rewrite !FloatAxioms.eqb_spec, FloatAxioms.add_spec.
  intros [-> | ->].
  - change (Prim2SF (- agg_init "min")) with (S754_infinity true).
    change (Prim2SF (agg_init "min")) with (S754_infinity false).
    destruct (Prim2SF w) as [s|[|]| |s m e]; simpl; try done.
  - change (Prim2SF (- agg_init "max")) with (S754_infinity false).
    change (Prim2SF (agg_init "max")) with (S754_infinity true).
    destruct (Prim2SF w) as [s|[|]| |s m e]; simpl; try done.
Qed.

(** With the product, a weight [w > 0] leaves the initial value unchanged,
    and the weight 0 turns it into NaN. *)
Lemma product_keeps_agg_init opt_mode (w : float) :
  opt_mode = "min" \/ opt_mode = "max" ->
  PrimFloat.ltb 0 w = true ->
  PrimFloat.eqb (combine "*" w (agg_init opt_mode)) (agg_init opt_mode) = true.
Proof.
  change (combine "*" w (agg_init opt_mode)) with (w * agg_init opt_mode)%float.
  rewrite FloatAxioms.ltb_spec, FloatAxioms.eqb_spec, FloatAxioms.mul_spec.
  change (Prim2SF 0) with (S754_zero false).
  intros [-> | ->].
  - change (Prim2SF (agg_init "min")) with (S754_infinity false).
    destruct (Prim2SF w) as [s|[|]| |[|] m e]; simpl; try done.
  - change (Prim2SF (agg_init "max")) with (S754_infinity true).
    destruct (Prim2SF w) as [s|[|]| |[|] m e]; simpl; try done.
Qed.

(** * The claims of the specification *)

(** ** C1: the successors kept in the policy attain the value of the node *)

(** C1, as stated, fails: in a result returned by the solver, a successor
    kept in the policy can be a node without an entry in [f_star].  Here
    ["X"] is kept for ["B"], and [f_star] has no key ["X"]. *)
Lemma policy_successor_without_value :
  exists r,
    solve_stagecoach_dp extra_layers extra_edges "S" "T" "min" "+" = Ok r /\
    policy r !! "B" = Some ["X"] /\ f_star r !! "X" = None.
Proof.
  eexists. split; [vm_compute; reflexivity|].
  split; vm_compute; reflexivity.
Qed.

(** C1 (amended): for every result returned by the solver, every node [u]
    with a policy entry and every [v] in [policy[u]], the edge [u -> v]
    exists and [combine(weight(u,v), f_star.get(v, sentinel)) == f_star[u]]
    holds with Python's [==] on floats, where the sentinel ([+inf] for "min",
    [-inf] for "max") stands for the value of a [v] that has no entry in
    [f_star]; such a [v] is a node of the last stage other than the goal. *)
Theorem policy_successors_attain_value
  layers edges start goal opt_mode combine_op r :
  solve_stagecoach_dp layers edges start goal opt_mode combine_op = Ok r ->
  forall u vs v, policy r !! u = Some vs -> v ∈ vs ->
  exists w fu,
    dict_get v (edges_get edges u) = Some w /\
    f_star r !! u = Some fu /\
    PrimFloat.eqb (combine combine_op w (f_star_get opt_mode (f_star r) v)) fu
      = true /\
    (f_star r !! v = None ->
       v <> goal /\ v ∈ layer_at layers (length layers - 1)).
Proof.
  intros Hsolve u vs v Hu Hv.
  apply solve_solved in Hsolve as (stage_of & Hs).
  destruct Hs as [_ _ Hvs Hinv _ _ _].
  destruct (final_policy_edge _ _ _ _ _ _ _ _ _ Hvs Hinv u v vs Hu Hv)
    as (j & w & fu & Hj & Hlt & Hsv & Hw & Hfu & He).
  exists w, fu. repeat split; auto.
  - eapply final_missing; eauto.
  - destruct (final_missing _ _ _ _ _ _ _ _ _ Hvs Hinv v (S j) Hsv H) as [_ Hl].
    apply (layer_at_stage _ _ _ _ Hvs). by rewrite <- Hl.
Qed.

Lemma policy_successors_attain_value_witness :
  exists r,
    solve_stagecoach_dp ex_layers ex_edges "S" "T" "min" "+" = Ok r /\
    exists w fu,
      dict_get "D" (edges_get ex_edges "A") = Some w /\
      f_star r !! "A" = Some fu /\
      PrimFloat.eqb (combine "+" w (f_star_get "min" (f_star r) "D")) fu = true /\
      (f_star r !! "D" = None ->
         "D" <> "T" /\ "D" ∈ layer_at ex_layers (length ex_layers - 1)).
Proof.
  eexists. split; [vm_compute; reflexivity|].
  apply (policy_successors_attain_value ex_layers ex_edges "S" "T" "min" "+"
           _ ltac:(vm_compute; reflexivity) "A" ["D"] "D").
  - vm_compute. reflexivity.
  - by left.
Defined.

(** ** C2: the order of the stage tables *)




(** ** C3: the walk from the start *)

(** C3, as stated, fails: validation passes, the only node of the only
    non-terminal stage has an outgoing edge, and the walk stops at ["X"], a
    node of the last stage other than the goal. *)
Lemma walk_stuck_despite_edges :
  (exists sm, _validate_stagecoach [["S"]; ["T"; "X"]] [("S", [("X", 1%float)])]
                "S" "T" = Ok sm) /\
  solve_stagecoach_dp [["S"]; ["T"; "X"]] [("S", [("X", 1%float)])]
    "S" "T" "min" "+" = Err (EPathStuck "X").
Proof. split; [eexists|]; vm_compute; reflexivity. Qed.

(** C3 (amended): on an input that passes the configuration checks and the
    validation, if the last stage holds the goal alone, the walk from [start]
    reaches [goal] whenever the backward pass has raised no dead-end error,
    so the [RuntimeError] of the reconstruction never occurs; in general the
    solver raises that error only when the walk stops at a node of the last
    stage other than the goal, which has no policy entry. *)
Theorem walk_stuck_only_in_last_stage
  layers edges start goal opt_mode combine_op sm :
  opt_mode = "min" \/ opt_mode = "max" ->
  combine_op = "+" \/ combine_op = "*" ->
  _validate_stagecoach layers edges start goal = Ok sm ->
  (layer_at layers (length layers - 1) = [goal] ->
   (forall x, solve_stagecoach_dp layers edges start goal opt_mode combine_op
              <> Err (EPathStuck x)) /\
   (forall ps, backward_pass opt_mode combine_op layers edges goal = Ok ps ->
      exists r,
        solve_stagecoach_dp layers edges start goal opt_mode combine_op = Ok r /\
        head (path r) = Some start /\ last (path r) = Some goal)) /\
  (forall x,
     solve_stagecoach_dp layers edges start goal opt_mode combine_op
       = Err (EPathStuck x) ->
     x <> goal /\ x ∈ layer_at layers (length layers - 1) /\
     exists ps, backward_pass opt_mode combine_op layers edges goal = Ok ps /\
                ps_policy ps !! x = None).
Proof.
  intros Hm Ho Hval. destruct sm as [stage_of flat].
  pose proof (validate_stages _ _ _ _ _ _ Hval) as Hvs.
  pose proof (solve_outcome _ _ _ _ _ _ _ _ Hm Ho Hval) as Hout.
  assert (forall x,
     solve_stagecoach_dp layers edges start goal opt_mode combine_op
       = Err (EPathStuck x) ->
     x <> goal /\ x ∈ layer_at layers (length layers - 1) /\
     exists ps, backward_pass opt_mode combine_op layers edges goal = Ok ps /\
                ps_policy ps !! x = None) as Hstuck.
  { intros x Hx.
    destruct (backward_pass opt_mode combine_op layers edges goal) as [ps|e].
    - destruct Hout as [(r & Hr & _) | (y & Hy & Hyg & Hys & Hyp)];
        [congruence|].
      rewrite Hx in Hy. injection Hy as <-.
      split; [done|]. split; [by apply (layer_at_stage _ _ _ _ Hvs) | eauto].
    - destruct Hout as [He (u & t & ->)]. congruence. }
  split; [|exact Hstuck]. intros Hlast.
  assert (forall x, solve_stagecoach_dp layers edges start goal opt_mode
                      combine_op <> Err (EPathStuck x)) as Hnever.
  { intros x Hx. apply Hstuck in Hx as (Hxg & Hxl & _).
    rewrite Hlast in Hxl. by apply list_elem_of_singleton in Hxl. }
  split; [exact Hnever|]. intros ps Hps. rewrite Hps in Hout.
  destruct Hout as [(r & Hr & _ & _ & _ & q & Hq & Hf) | (y & Hy & _)].
  - exists r. split; [done|]. rewrite Hq. split; [done|].
    by apply follows_last in Hf.
  - by apply Hnever in Hy.
Qed.

Lemma walk_stuck_only_in_last_stage_witness :
  (forall x, solve_stagecoach_dp ex_layers ex_edges "S" "T" "min" "+"
             <> Err (EPathStuck x)) /\
  exists r,
    solve_stagecoach_dp ex_layers ex_edges "S" "T" "min" "+" = Ok r /\
    head (path r) = Some "S" /\ last (path r) = Some "T".
Proof.
  destruct (walk_stuck_only_in_last_stage ex_layers ex_edges "S" "T" "min" "+"
              ({[ "S" := 0; "A" := 1; "B" := 1; "C" := 2; "D" := 2; "T" := 3 ]},
               ["S"; "A"; "B"; "C"; "D"; "T"])) as [H _].
  - by left.
  - by left.
  - vm_compute. reflexivity.
  - destruct (H eq_refl) as [H1 H2]. split; [exact H1|].
    eapply H2. vm_compute. reflexivity.
Defined.

(** ** C4: dead ends *)

(** C4, as stated, fails: with two nodes without outgoing edge the error
    names the one relaxed first only.  Here ["B"] has no outgoing edge and
    the error names ["A"]. *)
Lemma dead_end_not_named :
  edges_get dead_edges "B" = [] /\
  solve_stagecoach_dp dead_layers dead_edges "S" "T" "min" "+"
    = Err (EDeadEnd "A" 2).
Proof. split; vm_compute; reflexivity. Qed.

(** C4 (amended): on an input that passes the configuration checks and the
    validation, let [u] be a node of a non-terminal stage [t], [before] the
    nodes relaxed before it.  If the backward pass reaches [u] and the scan of
    [u] keeps no successor, the solver raises the dead-end error naming [u]
    and the stage number [t+1].  If [u] has no outgoing edge into the next
    stage, the solver raises a dead-end error in any case: it names [u] when
    the pass reaches [u], and otherwise a node relaxed before [u]. *)
Theorem dead_end_reported
  layers edges start goal opt_mode combine_op sm before t u after :
  opt_mode = "min" \/ opt_mode = "max" ->
  combine_op = "+" \/ combine_op = "*" ->
  _validate_stagecoach layers edges start goal = Ok sm ->
  processing_order layers = before ++ (t, u) :: after ->
  (forall st,
     foldM (relax_entry opt_mode combine_op layers edges) before
       (dp_init combine_op goal) = Ok st ->
     best_vs (scan_next opt_mode combine_op (edges_get edges u) (st_f_star st)
                (layer_at layers (t + 1))) = [] ->
     solve_stagecoach_dp layers edges start goal opt_mode combine_op
       = Err (EDeadEnd u (t + 1))) /\
  ((forall v, v ∈ layer_at layers (t + 1) ->
      dict_get v (edges_get edges u) = None) ->
   (exists t' u', (t', u') ∈ before ++ [(t, u)] /\
      solve_stagecoach_dp layers edges start goal opt_mode combine_op
        = Err (EDeadEnd u' (t' + 1))) /\
   (forall st,
      foldM (relax_entry opt_mode combine_op layers edges) before
        (dp_init combine_op goal) = Ok st ->
      solve_stagecoach_dp layers edges start goal opt_mode combine_op
        = Err (EDeadEnd u (t + 1)))).
Proof.
  intros Hm Ho Hval Hord.
  assert (forall st,
     foldM (relax_entry opt_mode combine_op layers edges) before
       (dp_init combine_op goal) = Ok st ->
     best_vs (scan_next opt_mode combine_op (edges_get edges u) (st_f_star st)
                (layer_at layers (t + 1))) = [] ->
     solve_stagecoach_dp layers edges start goal opt_mode combine_op
       = Err (EDeadEnd u (t + 1))) as Hreach.
  { intros st Hb Hbest. eapply solve_backward_Err; eauto.
    eapply backward_pass_dead_end; eauto. }
  split; [exact Hreach|]. intros Hno.
  split; [|intros st Hb; apply (Hreach st Hb); by apply scan_next_no_edge].
  destruct (foldM (relax_entry opt_mode combine_op layers edges) before
              (dp_init combine_op goal)) as [st|e] eqn:Hb.
  - exists t, u. split; [apply elem_of_app; right; by left|].
    apply (Hreach st eq_refl). by apply scan_next_no_edge.
  - apply foldM_Err_inv in Hb as (b1 & [t' u'] & b2 & st & -> & Hb1 & Hr).
    apply relax_node_Err in Hr as [-> Hbest]. simpl in *.
    exists t', u'. split.
    + apply elem_of_app. left. apply elem_of_app. right. by left.
    + eapply solve_backward_Err; eauto.
      rewrite <- app_assoc in Hord. simpl in Hord.
      eapply backward_pass_dead_end; eauto.
Qed.

Lemma dead_end_reported_witness :
  solve_stagecoach_dp dead_layers dead_edges_B "S" "T" "min" "+"
    = Err (EDeadEnd "B" (1 + 1)).
Proof.
  destruct (dead_end_reported dead_layers dead_edges_B "S" "T" "min" "+"
              ({[ "S" := 0; "A" := 1; "B" := 1; "T" := 2 ]},
               ["S"; "A"; "B"; "T"])
              [(1, "A")] 1 "B" [(0, "S")]) as [_ H].
  - by left.
  - by left.
  - vm_compute. reflexivity.
  - reflexivity.
  - destruct H as [_ H].
    + intros v Hv. apply list_elem_of_singleton in Hv as ->. reflexivity.
    + eapply H. vm_compute. reflexivity.
Defined.

(** ** C5: all optimal paths *)

(** C5, as stated, fails: on floats the result of aggregating the edge
    weights of a path depends on the grouping.  On the chain with the weights
    0.1, 0.2, 0.3 the solver returns 0.6, [reconstruct_all_paths] returns the
    path S, A, B, T, and the weights of that path accumulated from the start,
    [((0.0 + 0.1) + 0.2) + 0.3], give 0.6000000000000001, which is not [==]
    to [optimal_cost]. *)
Lemma all_paths_sum_from_start_differs :
  exists r,
    solve_stagecoach_dp chain_layers chain_edges "S" "T" "min" "+" = Ok r /\
    reconstruct_all_paths 4 (policy r) "S" "T"
      = Some [["S"; "A"; "B"; "T"]] /\
    edge_weights chain_edges ["S"; "A"; "B"; "T"] = Some [w01; w02; w03] /\
    PrimFloat.eqb (aggregate_from_start "+" [w01; w02; w03])
      (optimal_cost r) = false.
Proof.
  eexists. split; [vm_compute; reflexivity|].
  repeat split; vm_compute; reflexivity.
Qed.

(** C5 (amended): for a successful solve, [reconstruct_all_paths] on its
    policy, [start] and [goal] returns (the recursion being no deeper than
    the number of stages), and every path of the list starts at [start], ends
    at [goal], follows edges of the graph, and the aggregate of its edge
    weights under the combine operator, taken from the goal end,
    [w1 (+) (w2 (+) ... (wn (+) identity))], the grouping of the recurrence,
    is [==] to [optimal_cost]. *)
Theorem all_paths_optimal
  layers edges start goal opt_mode combine_op r fuel :
  solve_stagecoach_dp layers edges start goal opt_mode combine_op = Ok r ->
  length layers <= fuel ->
  exists paths,
    reconstruct_all_paths fuel (policy r) start goal = Some paths /\
    forall p, p ∈ paths ->
      head p = Some start /\ last p = Some goal /\
      exists ws, edge_weights edges p = Some ws /\
        PrimFloat.eqb (aggregate combine_op ws) (optimal_cost r) = true.
Proof.
  intros Hsolve Hfuel. apply solve_solved in Hsolve as (stage_of & Hs).
  destruct Hs as [_ _ Hvs Hinv _ _ Hcost].
  destruct (dfs_terminates _ _ _ _ _ _ _ _ _ Hvs Hinv fuel start 0 [start]
              (vs_start _ _ _ _ Hvs) ltac:(lia)) as [paths Hpaths].
  exists paths. split; [exact Hpaths|]. intros p Hp.
  destruct (dfs_follows _ _ _ _ _ _ Hpaths p Hp) as (q & -> & Hq).
  split; [done|]. split; [by apply follows_last in Hq|].
  destruct (follows_aggregate _ _ _ _ _ _ _ _ _ Hvs Hinv _ Hq)
    as (u & ws & fu & [= <-] & Hws & Hfu & He).
  exists ws. split; [done|]. congruence.
Qed.

Lemma all_paths_optimal_witness :
  exists r paths,
    solve_stagecoach_dp ex_layers ex_edges "S" "T" "min" "+" = Ok r /\
    reconstruct_all_paths 4 (policy r) "S" "T" = Some paths /\
    forall p, p ∈ paths ->
      head p = Some "S" /\ last p = Some "T" /\
      exists ws, edge_weights ex_edges p = Some ws /\
        PrimFloat.eqb (aggregate "+" ws) (optimal_cost r) = true.
Proof.
  eexists.
  destruct (all_paths_optimal ex_layers ex_edges "S" "T" "min" "+" _ 4
              ltac:(vm_compute; reflexivity) ltac:(simpl; lia))
    as (paths & H1 & H2).
  exists paths. split; [vm_compute; reflexivity|]. split; [exact H1|exact H2].
Defined.

(** On floats the grouping of the aggregation matters: on the same chain
    the aggregate from the goal end, [0.1 + (0.2 + (0.3 + 0.0))], is the 0.6
    that the solver returns, while the weights summed from the start end give
    0.6000000000000001. *)
Remark aggregate_grouping_matters :
  exists r,
    solve_stagecoach_dp chain_layers chain_edges "S" "T" "min" "+" = Ok r /\
    path r = ["S"; "A"; "B"; "T"] /\
    edge_weights chain_edges (path r) = Some [w01; w02; w03] /\
    PrimFloat.eqb (aggregate "+" [w01; w02; w03]) (optimal_cost r)
      = true /\
    PrimFloat.eqb (aggregate_from_start "+" [w01; w02; w03])
      (optimal_cost r) = false.
Proof.
  eexists. split; [vm_compute; reflexivity|].
  repeat split; vm_compute; reflexivity.
Qed.

(** ** C6: the example of the specification *)

(** C6: on the example input the solver returns [optimal_cost = 5.0] and
    the representative path S, A, D, T. *)
Theorem example_min_sum :
  exists r,
    solve_stagecoach_dp ex_layers ex_edges "S" "T" "min" "+" = Ok r /\
    optimal_cost r = 5%float /\ path r = ["S"; "A"; "D"; "T"].
Proof.
  eexists. split; [vm_compute; reflexivity|].
  split; vm_compute; reflexivity.
Qed.

(** ** C7: the entries of the goal *)

(** C7: after every successful solve, [f_star[goal]] is the identity of the
    combine operator (0.0 for "+", 1.0 for "*") and [policy[goal]] is
    empty. *)
Theorem goal_entries layers edges start goal opt_mode combine_op r :
  solve_stagecoach_dp layers edges start goal opt_mode combine_op = Ok r ->
  ((combine_op = "+" /\ f_star r !! goal = Some 0%float) \/
   (combine_op = "*" /\ f_star r !! goal = Some 1%float)) /\
  policy r !! goal = Some [].
Proof.
  intros Hsolve. apply solve_solved in Hsolve as (stage_of & Hs).
  destruct Hs as [_ Hop _ Hinv _ _ _].
  split; [|exact (inv_goal_p _ _ _ _ _ _ _ _ _ _ Hinv)].
  pose proof (inv_goal_f _ _ _ _ _ _ _ _ _ _ Hinv) as Hg.
  destruct Hop as [-> | ->]; [left | right]; split; auto.
Qed.

Lemma goal_entries_witness :
  exists r,
    solve_stagecoach_dp ex_layers ex_edges "S" "T" "max" "*" = Ok r /\
    (("*" = "+" /\ f_star r !! "T" = Some 0%float) \/
     ("*" = "*" /\ f_star r !! "T" = Some 1%float)) /\
    policy r !! "T" = Some [].
Proof.
  eexists. split; [vm_compute; reflexivity|].
  apply (goal_entries ex_layers ex_edges "S" "T" "max" "*" _).
  vm_compute. reflexivity.
Defined.

(** ** C8: maximum against minimum *)

(** C8: for every graph whose edge weights are all strictly positive and
    with the sum, when the solver returns a result in mode "min" and one in
    mode "max" on the same input, the [optimal_cost] of "max" is greater than
    or equal to that of "min" (Python's [<=] on floats). *)
Theorem max_cost_not_below_min layers edges start goal r_min r_max :
  positive_weights edges ->
  solve_stagecoach_dp layers edges start goal "min" "+" = Ok r_min ->
  solve_stagecoach_dp layers edges start goal "max" "+" = Ok r_max ->
  PrimFloat.leb (optimal_cost r_min) (optimal_cost r_max) = true.
Proof.
  intros Hpos Hmin Hmax.
  apply solve_Ok_inv in Hmin
    as (so & fl & psm & _ & _ & Hval & Hpsm & _ & Hcm & Hfm & Hpm & _).
  apply solve_Ok_inv in Hmax
    as (so' & fl' & psM & _ & _ & Hval' & HpsM & Hwalk & HcM & HfM & HpM & _).
  rewrite Hval in Hval'. injection Hval' as <- <-.
  pose proof (validate_stages _ _ _ _ _ _ Hval) as Hvs.
  destruct (backward_pass_inv _ _ _ _ _ _ _ Hvs _ Hpsm) as [Hinvm _].
  destruct (backward_pass_inv _ _ _ _ _ _ _ Hvs _ HpsM) as [HinvM _].
  pose proof (bracket_stage _ _ _ _ _ _ _ _ _ Hvs Hinvm HinvM Hpos
                (length layers - 1) 0 start ltac:(lia) (vs_start _ _ _ _ Hvs))
    as [Ha Hb].
  unfold f_star_get in Ha, Hb. rewrite Hcm in Ha, Hb. rewrite HcM in Hb.
  simpl in Ha, Hb.
  apply walk_Ok_follows in Hwalk as (q & _ & Hq).
  destruct (follows_max_nonneg _ _ _ _ _ _ _ Hvs HinvM Hpos _ Hq)
    as (u & fu & [= <-] & Hfu & Hnn).
  rewrite HcM in Hfu. injection Hfu as <-.
  destruct Hb as [Hb | [_ Hle]];
    [by destruct (fl_nonneg_not_neg_inf _ Hnn Hb)|].
  rewrite float_leb_units by auto. by apply Z.leb_le.
Qed.

Lemma max_cost_not_below_min_witness :
  exists r_min r_max,
    solve_stagecoach_dp ex_layers ex_edges "S" "T" "min" "+" = Ok r_min /\
    solve_stagecoach_dp ex_layers ex_edges "S" "T" "max" "+" = Ok r_max /\
    optimal_cost r_min = 5%float /\ optimal_cost r_max = 10%float /\
    PrimFloat.leb (optimal_cost r_min) (optimal_cost r_max) = true.
Proof.
  eexists. eexists.
  split; [vm_compute; reflexivity|]. split; [vm_compute; reflexivity|].
  split; [vm_compute; reflexivity|]. split; [vm_compute; reflexivity|].
  apply (max_cost_not_below_min ex_layers ex_edges "S" "T").
  - apply positive_weightsb_spec. vm_compute. reflexivity.
  - vm_compute. reflexivity.
  - vm_compute. reflexivity.
Defined.

(** ** C9: an edge that does not advance exactly one stage *)

(** C9, as stated, fails: with two such edges the validation names the first
    one met only.  Here [A -> T] lies two stages ahead and the error names
    [S -> B]. *)
Lemma skip_edge_not_named :
  dict_get "T" (edges_get skip_edges "A") = Some 4%float /\
  _validate_stagecoach skip_layers skip_edges "S" "T"
    = Err (EEdgeNotNextStage "S" "B").
Proof. split; vm_compute; reflexivity. Qed.

(** C9 (amended): for every input containing an edge [u -> v] whose
    destination's stage index differs from the source's stage index + 1, the
    validation fails with a structure error and the solver produces no
    result; the error names that edge when the input up to that edge passes
    all checks, otherwise it reports the defect met earlier. *)
Theorem skip_edge_rejected
  layers start goal pre u npre v w npost post su sv Lu Lv :
  let edges := pre ++ (u, npre ++ (v, w) :: npost) :: post in
  layers !! su = Some Lu -> u ∈ Lu ->
  layers !! sv = Some Lv -> v ∈ Lv ->
  sv <> su + 1 ->
  (exists e, _validate_stagecoach layers edges start goal = Err e /\
             is_structure_error e = true) /\
  (forall opt_mode combine_op, exists e,
     solve_stagecoach_dp layers edges start goal opt_mode combine_op = Err e) /\
  (forall sm,
     _validate_stagecoach layers (pre ++ [(u, npre)]) start goal = Ok sm ->
     _validate_stagecoach layers edges start goal = Err (EEdgeNotNextStage u v)).
Proof.
  intros edges Hsu Hu Hsv Hv Hne.
  assert (forall stage_of, valid_stages layers start goal stage_of ->
            stage_of !! u = Some su /\ stage_of !! v = Some sv) as Hstages.
  { intros stage_of Hval. split; apply (vs_stage _ _ _ _ Hval); eauto. }
  assert (exists e, _validate_stagecoach layers edges start goal = Err e)
    as [e He].
  { destruct (_validate_stagecoach layers edges start goal)
      as [[stage_of flat]|e] eqn:Hval; [|eauto].
    exfalso.
    destruct (validate_Ok_edges _ _ _ _ _ _ Hval u
                (npre ++ (v, w) :: npost) v w) as (su' & Hu' & Hv').
    - apply elem_of_app. right. by left.
    - apply elem_of_app. right. by left.
    - apply validate_stages, Hstages in Hval as [H1 H2].
      rewrite H1 in Hu'. rewrite H2 in Hv'.
      injection Hu' as <-. injection Hv' as ->. done. }
  split; [|split].
  - exists e. split; [done|]. eapply validate_Err_structure, He.
  - intros opt_mode combine_op. eapply solve_after_validate_Err, He.
  - intros [stage_of flat] Hpre.
    rewrite (validate_edges_indep _ _ edges _ _ _ _ Hpre).
    pose proof (validate_stages _ _ _ _ _ _ Hpre) as Hval.
    apply Hstages in Hval as [H1 H2].
    rewrite (validate_edges_indep _ _ (pre ++ [(u, npre)]) _ _ _ _ Hpre) in Hpre.
    apply bind_Ok in Hpre as ([] & Hpre & _).
    rewrite foldM_app in Hpre. apply bind_Ok in Hpre as ([] & Hp1 & Hp2).
    simpl in Hp2. apply bind_Ok in Hp2 as ([] & Hp2 & _).
    unfold check_source in Hp2. simpl in Hp2. rewrite H1 in Hp2.
    assert (check_source stage_of tt (u, npre ++ (v, w) :: npost)
            = Err (EEdgeNotNextStage u v)) as Hsrc.
    { assert (check_edge stage_of u su tt (v, w)
              = Err (EEdgeNotNextStage u v)) as Hedge.
      { unfold check_edge. simpl. rewrite H2.
        destruct (Nat.eqb sv (su + 1)) eqn:E; [|reflexivity].
        by apply Nat.eqb_eq in E. }
      unfold check_source. simpl. rewrite H1, foldM_app, Hp2. simpl.
      rewrite Hedge. reflexivity. }
    unfold edges. rewrite foldM_app, Hp1. simpl. rewrite Hsrc. reflexivity.
Qed.

Lemma skip_edge_rejected_witness :
  (exists e, _validate_stagecoach skip_layers skip_edges "S" "T" = Err e /\
             is_structure_error e = true) /\
  (forall opt_mode combine_op, exists e,
     solve_stagecoach_dp skip_layers skip_edges "S" "T" opt_mode combine_op
       = Err e) /\
  _validate_stagecoach skip_layers skip_edges "S" "T"
    = Err (EEdgeNotNextStage "S" "B").
Proof.
  destruct (skip_edge_rejected skip_layers "S" "T" [] "S" [("A", 1%float)]
              "B" 7%float []
              [("A", [("B", 1%float); ("T", 4%float)]); ("B", [("T", 1%float)])]
              0 2 ["S"] ["B"]) as (H1 & H2 & H3).
  - reflexivity.
  - by left.
  - reflexivity.
  - by left.
  - lia.
  - split; [exact H1|]. split; [exact H2|].
    eapply H3. vm_compute. reflexivity.
Defined.

(** ** C10: successors without a value *)

(** C10, as stated, fails: with the product and a weight 0 the candidate
    [0 * inf] is NaN, no successor is kept, and the solver raises the
    dead-end error for the node. *)
Lemma sentinel_tie_lost_with_product :
  solve_stagecoach_dp [["S"]; ["T"; "X"]] [("S", [("X", 0%float)])]
    "S" "T" "min" "*" = Err (EDeadEnd "S" 1).
Proof. vm_compute. reflexivity. Qed.

(** C10 (amended): on an input that passes the configuration checks and the
    validation, let [u] be a node of the stage before the last whose edges
    into the last stage all lead to nodes other than the goal, there being at
    least one, and let each of their weights [w] satisfy
    [combine(w, sentinel) == sentinel] (the sentinel is [+inf] for "min" and
    [-inf] for "max").  Then the solver raises no dead-end error for [u], and
    after the backward pass [f_star[u]] is the sentinel, [policy[u]] lists
    those successors in the order of the last stage, and none of them has an
    entry in [f_star]. *)
Theorem sentinel_tie_kept
  layers edges start goal opt_mode combine_op sm u :
  opt_mode = "min" \/ opt_mode = "max" ->
  combine_op = "+" \/ combine_op = "*" ->
  _validate_stagecoach layers edges start goal = Ok sm ->
  2 <= length layers ->
  u ∈ layer_at layers (length layers - 2) ->
  let succs := successors_in edges u (layer_at layers (length layers - 1)) in
  succs <> [] ->
  goal ∉ succs ->
  (forall v w, v ∈ layer_at layers (length layers - 1) ->
     dict_get v (edges_get edges u) = Some w ->
     PrimFloat.eqb (combine combine_op w (agg_init opt_mode))
       (agg_init opt_mode) = true) ->
  (forall t, solve_stagecoach_dp layers edges start goal opt_mode combine_op
             <> Err (EDeadEnd u t)) /\
  (forall ps, backward_pass opt_mode combine_op layers edges goal = Ok ps ->
     ps_f_star ps !! u = Some (agg_init opt_mode) /\
     ps_policy ps !! u = Some succs /\
     forall v, v ∈ succs -> ps_f_star ps !! v = None) /\
  (forall r,
     solve_stagecoach_dp layers edges start goal opt_mode combine_op = Ok r ->
     f_star r !! u = Some (agg_init opt_mode) /\
     policy r !! u = Some succs /\
     forall v, v ∈ succs -> f_star r !! v = None).
Proof.
  intros Hm Ho Hval Hlen Hu succs Hne Hgoal Hties.
  destruct sm as [stage_of flat].
  pose proof (validate_stages _ _ _ _ _ _ Hval) as Hvs.
  assert (length layers - 2 + 1 = length layers - 1) as Hidx by lia.
  assert (forall v, v ∈ succs ->
            v ∈ layer_at layers (length layers - 1) /\ v <> goal) as Hsuccs.
  { intros v Hv. split; [|by intros ->].
    unfold succs, successors_in in Hv. by apply list_elem_of_filter in Hv as []. }
  assert (forall v w, v ∈ layer_at layers (length layers - 1) ->
            dict_get v (edges_get edges u) = Some w -> v ∈ succs) as Hin.
  { intros v w Hv Hw. apply list_elem_of_filter. split; [|done].
    rewrite Hw. eauto. }
  assert (forall ps,
     backward_pass opt_mode combine_op layers edges goal = Ok ps ->
     ps_f_star ps !! u = Some (agg_init opt_mode) /\
     ps_policy ps !! u = Some succs /\
     forall v, v ∈ succs -> ps_f_star ps !! v = None) as Hpass.
  { intros ps Hps.
    destruct (backward_pass_inv _ _ _ _ _ _ _ Hvs _ Hps) as [Hinv _].
    assert (forall v, v ∈ succs -> ps_f_star ps !! v = None) as Hnone.
    { intros v Hv. destruct (Hsuccs v Hv) as [Hl Hg].
      destruct (ps_f_star ps !! v) as [x|] eqn:Hx; [|done]. exfalso.
      assert (is_Some (ps_f_star ps !! v)) as Hs by eauto.
      apply (inv_dom_f _ _ _ _ _ _ _ _ _ _ Hinv) in Hs as [-> | Hp]; [done|].
      apply final_processed in Hp as (j & Hj & Hlt).
      apply (layer_at_stage _ _ _ _ Hvs) in Hl. rewrite Hl in Hj.
      injection Hj as <-. lia. }
    apply (layer_at_stage _ _ _ _ Hvs) in Hu.
    destruct (final_entry _ _ _ _ _ _ _ _ Hinv u _ Hu ltac:(lia))
      as (Hf & Hp & _).
    unfold scan_of in Hf, Hp. rewrite Hidx in Hf, Hp.
    destruct (scan_next_all_ties opt_mode combine_op edges u (ps_f_star ps)
                (layer_at layers (length layers - 1))) as [Hv Hs].
    { intros v w Hv Hw. split; [|by eapply Hties]. eapply Hnone, Hin; eauto. }
    rewrite Hv in Hf. rewrite Hs in Hp. auto. }
  split; [|split; [exact Hpass|]].
  - intros t Hsolve.
    pose proof (solve_outcome _ _ _ _ _ _ _ _ Hm Ho Hval) as Hout.
    destruct (backward_pass opt_mode combine_op layers edges goal) as [ps|e]
      eqn:Hbp.
    + destruct Hout as [(r & Hr & _) | (x & Hx & _)]; congruence.
    + destruct Hout as [He _]. rewrite He in Hsolve. injection Hsolve as ->.
      apply backward_pass_Err in Hbp
        as (before & t' & u' & after & st & Hord & Hfold & Hbest & [= <- ->]).
      assert ((t', u) ∈ processing_order layers) as Htu
        by (rewrite Hord; apply elem_of_app; right; by left).
      apply processing_order_elem in Htu as [_ Hu'].
      apply (layer_at_stage _ _ _ _ Hvs) in Hu, Hu'.
      rewrite Hu in Hu'. injection Hu' as <-. rewrite Hidx in Hbest.
      destruct (scan_next_all_ties opt_mode combine_op edges u (st_f_star st)
                  (layer_at layers (length layers - 1))) as [_ Hs].
      { intros v w Hv Hw. split; [|by eapply Hties].
        destruct (Hsuccs v (Hin v w Hv Hw)) as [_ Hvg].
        apply (last_stage_no_value opt_mode combine_op layers edges start goal
                 stage_of before st v Hvs); [|exact Hfold|exact Hv|exact Hvg].
        intros tu Htu. rewrite Hord. apply elem_of_app. by left. }
      rewrite Hs in Hbest. done.
  - intros r Hr. apply solve_Ok_inv in Hr
      as (so & fl & ps & _ & _ & _ & Hps & _ & _ & -> & -> & _).
    by apply Hpass.
Qed.

Lemma sentinel_tie_kept_witness :
  (forall t, solve_stagecoach_dp extra_layers extra_edges "S" "T" "min" "+"
             <> Err (EDeadEnd "B" t)) /\
  exists r,
    solve_stagecoach_dp extra_layers extra_edges "S" "T" "min" "+" = Ok r /\
    f_star r !! "B" = Some infinity /\
    policy r !! "B" = Some ["X"] /\
    forall v, v ∈ ["X"] -> f_star r !! v = None.
Proof.
  destruct (sentinel_tie_kept extra_layers extra_edges "S" "T" "min" "+"
              ({[ "S" := 0; "A" := 1; "B" := 1; "T" := 2; "X" := 2 ]},
               ["S"; "A"; "B"; "T"; "X"]) "B") as (H1 & _ & H3).
  - by left.
  - by left.
  - vm_compute. reflexivity.
  - simpl. lia.
  - right. by left.
  - vm_compute. discriminate.
  - vm_compute. intros H. apply list_elem_of_singleton in H. discriminate.
  - intros v w Hv Hw.
    apply elem_of_cons in Hv as [-> | Hv]; [discriminate|].
    apply list_elem_of_singleton in Hv as ->.
    injection Hw as <-. reflexivity.
  - split; [exact H1|]. eexists. split; [vm_compute; reflexivity|].
    apply H3. vm_compute. reflexivity.
Defined.
(** * Further properties of the solver and of the input page *)

(** ** The examples are solved *)

Lemma ex_min_solved :
  exists r, solve_stagecoach_dp ex_layers ex_edges "S" "T" "min" "+" = Ok r.
Proof. vm_compute. eexists. reflexivity. Qed.

Lemma ex_validated :
  exists stage_of flat,
    _validate_stagecoach ex_layers ex_edges "S" "T" = Ok (stage_of, flat).
Proof.
  destruct ex_min_solved as [r H].
  apply solve_Ok_inv in H as (so & fl & _ & _ & _ & Hval & _). eauto.
Qed.

Lemma ex_max_solved :
  exists r, solve_stagecoach_dp ex_layers ex_edges "S" "T" "max" "+" = Ok r.
Proof. vm_compute. eexists. reflexivity. Qed.

Lemma extra_min_solved :
  exists r,
    solve_stagecoach_dp extra_layers extra_edges "S" "T" "min" "+" = Ok r.
Proof. vm_compute. eexists. reflexivity. Qed.

(** ** The validation *)

Lemma register_nodes_outcome (k : nat) (L : list string) :
  forall m : gmap string nat,
  match foldM (register_node k) L m with
  | Ok m' =>
      NoDup L /\ (forall u, u ∈ L -> m !! u = None) /\
      (forall u, is_Some (m' !! u) <-> is_Some (m !! u) \/ u ∈ L)
  | Err e =>
      exists pre u post,
        L = pre ++ u :: post /\ e = EDuplicateNode u /\ NoDup pre /\
        (forall x, x ∈ pre -> m !! x = None) /\
        (is_Some (m !! u) \/ u ∈ pre)
  end.
Proof.
  induction L as [|a L IH]; intros m; simpl.
  - split; [constructor|]. split; [intros u Hu; inversion Hu|].
    intros u. split; [auto | intros [H | Hu]; [done | inversion Hu]].
  - destruct (m !! a) as [j|] eqn:Ha.
    + assert (Hr : register_node k m a = Err (EDuplicateNode a))
        by (unfold register_node; by rewrite Ha).
      rewrite Hr. simpl.
      exists [], a, L. repeat split; eauto using NoDup_nil_2.
      intros x Hx. inversion Hx.
    + assert (Hr : register_node k m a = Ok (<[a := k]> m))
        by (unfold register_node; by rewrite Ha).
      rewrite Hr. simpl.
      specialize (IH (<[a := k]> m)).
      destruct (foldM (register_node k) L (<[a := k]> m)) as [m'|e].
      * destruct IH as (Hnd & Hfresh & Hdom).
        assert (Ha' : a ∉ L).
        { intros Hin. specialize (Hfresh a Hin).
          by rewrite lookup_insert_eq in Hfresh. }
        split; [by constructor|]. split.
        -- intros u Hu. apply elem_of_cons in Hu as [-> | Hu]; [done|].
           specialize (Hfresh u Hu).
           destruct (decide (a = u)) as [-> | Hne]; [done|].
           by rewrite lookup_insert_ne in Hfresh.
        -- intros u. rewrite Hdom, elem_of_cons.
           destruct (decide (a = u)) as [-> | Hne].
           ++ rewrite lookup_insert_eq. split; [auto|]. intros _. left. eauto.
           ++ rewrite lookup_insert_ne by done. split.
              ** intros [H | H]; auto.
              ** intros [H | [-> | H]]; auto. done.
      * destruct IH as (pre & u & post & -> & -> & Hnd & Hfresh & Hu).
        assert (Ha' : a ∉ pre).
        { intros Hin. specialize (Hfresh a Hin).
          by rewrite lookup_insert_eq in Hfresh. }
        exists (a :: pre), u, post. split; [done|]. split; [done|].
        split; [by constructor|]. split.
        -- intros x Hx. apply elem_of_cons in Hx as [-> | Hx]; [done|].
           specialize (Hfresh x Hx).
           destruct (decide (a = x)) as [-> | Hne]; [done|].
           by rewrite lookup_insert_ne in Hfresh.
        -- destruct Hu as [Hu | Hu]; [|right; by apply elem_of_cons; right].
           destruct (decide (a = u)) as [-> | Hne].
           ++ right. apply elem_of_cons. by left.
           ++ rewrite lookup_insert_ne in Hu by done. by left.
Qed.

Lemma register_layers_outcome (layers : layers_t) :
  forall k (m : gmap string nat) (seen : list string),
  (forall u, is_Some (m !! u) <-> u ∈ seen) -> NoDup seen ->
  match register_layers k layers m with
  | Ok m' =>
      NoDup (seen ++ concat layers) /\
      (forall u, is_Some (m' !! u) <-> u ∈ seen ++ concat layers)
  | Err e =>
      exists pre u post,
        seen ++ concat layers = pre ++ u :: post /\ e = EDuplicateNode u /\
        NoDup pre /\ u ∈ pre
  end.
Proof.
  induction layers as [|L rest IH]; intros k m seen Hdom Hnd; simpl.
  - rewrite app_nil_r. auto.
  - pose proof (register_nodes_outcome k L m) as HL.
    destruct (foldM (register_node k) L m) as [m1|e]; simpl.
    + destruct HL as (HndL & Hfresh & Hdom1).
      assert (Hnd1 : NoDup (seen ++ L)).
      { apply NoDup_app. split; [done|]. split; [|done].
        intros x Hx HxL. apply Hdom in Hx. specialize (Hfresh x HxL).
        rewrite Hfresh in Hx. by destruct Hx. }
      specialize (IH (S k) m1 (seen ++ L)).
      rewrite <- app_assoc in IH. apply IH; [|done].
      intros u. rewrite Hdom1, Hdom, elem_of_app. done.
    + destruct HL as (pre & u & post & -> & -> & Hndp & Hfresh & Hu).
      exists (seen ++ pre), u, (post ++ concat rest).
      split; [by rewrite <- !app_assoc|]. split; [done|]. split.
      * apply NoDup_app. split; [done|]. split; [|done].
        intros x Hx Hxp. apply Hdom in Hx. specialize (Hfresh x Hxp).
        rewrite Hfresh in Hx. by destruct Hx.
      * apply elem_of_app. destruct Hu as [Hu | Hu]; [left | by right].
        by apply Hdom.
Qed.
Lemma foldM_unit_all {A : Type} (body : unit -> A -> result unit) (l : list A) :
  (forall a, a ∈ l -> body tt a = Ok tt) -> foldM body l tt = Ok tt.
Proof.
  induction l as [|a l IH]; intros H; simpl; [done|].
  rewrite (H a) by (by left). simpl. apply IH. intros b Hb. apply H. by right.
Qed.

Lemma layers_well_formed_spec (layers : layers_t) :
  layers_well_formed layers = true <-> layers <> [] /\ ([] ∉ layers).
Proof.
  unfold layers_well_formed. destruct layers as [|L0 rest].
  - split; [discriminate | by intros [H _]].
  - rewrite forallb_forall. split.
    + intros H. split; [done|]. intros Hin.
      apply list_elem_of_In, H in Hin. discriminate.
    + intros [_ H] L HL. apply Nat.ltb_lt. destruct L; simpl; [|lia].
      destruct H. by apply list_elem_of_In.
Qed.

Lemma layer_at_elem (layers : layers_t) (u : string) (j : nat) :
  u ∈ layer_at layers j <-> exists L, layers !! j = Some L /\ u ∈ L.
Proof.
  unfold layer_at. destruct (layers !! j) as [L|]; simpl.
  - split; [eauto | by intros (L' & [= <-] & H)].
  - split; [intros H; inversion H | by intros (L' & [=] & _)].
Qed.

Lemma layer_at_concat (layers : layers_t) (u : string) :
  u ∈ concat layers <-> exists j, u ∈ layer_at layers j.
Proof.
  rewrite list_elem_of_In, in_concat. split.
  - intros (L & HL & Hu). apply list_elem_of_In in HL, Hu.
    apply list_elem_of_lookup in HL as [j Hj]. exists j.
    apply layer_at_elem. eauto.
  - intros (j & Hj). apply layer_at_elem in Hj as (L & Hj & Hu).
    exists L. rewrite <- !list_elem_of_In. split; [|done].
    by eapply list_elem_of_lookup_2.
Qed.

(** The steps of a validation that passes. *)
Lemma validate_Ok_steps layers edges start goal stage_of flat :
  _validate_stagecoach layers edges start goal = Ok (stage_of, flat) <->
  layers_well_formed layers = true /\
  register_layers 0 layers ∅ = Ok stage_of /\
  stage_of !! start = Some 0 /\
  stage_of !! goal = Some (length layers - 1) /\
  foldM (check_source stage_of) edges tt = Ok tt /\
  flat = concat layers.
Proof.
  unfold _validate_stagecoach. split.
  - destruct (layers_well_formed layers); simpl; [|discriminate].
    intros H. apply bind_Ok in H as (m & Hreg & H).
    destruct (m !! start) as [s0|] eqn:Hs; [|discriminate].
    destruct (m !! goal) as [sK|] eqn:Hg; [|discriminate].
    destruct (Nat.eqb s0 0) eqn:E0; simpl in H; [|discriminate].
    destruct (Nat.eqb sK (length layers - 1)) eqn:EK; simpl in H;
      [|discriminate].
    apply bind_Ok in H as ([] & Hchk & [= <- <-]).
    apply Nat.eqb_eq in E0, EK. subst. auto 10.
  - intros (-> & -> & Hs & Hg & Hchk & ->). simpl. rewrite Hs, Hg.
    rewrite !Nat.eqb_refl. simpl. rewrite Hchk. reflexivity.
Qed.

Lemma registered_stage (layers : layers_t) (m : gmap string nat) :
  register_layers 0 layers ∅ = Ok m ->
  NoDup (concat layers) /\
  forall u j, m !! u = Some j <-> u ∈ layer_at layers j.
Proof.
  intros Hreg. split.
  - pose proof (register_layers_outcome layers 0 ∅ []) as H.
    rewrite Hreg in H. apply H; [|constructor].
    intros u. rewrite lookup_empty. split; [by intros [x Hx] | intros Hx].
    inversion Hx.
  - apply register_layers_spec in Hreg as [_ Hiff]. intros u j.
    rewrite Hiff, lookup_empty, layer_at_elem. split.
    + intros [H | (i & L & Hi & Hu & ->)]; [discriminate | eauto].
    + intros (L & Hi & Hu). right. exists j, L. auto.
Qed.

Lemma stage_unique (layers : layers_t) (u : string) (i j : nat) :
  NoDup (concat layers) ->
  u ∈ layer_at layers i -> u ∈ layer_at layers j -> i = j.
Proof.
  revert i j. induction layers as [|L rest IH]; intros i j Hnd Hi Hj.
  - apply layer_at_elem in Hi as (L & Hi & _). destruct i; discriminate.
  - simpl in Hnd. apply NoDup_app in Hnd as (_ & Hdis & Hrest).
    assert (forall k, u ∈ L -> u ∈ layer_at (L :: rest) (S k) -> False) as Hno.
    { intros k HL Hk. apply (Hdis u HL). apply layer_at_concat. by exists k. }
    destruct i as [|i], j as [|j]; [done| | |].
    + by destruct (Hno j).
    + by destruct (Hno i).
    + f_equal. by apply IH.
Qed.

Lemma validate_accepts_spec layers edges start goal :
  (exists stage_of,
     _validate_stagecoach layers edges start goal
       = Ok (stage_of, concat layers)) <->
  layers <> [] /\ ([] ∉ layers) /\ NoDup (concat layers) /\
  start ∈ layer_at layers 0 /\
  goal ∈ layer_at layers (length layers - 1) /\
  (forall u nbrs, (u, nbrs) ∈ edges ->
     exists j, u ∈ layer_at layers j /\
       forall v w, (v, w) ∈ nbrs -> v ∈ layer_at layers (j + 1)).
Proof.
  split.
  - intros (m & H). apply validate_Ok_steps in H
      as (Hwf & Hreg & Hs & Hg & Hchk & _).
    apply layers_well_formed_spec in Hwf as [Hne Hnil].
    apply registered_stage in Hreg as [Hnd Hst].
    repeat (split; [done || by apply Hst|]).
    intros u nbrs Hu. pose proof (foldM_unit_Ok _ _ Hchk _ Hu) as H.
    unfold check_source in H. simpl in H.
    destruct (m !! u) as [su|] eqn:Hsu; [|discriminate].
    exists su. split; [by apply Hst|]. intros v w Hv.
    pose proof (foldM_unit_Ok _ _ H _ Hv) as H'. unfold check_edge in H'.
    simpl in H'. destruct (m !! v) as [sv|] eqn:Hsv; [|discriminate].
    destruct (Nat.eqb sv (su + 1)) eqn:E; [|discriminate].
    apply Nat.eqb_eq in E as ->. by apply Hst.
  - intros (Hne & Hnil & Hnd & Hs & Hg & Hedges).
    pose proof (register_layers_outcome layers 0 ∅ []) as H.
    destruct (register_layers 0 layers ∅) as [m|e] eqn:Hreg.
    + exists m. apply registered_stage in Hreg as Hst. destruct Hst as [_ Hst].
      apply validate_Ok_steps.
      split; [by apply layers_well_formed_spec|].
      repeat (split; [done || by apply Hst|]). split; [|done].
      apply foldM_unit_all. intros [u nbrs] Hu.
      destruct (Hedges u nbrs Hu) as (j & Hj & Hn).
      unfold check_source. simpl. apply Hst in Hj. rewrite Hj.
      apply foldM_unit_all. intros [v w] Hv. unfold check_edge. simpl.
      specialize (Hn v w Hv). apply Hst in Hn. rewrite Hn.
      by rewrite Nat.eqb_refl.
    + destruct H as (pre & u & post & Heq & _ & _ & Hu).
      * intros x. rewrite lookup_empty. split; [by intros [y Hy] | intros Hx].
        inversion Hx.
      * constructor.
      * simpl in Heq. rewrite Heq in Hnd. apply NoDup_app in Hnd as (_ & Hd & _).
        destruct (Hd u Hu). by left.
Qed.

(** Validation passes exactly when the stages and the edges are as the
    solver needs them. *)
Theorem validate_accepts_iff layers edges start goal :
  (exists stage_of,
     _validate_stagecoach layers edges start goal
       = Ok (stage_of, concat layers)) <->
  layers <> [] /\ ([] ∉ layers) /\ NoDup (concat layers) /\
  start ∈ layer_at layers 0 /\
  goal ∈ layer_at layers (length layers - 1) /\
  (forall u nbrs, (u, nbrs) ∈ edges ->
     exists j, u ∈ layer_at layers j /\
       forall v w, (v, w) ∈ nbrs -> v ∈ layer_at layers (j + 1)).
Proof. apply validate_accepts_spec. Qed.

Lemma validate_error_spec layers edges start goal e :
  _validate_stagecoach layers edges start goal = Err e ->
  match e with
  | ELayers => layers = [] \/ [] ∈ layers
  | EDuplicateNode u =>
      exists pre post,
        concat layers = pre ++ u :: post /\ NoDup pre /\ u ∈ pre
  | EStartGoalUnknown =>
      NoDup (concat layers) /\
      ((start ∉ concat layers) \/ (goal ∉ concat layers))
  | EStartGoalBoundary =>
      NoDup (concat layers) /\
      start ∈ concat layers /\ goal ∈ concat layers /\
      ((start ∉ layer_at layers 0) \/
       (goal ∉ layer_at layers (length layers - 1)))
  | EEdgeUnknownNode x =>
      (x ∉ concat layers) /\
      exists u nbrs, (u, nbrs) ∈ edges /\ (x = u \/ exists w, (x, w) ∈ nbrs)
  | EEdgeNotNextStage u v =>
      exists nbrs w j j',
        (u, nbrs) ∈ edges /\ (v, w) ∈ nbrs /\
        u ∈ layer_at layers j /\ v ∈ layer_at layers j' /\ j' <> j + 1
  | _ => False
  end.
Proof.
  unfold _validate_stagecoach.
  destruct (layers_well_formed layers) eqn:Hwf; simpl.
  2:{ intros [= <-]. destruct (decide (layers = [])) as [|Hne]; [by left|].
      right. destruct (decide ([] ∈ layers)) as [|Hnil]; [done|].
      assert (layers_well_formed layers = true)
        by (by apply layers_well_formed_spec).
      congruence. }
  pose proof (register_layers_outcome layers 0 ∅ []) as Hout.
  destruct (register_layers 0 layers ∅) as [m|e'] eqn:Hreg; simpl.
  2:{ intros [= <-]. destruct Hout as (pre & u & post & Heq & -> & Hnd & Hu).
      - intros x. rewrite lookup_empty. split; [by intros [y Hy] | intros Hx].
        inversion Hx.
      - constructor.
      - eauto. }
  clear Hout. apply registered_stage in Hreg as [Hnd Hst].
  assert (Hdom : forall u, m !! u = None -> u ∉ concat layers).
  { intros u Hu Hin. apply layer_at_concat in Hin as [j Hj].
    apply Hst in Hj. congruence. }
  assert (Hin : forall u j, m !! u = Some j -> u ∈ concat layers).
  { intros u j Hu. apply layer_at_concat. exists j. by apply Hst. }
  destruct (m !! start) as [s0|] eqn:Hs.
  2:{ intros [= <-]. split; [done|]. left. by apply Hdom. }
  destruct (m !! goal) as [sK|] eqn:Hg.
  2:{ intros [= <-]. split; [done|]. right. by apply Hdom. }
  destruct (Nat.eqb s0 0) eqn:E0; simpl.
  2:{ intros [= <-]. split; [done|]. split; [eauto|]. split; [eauto|].
      left. intros H0. apply Hst in H0. rewrite Hs in H0.
      injection H0 as ->. discriminate. }
  destruct (Nat.eqb sK (length layers - 1)) eqn:EK; simpl.
  2:{ intros [= <-]. split; [done|]. split; [eauto|]. split; [eauto|].
      right. intros HK. apply Hst in HK. rewrite Hg in HK.
      injection HK as ->. by rewrite Nat.eqb_refl in EK. }
  intros H. apply bind_Err in H as [H | (c & _ & [=])].
  apply foldM_Err_inv in H as (done & [u nbrs] & rest & [] & Hedges & _ & H).
  assert (Hu : (u, nbrs) ∈ edges).
  { rewrite Hedges. apply elem_of_app. right. by left. }
  unfold check_source in H. simpl in H.
  destruct (m !! u) as [su|] eqn:Hsu.
  2:{ injection H as <-. split; [by apply Hdom|]. exists u, nbrs. auto. }
  apply foldM_Err_inv in H as (done' & [v w] & rest' & [] & Hnbrs & _ & H).
  assert (Hv : (v, w) ∈ nbrs).
  { rewrite Hnbrs. apply elem_of_app. right. by left. }
  unfold check_edge in H. simpl in H.
  destruct (m !! v) as [sv|] eqn:Hsv.
  2:{ injection H as <-. split; [by apply Hdom|]. exists u, nbrs. eauto. }
  destruct (Nat.eqb sv (su + 1)) eqn:E; [discriminate|].
  injection H as <-. exists nbrs, w, su, sv.
  repeat (split; [done || by apply Hst|]).
  intros ->. by rewrite Nat.eqb_refl in E.
Qed.

(** What each error of the validation says about the input. *)
Theorem validate_error_meaning layers edges start goal e :
  _validate_stagecoach layers edges start goal = Err e ->
  match e with
  | ELayers => layers = [] \/ [] ∈ layers
  | EDuplicateNode u =>
      exists pre post,
        concat layers = pre ++ u :: post /\ NoDup pre /\ u ∈ pre
  | EStartGoalUnknown =>
      NoDup (concat layers) /\
      ((start ∉ concat layers) \/ (goal ∉ concat layers))
  | EStartGoalBoundary =>
      NoDup (concat layers) /\
      start ∈ concat layers /\ goal ∈ concat layers /\
      ((start ∉ layer_at layers 0) \/
       (goal ∉ layer_at layers (length layers - 1)))
  | EEdgeUnknownNode x =>
      (x ∉ concat layers) /\
      exists u nbrs, (u, nbrs) ∈ edges /\ (x = u \/ exists w, (x, w) ∈ nbrs)
  | EEdgeNotNextStage u v =>
      exists nbrs w j j',
        (u, nbrs) ∈ edges /\ (v, w) ∈ nbrs /\
        u ∈ layer_at layers j /\ v ∈ layer_at layers j' /\ j' <> j + 1
  | _ => False
  end.
Proof. apply validate_error_spec. Qed.

Lemma validate_error_meaning_witness :
  exists nbrs w j j',
    ("S", nbrs) ∈ skip_edges /\ ("B", w) ∈ nbrs /\
    "S" ∈ layer_at skip_layers j /\ "B" ∈ layer_at skip_layers j' /\
    j' <> j + 1.
Proof.
  exact (validate_error_meaning skip_layers skip_edges "S" "T"
           (EEdgeNotNextStage "S" "B") ltac:(vm_compute; reflexivity)).
Defined.
(** A validation that passes returns the stage of every node and the nodes
    in reading order. *)
Theorem validate_returns_stage_index layers edges start goal stage_of flat :
  _validate_stagecoach layers edges start goal = Ok (stage_of, flat) ->
  flat = concat layers /\
  forall u j, stage_of !! u = Some j <-> u ∈ layer_at layers j.
Proof.
  intros Hval. apply validate_Ok_steps in Hval as (_ & Hreg & _ & _ & _ & ->).
  split; [done|]. by apply registered_stage in Hreg as [_ Hst].
Qed.

Lemma validate_returns_stage_index_witness :
  exists stage_of flat,
    _validate_stagecoach ex_layers ex_edges "S" "T" = Ok (stage_of, flat) /\
    flat = concat ex_layers /\
    forall u j, stage_of !! u = Some j <-> u ∈ layer_at ex_layers j.
Proof.
  destruct ex_validated as (stage_of & flat & Hval).
  exists stage_of, flat. split; [exact Hval|].
  apply (validate_returns_stage_index ex_layers ex_edges "S" "T" _ _ Hval).
Defined.

(** The two dictionaries of a result have the same keys: the goal and the
    nodes of the stages before the last one.  A node of the last stage
    other than the goal has no entry, and only the goal has an empty list
    of successors. *)
Theorem result_keys layers edges start goal opt_mode combine_op r :
  solve_stagecoach_dp layers edges start goal opt_mode combine_op = Ok r ->
  forall u,
    (is_Some (f_star r !! u) <->
     u = goal \/ exists j, j < length layers - 1 /\ u ∈ layer_at layers j) /\
    (is_Some (policy r !! u) <-> is_Some (f_star r !! u)) /\
    (policy r !! u = Some [] <-> u = goal).
Proof.
  intros Hsolve u. apply solve_solved in Hsolve as (stage_of & Hs).
  destruct Hs as [_ _ Hvs Hinv _ _ _].
  assert (Hproc : processed layers stage_of 0 [] u <->
            exists j, j < length layers - 1 /\ u ∈ layer_at layers j).
  { rewrite final_processed. split; intros (j & H1 & H2); exists j.
    - split; [done|]. by apply (layer_at_stage _ _ _ _ Hvs).
    - split; [|done]. by apply (layer_at_stage _ _ _ _ Hvs). }
  split; [|split].
  - by rewrite (inv_dom_f _ _ _ _ _ _ _ _ _ _ Hinv), Hproc.
  - by rewrite (inv_dom_f _ _ _ _ _ _ _ _ _ _ Hinv),
               (inv_dom_p _ _ _ _ _ _ _ _ _ _ Hinv).
  - split.
    + intros Hu.
      destruct (final_policy_key _ _ _ _ _ _ _ _ Hinv u [] Hu)
        as [[-> _] | (j & _ & _ & _ & _ & Hne)]; done.
    + intros ->. apply (inv_goal_p _ _ _ _ _ _ _ _ _ _ Hinv).
Qed.

Lemma result_keys_witness :
  exists r,
    solve_stagecoach_dp extra_layers extra_edges "S" "T" "min" "+" = Ok r /\
    forall u,
      (is_Some (f_star r !! u) <->
       u = "T" \/
       exists j, j < length extra_layers - 1 /\ u ∈ layer_at extra_layers j) /\
      (is_Some (policy r !! u) <-> is_Some (f_star r !! u)) /\
      (policy r !! u = Some [] <-> u = "T").
Proof.
  destruct extra_min_solved as [r Hs].
  exists r. split; [exact Hs|].
  apply (result_keys extra_layers extra_edges "S" "T" "min" "+" r Hs).
Defined.
(** ** The enumeration of the optimal paths *)

(** The loop [for v in policy.get(u, [])] of [dfs] gathers the paths of the
    recursive calls in order. *)
Lemma gather_Some {X : Type} (f : string -> option (list X)) (vs : list string)
  (paths : list X) :
  foldr (fun v acc => ps ← f v; rest ← acc; Some (ps ++ rest)) (Some []) vs
    = Some paths ->
  exists pss, Forall2 (fun v ps => f v = Some ps) vs pss /\ paths = concat pss.
Proof.
  revert paths. induction vs as [|v vs IH]; intros paths; simpl.
  - intros [= <-]. exists []. split; [constructor | done].
  - destruct (f v) as [ps|] eqn:Hv; simpl; [|discriminate].
    destruct (foldr _ _ vs) as [rest|]; simpl; [|discriminate].
    intros [= <-]. destruct (IH rest eq_refl) as (pss & HF & ->).
    exists (ps :: pss). split; [by constructor | done].
Qed.

Lemma dfs_step pol goal fuel u current paths :
  u <> goal ->
  dfs (S fuel) pol goal u current = Some paths ->
  exists pss,
    Forall2 (fun v ps => dfs fuel pol goal v (current ++ [v]) = Some ps)
      (default [] (pol !! u)) pss /\
    paths = concat pss.
Proof.
  intros Hug. simpl. apply String.eqb_neq in Hug. rewrite Hug.
  apply (gather_Some (fun v => dfs fuel pol goal v (current ++ [v]))).
Qed.

Lemma dfs_goal pol goal fuel current :
  dfs (S fuel) pol goal goal current = Some [current].
Proof. simpl. by rewrite String.eqb_refl. Qed.

Lemma dfs_complete pol goal fuel :
  forall u current paths q,
  dfs fuel pol goal u current = Some paths ->
  follows pol goal (u :: q) -> current ++ q ∈ paths.
Proof.
  induction fuel as [|fuel IH]; intros u current paths q; [discriminate|].
  intros Hd Hf. inversion Hf as [|u' v vs p Hug Hu Hv Hrest]; subst.
  - rewrite dfs_goal in Hd. injection Hd as <-. rewrite app_nil_r. by left.
  - apply dfs_step in Hd as (pss & HF & ->); [|done].
    rewrite Hu in HF. simpl in HF.
    apply list_elem_of_lookup in Hv as [i Hi].
    destruct (Forall2_lookup_l _ _ _ _ _ HF Hi) as (ps & Hps & Hdv).
    specialize (IH _ _ _ _ Hdv Hrest). rewrite <- app_assoc in IH.
    rewrite list_elem_of_In, in_concat. exists ps.
    rewrite <- !list_elem_of_In. split; [|done].
    by eapply list_elem_of_lookup_2.
Qed.

Lemma dfs_NoDup pol goal fuel :
  (forall u vs, pol !! u = Some vs -> NoDup vs) ->
  forall u current paths,
  dfs fuel pol goal u current = Some paths -> NoDup paths.
Proof.
  intros Hpol.
  induction fuel as [|fuel IH]; intros u current paths; [discriminate|].
  destruct (decide (u = goal)) as [-> | Hug].
  - rewrite dfs_goal. intros [= <-]. apply NoDup_singleton.
  - intros Hd. apply dfs_step in Hd as (pss & HF & ->); [|done].
    assert (Hnd : NoDup (default [] (pol !! u))).
    { destruct (pol !! u) as [vs|] eqn:Hu; simpl; [eauto | constructor]. }
    induction HF as [|v ps vs pss Hv HF IHF]; simpl; [constructor|].
    apply NoDup_cons in Hnd as [Hv' Hnd].
    apply NoDup_app. split; [by eapply IH|]. split; [|by apply IHF].
    intros p Hp Hp'.
    destruct (dfs_follows _ _ _ _ _ _ Hv p Hp) as (q & -> & _).
    apply list_elem_of_In, in_concat in Hp' as (ps' & Hps' & Hp').
    apply list_elem_of_In in Hps', Hp'.
    apply list_elem_of_lookup in Hps' as [i Hi].
    destruct (Forall2_lookup_r _ _ _ _ _ HF Hi) as (v' & Hvi & Hdv').
    destruct (dfs_follows _ _ _ _ _ _ Hdv' _ Hp') as (q' & Heq & _).
    rewrite <- !app_assoc in Heq. apply app_inv_head in Heq.
    injection Heq as -> _. apply Hv'. by eapply list_elem_of_lookup_2.
Qed.

Lemma dfs_head_walk pol goal fuel :
  forall fuel' u pth p paths,
  walk fuel' pol goal u pth = Ok p ->
  dfs fuel pol goal u pth = Some paths ->
  exists rest, paths = p :: rest.
Proof.
  induction fuel as [|fuel IH]; intros fuel' u pth p paths; [discriminate|].
  destruct (decide (u = goal)) as [-> | Hug].
  - rewrite dfs_goal. intros Hw [= <-]. exists [].
    destruct fuel'; simpl in Hw; rewrite String.eqb_refl in Hw; congruence.
  - intros Hw Hd. apply dfs_step in Hd as (pss & HF & ->); [|done].
    pose proof Hug as Hug'. apply String.eqb_neq in Hug'.
    destruct fuel' as [|fuel']; simpl in Hw; rewrite Hug' in Hw;
      [discriminate|].
    destruct (pol !! u) as [[|v vs]|]; try discriminate. simpl in HF.
    inversion HF as [|? ps ? pss' Hv HF']; subst. simpl.
    destruct (IH _ _ _ _ _ Hw Hv) as (rest & ->). eauto.
Qed.
Lemma scan_next_best_vs_sublist opt_mode combine_op nbrs fs next_layer :
  best_vs (scan_next opt_mode combine_op nbrs fs next_layer)
    `sublist_of` next_layer.
Proof.
  apply (scan_next_ind opt_mode combine_op nbrs fs
           (fun seen s => best_vs s `sublist_of` seen)).
  - simpl. constructor.
  - intros seen v s IH. scan_cases.
    + apply sublist_inserts_l. reflexivity.
    + by apply sublist_app.
    + by apply sublist_inserts_r.
    + by apply sublist_inserts_r.
Qed.

Lemma layer_at_NoDup (layers : layers_t) (j : nat) :
  NoDup (concat layers) -> NoDup (layer_at layers j).
Proof.
  revert j. induction layers as [|L rest IH]; intros j Hnd.
  - unfold layer_at. destruct j; constructor.
  - simpl in Hnd. apply NoDup_app in Hnd as (HL & _ & Hrest).
    destruct j as [|j]; [done|]. by apply (IH j).
Qed.

Lemma solve_Ok_NoDup layers edges start goal opt_mode combine_op r :
  solve_stagecoach_dp layers edges start goal opt_mode combine_op = Ok r ->
  NoDup (concat layers).
Proof.
  intros H. apply solve_Ok_inv in H as (so & fl & ps & _ & _ & Hval & _).
  apply validate_Ok_steps in Hval as (_ & Hreg & _).
  by apply registered_stage in Hreg as [Hnd _].
Qed.

Section Shape.
Variables (layers : layers_t) (edges : edges_t).
Variables (start goal opt_mode combine_op : string).
Variables (stage_of : gmap string nat).
Variables (fs : gmap string float) (pol : gmap string (list string)).
Hypothesis Hvs : valid_stages layers start goal stage_of.
Hypothesis Hinv :
  dp_inv opt_mode combine_op layers edges goal stage_of 0 [] fs pol.

Lemma policy_NoDup (u : string) (vs : list string) :
  NoDup (concat layers) -> pol !! u = Some vs -> NoDup vs.
Proof.
  intros Hnd Hu.
  destruct (final_policy_key _ _ _ _ _ _ _ _ Hinv u vs Hu)
    as [[_ ->] | (j & _ & _ & -> & _)]; [constructor|].
  eapply sublist_NoDup; [|apply scan_next_best_vs_sublist].
  by apply layer_at_NoDup.
Qed.

Lemma follows_stages (p : list string) :
  follows pol goal p ->
  forall u j, head p = Some u -> stage_of !! u = Some j ->
  Forall2 (fun x L => x ∈ L) p (drop j layers).
Proof.
  induction 1 as [|u v vs p Hug Hu Hv Hf IH]; intros u' j [= <-] Hj.
  - rewrite (vs_goal _ _ _ _ Hvs) in Hj. injection Hj as <-.
    pose proof (vs_goal _ _ _ _ Hvs) as Hg.
    apply (vs_stage _ _ _ _ Hvs) in Hg as (L & HL & Hin).
    rewrite (drop_S _ _ _ HL).
    rewrite drop_ge by (pose proof (vs_nonempty _ _ _ _ Hvs); lia).
    by repeat constructor.
  - destruct (final_policy_edge _ _ _ _ _ _ _ _ _ Hvs Hinv u v vs Hu Hv)
      as (j' & w & fu & Hj' & _ & Hsv & _).
    assert (j' = j) by congruence. subst j'.
    apply (vs_stage _ _ _ _ Hvs) in Hj as (L & HL & Hin).
    rewrite (drop_S _ _ _ HL). constructor; [done|].
    by apply (IH v).
Qed.
End Shape.

(** [reconstruct_all_paths] on the policy of a result returns, without
    repetition, exactly the node sequences that start at [start] and follow
    the policy to the goal. *)
Theorem all_paths_exact layers edges start goal opt_mode combine_op r fuel :
  solve_stagecoach_dp layers edges start goal opt_mode combine_op = Ok r ->
  length layers <= fuel ->
  exists paths,
    reconstruct_all_paths fuel (policy r) start goal = Some paths /\
    NoDup paths /\
    forall p, p ∈ paths <-> head p = Some start /\ follows (policy r) goal p.
Proof.
  intros Hsolve Hfuel. pose proof (solve_Ok_NoDup _ _ _ _ _ _ _ Hsolve) as Hnd.
  apply solve_solved in Hsolve as (stage_of & Hs).
  destruct Hs as [_ _ Hvs Hinv _ _ _].
  destruct (dfs_terminates _ _ _ _ _ _ _ _ _ Hvs Hinv fuel start 0 [start]
              (vs_start _ _ _ _ Hvs) ltac:(lia)) as [paths Hpaths].
  exists paths. split; [exact Hpaths|]. split.
  - eapply dfs_NoDup; [|exact Hpaths]. intros u vs.
    by apply (policy_NoDup _ _ _ _ _ _ _ _ Hinv).
  - intros p. split.
    + intros Hp. destruct (dfs_follows _ _ _ _ _ _ Hpaths p Hp) as (q & -> & Hq).
      done.
    + intros [Hh Hf]. destruct p as [|u q]; [discriminate|].
      injection Hh as ->.
      apply (dfs_complete _ _ _ _ _ _ q Hpaths Hf).
Qed.

Lemma all_paths_exact_witness :
  exists r paths,
    solve_stagecoach_dp ex_layers ex_edges "S" "T" "min" "+" = Ok r /\
    reconstruct_all_paths 4 (policy r) "S" "T" = Some paths /\
    NoDup paths /\
    forall p, p ∈ paths <-> head p = Some "S" /\ follows (policy r) "T" p.
Proof.
  destruct ex_min_solved as [r Hs].
  destruct (all_paths_exact ex_layers ex_edges "S" "T" "min" "+" r 4 Hs
              ltac:(simpl; lia)) as (paths & H1 & H2).
  exists r, paths. split; [exact Hs|]. split; [exact H1|exact H2].
Defined.

(** The path returned by the solver is the first of the paths that
    [reconstruct_all_paths] lists. *)
Theorem first_path_is_solver_path
  layers edges start goal opt_mode combine_op r fuel :
  solve_stagecoach_dp layers edges start goal opt_mode combine_op = Ok r ->
  length layers <= fuel ->
  exists rest,
    reconstruct_all_paths fuel (policy r) start goal = Some (path r :: rest).
Proof.
  intros Hsolve Hfuel. apply solve_solved in Hsolve as (stage_of & Hs).
  destruct Hs as [_ _ Hvs Hinv _ Hwalk _].
  destruct (dfs_terminates _ _ _ _ _ _ _ _ _ Hvs Hinv fuel start 0 [start]
              (vs_start _ _ _ _ Hvs) ltac:(lia)) as [paths Hpaths].
  destruct (dfs_head_walk _ _ _ _ _ _ _ _ Hwalk Hpaths) as (rest & ->).
  by exists rest.
Qed.

Lemma first_path_is_solver_path_witness :
  exists r rest,
    solve_stagecoach_dp ex_layers ex_edges "S" "T" "min" "+" = Ok r /\
    reconstruct_all_paths 4 (policy r) "S" "T" = Some (path r :: rest).
Proof.
  destruct ex_min_solved as [r Hs].
  destruct (first_path_is_solver_path ex_layers ex_edges "S" "T" "min" "+" r 4
              Hs ltac:(simpl; lia)) as (rest & H1).
  exists r, rest. split; [exact Hs|exact H1].
Defined.

(** Every path of a result visits the stages in order, one node per stage:
    the path of the solver and each path that [reconstruct_all_paths]
    lists. *)
Theorem paths_visit_every_stage
  layers edges start goal opt_mode combine_op r :
  solve_stagecoach_dp layers edges start goal opt_mode combine_op = Ok r ->
  Forall2 (fun x L => x ∈ L) (path r) layers /\
  forall fuel paths p,
    reconstruct_all_paths fuel (policy r) start goal = Some paths ->
    p ∈ paths -> Forall2 (fun x L => x ∈ L) p layers.
Proof.
  intros Hsolve. apply solve_solved in Hsolve as (stage_of & Hs).
  destruct Hs as [_ _ Hvs Hinv _ Hwalk _].
  assert (forall p, head p = Some start -> follows (policy r) goal p ->
            Forall2 (fun x L => x ∈ L) p layers) as Hshape.
  { intros p Hh Hf.
    apply (follows_stages _ _ _ _ _ _ _ _ _ Hvs Hinv p Hf start 0 Hh
             (vs_start _ _ _ _ Hvs)). }
  split.
  - apply walk_Ok_follows in Hwalk as (q & -> & Hq). by apply Hshape.
  - intros fuel paths p Hpaths Hp.
    destruct (dfs_follows _ _ _ _ _ _ Hpaths p Hp) as (q & -> & Hq).
    by apply Hshape.
Qed.

Lemma paths_visit_every_stage_witness :
  exists r,
    solve_stagecoach_dp ex_layers ex_edges "S" "T" "min" "+" = Ok r /\
    Forall2 (fun x L => x ∈ L) (path r) ex_layers /\
    forall fuel paths p,
      reconstruct_all_paths fuel (policy r) "S" "T" = Some paths ->
      p ∈ paths -> Forall2 (fun x L => x ∈ L) p ex_layers.
Proof.
  destruct ex_min_solved as [r Hs].
  exists r. split; [exact Hs|].
  apply (paths_visit_every_stage ex_layers ex_edges "S" "T" "min" "+" r Hs).
Defined.
(** ** The stage tables *)

Lemma scan_next_totals opt_mode combine_op edges u fs next_layer :
  totals (scan_next opt_mode combine_op (edges_get edges u) fs next_layer)
  = candidates opt_mode combine_op edges fs u next_layer.
Proof.
  unfold candidates.
  apply (scan_next_ind opt_mode combine_op (edges_get edges u) fs
           (fun seen s => totals s = map _ seen)); [done|].
  intros seen v s IH. rewrite map_app. simpl.
  scan_cases; by rewrite IH.
Qed.

Lemma stage_range_S (n : nat) : stage_range (S n) = n :: stage_range n.
Proof.
  unfold stage_range. rewrite seq_S, rev_app_distr. reflexivity.
Qed.

Lemma relax_node_Ok opt_mode combine_op edges t next st u st' :
  relax_node opt_mode combine_op edges t next st u = Ok st' ->
  let s := scan_next opt_mode combine_op (edges_get edges u) (st_f_star st)
             next in
  st' = {| st_f_star := <[u := best_val s]> (st_f_star st);
           st_policy := <[u := best_vs s]> (st_policy st);
           st_rows := st_rows st ++
             [{| row_node := u; row_totals := totals s;
                 row_best := best_val s; row_next := best_vs s |}] |}.
Proof.
  unfold relax_node.
  destruct (best_vs (scan_next opt_mode combine_op (edges_get edges u)
                       (st_f_star st) next)) eqn:Hb; [discriminate|].
  rewrite <- Hb. by intros [= <-].
Qed.

Section Tables.
Variables (opt_mode combine_op : string) (layers : layers_t) (edges : edges_t).
Variables (start goal : string) (stage_of : gmap string nat).
Hypothesis Hvs : valid_stages layers start goal stage_of.

Lemma relax_nodes_frame (t : nat) (next : list string) (L : list string) :
  forall st st',
  foldM (relax_node opt_mode combine_op edges t next) L st = Ok st' ->
  forall x, x ∉ L ->
    st_f_star st' !! x = st_f_star st !! x /\
    st_policy st' !! x = st_policy st !! x.
Proof.
  induction L as [|u L IH]; intros st st'; simpl.
  - by intros [= <-].
  - intros H x Hx. apply bind_Ok in H as (st1 & H1 & H2).
    apply not_elem_of_cons in Hx as [Hxu HxL].
    destruct (IH _ _ H2 x HxL) as [-> ->].
    apply relax_node_Ok in H1 as ->. simpl.
    by rewrite !lookup_insert_ne.
Qed.

Lemma relax_nodes_rows (t : nat) (next : list string) (L : list string) :
  (forall v, v ∈ next -> v ∉ L) ->
  forall st st',
  foldM (relax_node opt_mode combine_op edges t next) L st = Ok st' ->
  st_rows st' = st_rows st ++
    map (fun u =>
           let s := scan_next opt_mode combine_op (edges_get edges u)
                      (st_f_star st') next in
           {| row_node := u; row_totals := totals s;
              row_best := best_val s; row_next := best_vs s |}) L.
Proof.
  induction L as [|u L IH]; intros Hdis st st'; simpl.
  - intros [= <-]. by rewrite app_nil_r.
  - intros H. pose proof H as Hall.
    apply bind_Ok in H as (st1 & H1 & H2).
    rewrite (IH ltac:(intros v Hv Hin; apply (Hdis v Hv); by right) _ _ H2).
    apply relax_node_Ok in H1 as ->. simpl.
    rewrite <- app_assoc. simpl.
    assert (scan_next opt_mode combine_op (edges_get edges u) (st_f_star st)
              next
            = scan_next opt_mode combine_op (edges_get edges u)
                (st_f_star st') next) as ->; [|done].
    apply scan_next_ext. intros v Hv. symmetry.
    apply (relax_nodes_frame t next (u :: L) st st' Hall v (Hdis v Hv)).
Qed.

Lemma layers_disjoint (i j : nat) (x : string) :
  x ∈ layer_at layers i -> x ∈ layer_at layers j -> i = j.
Proof.
  rewrite !(layer_at_stage _ _ _ _ Hvs). congruence.
Qed.

Lemma relax_stage_frame (t : nat) (ps ps' : pass_state) :
  relax_stage opt_mode combine_op layers edges ps t = Ok ps' ->
  forall x, x ∉ layer_at layers t ->
    ps_f_star ps' !! x = ps_f_star ps !! x /\
    ps_policy ps' !! x = ps_policy ps !! x.
Proof.
  unfold relax_stage. intros H x Hx.
  apply bind_Ok in H as (st & Hst & [= <-]). simpl.
  apply (relax_nodes_frame _ _ _ _ _ Hst x Hx).
Qed.

Lemma relax_stages_frame (n : nat) :
  forall ps ps',
  foldM (relax_stage opt_mode combine_op layers edges) (stage_range n) ps
    = Ok ps' ->
  forall x, (forall t, t < n -> x ∉ layer_at layers t) ->
    ps_f_star ps' !! x = ps_f_star ps !! x /\
    ps_policy ps' !! x = ps_policy ps !! x.
Proof.
  induction n as [|n IH]; intros ps ps'.
  - by intros [= <-].
  - rewrite stage_range_S. simpl. intros H x Hx.
    apply bind_Ok in H as (ps1 & H1 & H2).
    destruct (IH _ _ H2 x ltac:(intros t Ht; apply Hx; lia)) as [-> ->].
    apply (relax_stage_frame _ _ _ H1 x). apply Hx. lia.
Qed.

Lemma relax_stage_table (t : nat) (ps ps' : pass_state) :
  relax_stage opt_mode combine_op layers edges ps t = Ok ps' ->
  ps_tables ps' = ps_tables ps ++
    [{| tbl_stage := t + 1; tbl_opt_mode := opt_mode;
        tbl_combine_op := combine_op;
        tbl_headers :=
          ["node"] ++ layer_at layers (t + 1) ++ ["f* (node)"; "next*"];
        tbl_rows :=
          map (fun u =>
                 let s := scan_of opt_mode combine_op layers edges
                            (ps_f_star ps') u t in
                 {| row_node := u; row_totals := totals s;
                    row_best := best_val s; row_next := best_vs s |})
            (layer_at layers t) |}].
Proof.
  unfold relax_stage. intros H.
  apply bind_Ok in H as (st & Hst & [= <-]). simpl. do 3 f_equal.
  apply relax_nodes_rows in Hst; [done|].
  intros v Hv Hin. pose proof (layers_disjoint _ _ _ Hv Hin). lia.
Qed.

Lemma relax_stages_tables (n : nat) :
  forall ps ps',
  foldM (relax_stage opt_mode combine_op layers edges) (stage_range n) ps
    = Ok ps' ->
  ps_tables ps' = ps_tables ps ++
    map (fun t =>
           {| tbl_stage := t + 1; tbl_opt_mode := opt_mode;
              tbl_combine_op := combine_op;
              tbl_headers :=
                ["node"] ++ layer_at layers (t + 1) ++ ["f* (node)"; "next*"];
              tbl_rows :=
                map (fun u =>
                       let s := scan_of opt_mode combine_op layers edges
                                  (ps_f_star ps') u t in
                       {| row_node := u; row_totals := totals s;
                          row_best := best_val s; row_next := best_vs s |})
                  (layer_at layers t) |})
      (stage_range n).
Proof.
  induction n as [|n IH]; intros ps ps'.
  - intros [= <-]. by rewrite app_nil_r.
  - rewrite stage_range_S. simpl. intros H.
    apply bind_Ok in H as (ps1 & H1 & H2).
    rewrite (IH _ _ H2), (relax_stage_table _ _ _ H1), <- app_assoc. simpl.
    do 3 f_equal. apply map_ext_in. intros u Hu.
    assert (scan_of opt_mode combine_op layers edges (ps_f_star ps1) u n
            = scan_of opt_mode combine_op layers edges (ps_f_star ps') u n)
      as ->; [|done].
    apply scan_next_ext. intros v Hv. symmetry.
    apply (relax_stages_frame _ _ _ H2 v). intros t Ht Hin.
    pose proof (layers_disjoint _ _ _ Hv Hin). lia.
Qed.
End Tables.

(** The stage tables of a result are the tables that its final dictionaries
    [f_star] and [policy] give: one per transition, from the last stage to
    the first, with a row per node of the stage in the order of the stage,
    the candidate totals toward the nodes of the next stage, the value of
    the node and its optimal successors. *)
Theorem tables_show_result layers edges start goal opt_mode combine_op r :
  solve_stagecoach_dp layers edges start goal opt_mode combine_op = Ok r ->
  tables r =
    map (table_from opt_mode combine_op layers edges (f_star r) (policy r))
      (stage_range (length layers - 1)).
Proof.
  intros Hsolve. pose proof Hsolve as Hs.
  apply solve_Ok_inv in Hs
    as (so & fl & ps & _ & _ & Hval & Hps & _ & _ & Hf & Hp & Ht).
  pose proof (validate_stages _ _ _ _ _ _ Hval) as Hvs.
  destruct (backward_pass_inv _ _ _ _ _ _ _ Hvs _ Hps) as [Hinv _].
  unfold backward_pass in Hps.
  rewrite Ht, (relax_stages_tables _ _ _ _ _ _ _ Hvs _ _ _ Hps). simpl.
  apply map_ext_in. intros t Htin. unfold table_from. rewrite Hf, Hp.
  f_equal. apply map_ext_in. intros u Hu.
  apply list_elem_of_In, (layer_at_stage _ _ _ _ Hvs) in Hu.
  assert (t < length layers - 1) as Hlt.
  { unfold stage_range in Htin. apply in_rev, in_seq in Htin. lia. }
  destruct (final_entry _ _ _ _ _ _ _ _ Hinv u t Hu Hlt) as (Hfu & Hpu & _).
  simpl. unfold f_star_get. rewrite Hfu, Hpu. simpl.
  f_equal. apply scan_next_totals.
Qed.

Lemma tables_show_result_witness :
  exists r,
    solve_stagecoach_dp ex_layers ex_edges "S" "T" "min" "+" = Ok r /\
    tables r =
      map (table_from "min" "+" ex_layers ex_edges (f_star r) (policy r))
        (stage_range (length ex_layers - 1)).
Proof.
  destruct ex_min_solved as [r Hs].
  exists r. split; [exact Hs|].
  apply (tables_show_result ex_layers ex_edges "S" "T" "min" "+" r Hs).
Defined.

Lemma stage_expanders_spec {A : Type} (l : list A) :
  map fst (stage_expanders l) = rev (seq 1 (length l)) /\
  map snd (stage_expanders l) = rev l.
Proof.
  unfold stage_expanders. rewrite <- (length_rev l).
  assert (forall (k : list A) n, length k <= n ->
            map fst (imap (fun i t => (n - i, t)) k)
              = map (fun i => n - i) (seq 0 (length k)) /\
            map snd (imap (fun i t => (n - i, t)) k) = k) as H.
  { induction k as [|a k IH] using rev_ind; intros n Hn; [done|].
    rewrite length_app in *. simpl in *.
    rewrite imap_app, !map_app, Nat.add_1_r, seq_S, map_app. simpl.
    destruct (IH n ltac:(lia)) as [-> ->]. by rewrite Nat.add_0_r. }
  destruct (H (rev l) (length (rev l)) ltac:(lia)) as [-> ->].
  split; [|done]. generalize (length (rev l)). intros n.
  induction n as [|n IH]; [done|].
  rewrite (seq_S n 1), rev_app_distr. simpl. f_equal.
  by rewrite <- IH, <- seq_shift, map_map.
Qed.

(** On the tab of the stage tables, the expanders are labelled
    [Stage K], ..., [Stage 1] from top to bottom while the tables inside
    them are those titled [Stage 1], ..., [Stage K]: the expander labelled
    [Stage n] holds the table of stage [K + 1 - n]. *)
Theorem expander_labels_reversed
  layers edges start goal opt_mode combine_op r :
  solve_stagecoach_dp layers edges start goal opt_mode combine_op = Ok r ->
  let K := length layers - 1 in
  map fst (stage_expanders (tables r)) = rev (seq 1 K) /\
  map (fun lt => tbl_stage (snd lt)) (stage_expanders (tables r)) = seq 1 K /\
  forall n T, (n, T) ∈ stage_expanders (tables r) -> n + tbl_stage T = K + 1.
Proof.
  intros Hsolve K. apply solve_solved in Hsolve as (stage_of & Hs).
  destruct Hs as [_ _ _ _ Ht _ _].
  destruct (stage_expanders_spec (tables r)) as [Hl Hr].
  assert (length (tables r) = K) as Hlen.
  { rewrite <- (length_map tbl_stage), Ht, length_map. unfold stage_range.
    by rewrite length_rev, length_seq. }
  assert (map (fun lt => tbl_stage (snd lt)) (stage_expanders (tables r))
          = seq 1 K) as Hs.
  { rewrite <- (map_map snd tbl_stage), Hr, map_rev, Ht. unfold stage_range.
    fold K. by rewrite map_rev, rev_involutive, seq_shift. }
  rewrite Hl, Hlen. split; [done|]. split; [done|].
  intros n T Hin. unfold stage_expanders in Hin.
  apply elem_of_lookup_imap in Hin as (i & T' & [= -> ->] & Hi).
  assert (map tbl_stage (rev (tables r)) !! i = Some (tbl_stage T')) as H2
    by (by rewrite list_lookup_fmap, Hi).
  rewrite <- Hr, map_map, Hs in H2. apply lookup_seq in H2 as [-> Hi2]. lia.
Qed.

Lemma expander_labels_reversed_witness :
  exists r,
    solve_stagecoach_dp ex_layers ex_edges "S" "T" "min" "+" = Ok r /\
    map fst (stage_expanders (tables r)) = rev (seq 1 3) /\
    map (fun lt => tbl_stage (snd lt)) (stage_expanders (tables r))
      = seq 1 3 /\
    forall n T, (n, T) ∈ stage_expanders (tables r) -> n + tbl_stage T = 3 + 1.
Proof.
  destruct ex_min_solved as [r Hs].
  exists r. split; [exact Hs|].
  apply (expander_labels_reversed ex_layers ex_edges "S" "T" "min" "+" r Hs).
Defined.
(** ** The order of the floats *)

Lemma SFcompare_key (x y : spec_float) :
  x <> S754_nan -> y <> S754_nan ->
  SFcompare x y = Some (lex3 (sf_key x) (sf_key y)).
Proof.
  intros Hx Hy. destruct x as [sx|sx| |sx mx ex], y as [sy|sy| |sy my ey];
    try done; try (by destruct sx); try (by destruct sy);
    try (by destruct sx, sy).
  destruct sx, sy; try done. unfold lex3. simpl. rewrite Z.compare_opp.
  destruct (Z.compare_spec ex ey) as [-> | H | H].
  - rewrite Z.compare_refl. reflexivity.
  - replace (ey ?= ex)%Z with Gt by (symmetry; by apply Z.compare_gt_iff).
    done.
  - replace (ey ?= ex)%Z with Lt by (symmetry; by apply Z.compare_lt_iff).
    done.
Qed.

Lemma lex3_spec (a b : Z * Z * Z) :
  let '(a1, a2, a3) := a in
  let '(b1, b2, b3) := b in
  match lex3 a b with
  | Lt => (a1 < b1 \/ (a1 = b1 /\ (a2 < b2 \/ (a2 = b2 /\ a3 < b3))))%Z
  | Eq => a = b
  | Gt => (b1 < a1 \/ (a1 = b1 /\ (b2 < a2 \/ (a2 = b2 /\ b3 < a3))))%Z
  end.
Proof.
  destruct a as [[a1 a2] a3], b as [[b1 b2] b3]. unfold lex3. simpl.
  destruct (Z.compare_spec a1 b1) as [-> | H | H]; [|lia|lia].
  destruct (Z.compare_spec a2 b2) as [-> | H | H]; [|lia|lia].
  destruct (Z.compare_spec a3 b3) as [-> | H | H]; [done|lia|lia].
Qed.

Lemma lex3_trans (a b c : Z * Z * Z) (r1 r2 : comparison) :
  lex3 a b = r1 -> lex3 b c = r2 ->
  match r1, r2 with
  | Lt, Lt | Lt, Eq | Eq, Lt => lex3 a c = Lt
  | Gt, Gt | Gt, Eq | Eq, Gt => lex3 a c = Gt
  | Eq, Eq => lex3 a c = Eq
  | _, _ => True
  end.
Proof.
  intros H1 H2. pose proof (lex3_spec a b) as Hab.
  pose proof (lex3_spec b c) as Hbc. pose proof (lex3_spec a c) as Hac.
  destruct a as [[a1 a2] a3], b as [[b1 b2] b3], c as [[c1 c2] c3].
  rewrite H1 in Hab. rewrite H2 in Hbc. clear H1 H2.
  destruct r1, r2; try done;
    destruct (lex3 (a1, a2, a3) (c1, c2, c3)); try done; exfalso;
    try (injection Hab as -> -> ->); try (injection Hbc as -> -> ->);
    try (injection Hac as -> -> ->); lia.
Qed.

Lemma lex3_antisym (a b : Z * Z * Z) : lex3 b a = CompOpp (lex3 a b).
Proof.
  pose proof (lex3_spec a b) as Hab. pose proof (lex3_spec b a) as Hba.
  destruct a as [[a1 a2] a3], b as [[b1 b2] b3].
  destruct (lex3 (a1, a2, a3) _), (lex3 (b1, b2, b3) _); simpl; try done;
    exfalso;
    try (injection Hab as -> -> ->); try (injection Hba as -> -> ->); lia.
Qed.

Lemma float_not_nan (a : float) :
  PrimFloat.eqb a a = true <-> Prim2SF a <> S754_nan.
Proof.
  rewrite FloatAxioms.eqb_spec. unfold SFeqb. split.
  - intros H Hn. rewrite Hn in H. discriminate.
  - intros H. by rewrite SFcompare_refl.
Qed.

Lemma float_compare_key (a b : float) :
  PrimFloat.eqb a a = true -> PrimFloat.eqb b b = true ->
  PrimFloat.ltb a b
    = match lex3 (sf_key (Prim2SF a)) (sf_key (Prim2SF b)) with
      | Lt => true | _ => false end /\
  PrimFloat.eqb a b
    = match lex3 (sf_key (Prim2SF a)) (sf_key (Prim2SF b)) with
      | Eq => true | _ => false end.
Proof.
  intros Ha Hb. apply float_not_nan in Ha, Hb.
  rewrite FloatAxioms.ltb_spec, FloatAxioms.eqb_spec. unfold SFltb, SFeqb.
  by rewrite (SFcompare_key _ _ Ha Hb).
Qed.

Lemma float_ltb_trans (a b c : float) :
  PrimFloat.ltb a b = true -> PrimFloat.ltb b c = true ->
  PrimFloat.ltb a c = true.
Proof.
  intros H1 H2.
  pose proof (float_eqb_refl_of_ltb_l _ _ H1) as Ha.
  pose proof (float_eqb_refl_of_ltb_r _ _ H1) as Hb.
  pose proof (float_eqb_refl_of_ltb_r _ _ H2) as Hc.
  destruct (float_compare_key a b Ha Hb) as [E1 _].
  destruct (float_compare_key b c Hb Hc) as [E2 _].
  destruct (float_compare_key a c Ha Hc) as [-> _].
  rewrite E1 in H1. rewrite E2 in H2.
  destruct (lex3 (sf_key (Prim2SF a)) (sf_key (Prim2SF b))) eqn:Hab;
    try discriminate.
  destruct (lex3 (sf_key (Prim2SF b)) (sf_key (Prim2SF c))) eqn:Hbc;
    try discriminate.
  by rewrite (lex3_trans _ _ _ _ _ Hab Hbc).
Qed.

Lemma float_eqb_sym (a b : float) :
  PrimFloat.eqb a b = true -> PrimFloat.eqb b a = true.
Proof.
  rewrite !FloatAxioms.eqb_spec. unfold SFeqb.
  destruct (SFcompare (Prim2SF a) (Prim2SF b)) as [[]|] eqn:H; try done.
  by rewrite (SFcompare_Eq_sym _ _ H).
Qed.

Lemma float_eqb_refl_of_eqb_r (a b : float) :
  PrimFloat.eqb a b = true -> PrimFloat.eqb b b = true.
Proof. intros H. eapply float_eqb_refl_of_eqb_l, float_eqb_sym, H. Qed.

Lemma float_eqb_ltb_l (a b c : float) :
  PrimFloat.eqb a b = true -> PrimFloat.ltb a c = PrimFloat.ltb b c.
Proof.
  intros H. pose proof (float_eqb_refl_of_eqb_l _ _ H) as Ha.
  pose proof (float_eqb_refl_of_eqb_r _ _ H) as Hb.
  destruct (PrimFloat.eqb c c) eqn:Hc.
  - destruct (float_compare_key a b Ha Hb) as [_ E1].
    destruct (float_compare_key a c Ha Hc) as [-> _].
    destruct (float_compare_key b c Hb Hc) as [-> _].
    rewrite E1 in H.
    destruct (lex3 (sf_key (Prim2SF a)) (sf_key (Prim2SF b))) eqn:Hab;
      try discriminate.
    pose proof (lex3_spec (sf_key (Prim2SF a)) (sf_key (Prim2SF b))) as Hs.
    destruct (sf_key (Prim2SF a)) as [[a1 a2] a3],
             (sf_key (Prim2SF b)) as [[b1 b2] b3].
    rewrite Hab in Hs. by injection Hs as -> -> ->.
  - destruct (PrimFloat.ltb a c) eqn:H1;
      [apply float_eqb_refl_of_ltb_r in H1; congruence|].
    destruct (PrimFloat.ltb b c) eqn:H2;
      [apply float_eqb_refl_of_ltb_r in H2; congruence | done].
Qed.

Lemma float_eqb_ltb_r (a b c : float) :
  PrimFloat.eqb a b = true -> PrimFloat.ltb c a = PrimFloat.ltb c b.
Proof.
  intros H. pose proof (float_eqb_refl_of_eqb_l _ _ H) as Ha.
  pose proof (float_eqb_refl_of_eqb_r _ _ H) as Hb.
  destruct (PrimFloat.eqb c c) eqn:Hc.
  - destruct (float_compare_key a b Ha Hb) as [_ E1].
    destruct (float_compare_key c a Hc Ha) as [-> _].
    destruct (float_compare_key c b Hc Hb) as [-> _].
    rewrite E1 in H.
    destruct (lex3 (sf_key (Prim2SF a)) (sf_key (Prim2SF b))) eqn:Hab;
      try discriminate.
    pose proof (lex3_spec (sf_key (Prim2SF a)) (sf_key (Prim2SF b))) as Hs.
    destruct (sf_key (Prim2SF a)) as [[a1 a2] a3],
             (sf_key (Prim2SF b)) as [[b1 b2] b3].
    rewrite Hab in Hs. by injection Hs as -> -> ->.
  - destruct (PrimFloat.ltb c a) eqn:H1;
      [apply float_eqb_refl_of_ltb_l in H1; congruence|].
    destruct (PrimFloat.ltb c b) eqn:H2;
      [apply float_eqb_refl_of_ltb_l in H2; congruence | done].
Qed.

Lemma float_total (a b : float) :
  PrimFloat.eqb a a = true -> PrimFloat.eqb b b = true ->
  PrimFloat.ltb a b = true \/ PrimFloat.eqb a b = true \/
  PrimFloat.ltb b a = true.
Proof.
  intros Ha Hb.
  destruct (float_compare_key a b Ha Hb) as [-> ->].
  destruct (float_compare_key b a Hb Ha) as [-> _].
  rewrite (lex3_antisym (sf_key (Prim2SF a))).
  destruct (lex3 (sf_key (Prim2SF a)) (sf_key (Prim2SF b))); simpl; auto.
Qed.
(** ** The scan keeps exactly the best candidates *)

Lemma better_trans opt_mode (a b c : float) :
  better opt_mode a b = true -> better opt_mode b c = true ->
  better opt_mode a c = true.
Proof.
  unfold better. destruct (String.eqb opt_mode "min"); intros H1 H2.
  - by apply (float_ltb_trans a b c).
  - by apply (float_ltb_trans c b a).
Qed.

Lemma better_eqb_l opt_mode (a b c : float) :
  PrimFloat.eqb a b = true -> better opt_mode a c = better opt_mode b c.
Proof.
  unfold better. destruct (String.eqb opt_mode "min"); intros H.
  - by apply float_eqb_ltb_l.
  - by apply float_eqb_ltb_r.
Qed.

Lemma better_agg_init opt_mode (x : float) :
  better opt_mode (agg_init opt_mode) x = false.
Proof.
  unfold better, agg_init. destruct (String.eqb opt_mode "min");
    rewrite FloatAxioms.ltb_spec; unfold SFltb.
  - change (Prim2SF infinity) with (S754_infinity false).
    by destruct (Prim2SF x) as [[]|[]| |[] ? ?].
  - change (Prim2SF neg_infinity) with (S754_infinity true).
    by destruct (Prim2SF x) as [[]|[]| |[] ? ?].
Qed.

Lemma better_total opt_mode (a b : float) :
  PrimFloat.eqb a a = true -> PrimFloat.eqb b b = true ->
  better opt_mode a b = true \/ PrimFloat.eqb a b = true \/
  better opt_mode b a = true.
Proof.
  intros Ha Hb. unfold better.
  destruct (float_total a b Ha Hb) as [H | [H | H]];
    destruct (String.eqb opt_mode "min"); auto.
Qed.

Lemma filter_none {A : Type} (f : A -> bool) (l : list A) :
  (forall x, x ∈ l -> f x = false) -> List.filter f l = [].
Proof.
  induction l as [|a l IH]; intros H; simpl; [done|].
  rewrite (H a) by (by left). apply IH. intros x Hx. apply H. by right.
Qed.

Lemma filter_nil_inv {A : Type} (f : A -> bool) (l : list A) :
  List.filter f l = [] -> forall x, x ∈ l -> f x = false.
Proof.
  induction l as [|a l IH]; simpl; intros H x Hx; [inversion Hx|].
  destruct (f a) eqn:Ha; [discriminate|].
  apply elem_of_cons in Hx as [-> | Hx]; auto.
Qed.

Lemma scan_next_exact opt_mode combine_op nbrs fs next_layer :
  let s := scan_next opt_mode combine_op nbrs fs next_layer in
  (forall v tot, v ∈ next_layer ->
     candidate opt_mode combine_op nbrs fs v = Some tot ->
     better opt_mode tot (best_val s) = false) /\
  best_vs s = ties opt_mode combine_op nbrs fs (best_val s) next_layer.
Proof.
  cut (let s := scan_next opt_mode combine_op nbrs fs next_layer in
       PrimFloat.eqb (best_val s) (best_val s) = true /\
       (forall v tot, v ∈ next_layer ->
          candidate opt_mode combine_op nbrs fs v = Some tot ->
          better opt_mode tot (best_val s) = false) /\
       best_vs s = ties opt_mode combine_op nbrs fs (best_val s) next_layer);
    [by intros (_ & H1 & H2)|].
  apply (scan_next_ind opt_mode combine_op nbrs fs (fun seen s =>
    PrimFloat.eqb (best_val s) (best_val s) = true /\
    (forall v tot, v ∈ seen ->
       candidate opt_mode combine_op nbrs fs v = Some tot ->
       better opt_mode tot (best_val s) = false) /\
    best_vs s = ties opt_mode combine_op nbrs fs (best_val s) seen)).
  - split; [apply agg_init_eqb_refl|]. split; [|done].
    intros v tot Hv. inversion Hv.
  - intros seen v s (Hnan & Hbest & Hties).
    unfold ties in *. rewrite List.filter_app.
    assert (Hseen : forall v' tot', v' ∈ seen ++ [v] ->
              candidate opt_mode combine_op nbrs fs v' = Some tot' ->
              (v' ∈ seen) \/
              candidate opt_mode combine_op nbrs fs v = Some tot').
    { intros v' tot' Hv' Hc. apply elem_of_app in Hv' as [Hv' | Hv'];
        [by left|].
      apply list_elem_of_singleton in Hv' as ->. by right. }
    unfold scan_step.
    destruct (dict_get v nbrs) as [w|] eqn:Hw.
    2:{ assert (Hcv : candidate opt_mode combine_op nbrs fs v = None)
          by (unfold candidate; by rewrite Hw).
        simpl. rewrite Hcv, app_nil_r. split; [done|]. split; [|done].
        intros v' tot' Hv' Hc.
        destruct (Hseen v' tot' Hv' Hc) as [Hin | Hc']; [|congruence].
        by eapply Hbest. }
    set (tot := combine combine_op w (f_star_get opt_mode fs v)).
    assert (Hcv : candidate opt_mode combine_op nbrs fs v = Some tot)
      by (unfold candidate; by rewrite Hw).
    destruct (better opt_mode tot (best_val s)) eqn:Hb;
      [|destruct (PrimFloat.eqb tot (best_val s)) eqn:He]; simpl;
      rewrite Hcv.
    + pose proof (better_eqb_refl _ _ _ Hb) as Htot. rewrite Htot.
      split; [done|]. split.
      * intros v' tot' Hv' Hc.
        destruct (Hseen v' tot' Hv' Hc) as [Hin | Hc'].
        -- destruct (better opt_mode tot' tot) eqn:Hb'; [|done].
           pose proof (better_trans _ _ _ _ Hb' Hb) as Hbad.
           by rewrite (Hbest v' tot' Hin Hc) in Hbad.
        -- rewrite Hcv in Hc'. injection Hc' as <-.
           by apply better_false_of_eqb.
      * rewrite filter_none; [done|]. intros v' Hv'.
        destruct (candidate opt_mode combine_op nbrs fs v') as [tot'|] eqn:Hc;
          [|done].
        destruct (PrimFloat.eqb tot' tot) eqn:He; [|done].
        pose proof (Hbest v' tot' Hv' Hc) as Hbad.
        rewrite (better_eqb_l opt_mode _ _ (best_val s) He) in Hbad.
        congruence.
    + rewrite He. split; [done|]. split; [|by rewrite Hties].
      intros v' tot' Hv' Hc.
      destruct (Hseen v' tot' Hv' Hc) as [Hin | Hc']; [by eapply Hbest|].
      rewrite Hcv in Hc'. by injection Hc' as <-.
    + rewrite He, app_nil_r. split; [done|]. split; [|done].
      intros v' tot' Hv' Hc.
      destruct (Hseen v' tot' Hv' Hc) as [Hin | Hc']; [by eapply Hbest|].
      rewrite Hcv in Hc'. by injection Hc' as <-.
Qed.
Lemma scan_next_dead_end opt_mode combine_op nbrs fs next_layer :
  best_vs (scan_next opt_mode combine_op nbrs fs next_layer) = [] <->
  forall v tot, v ∈ next_layer ->
    candidate opt_mode combine_op nbrs fs v = Some tot ->
    PrimFloat.eqb tot tot = false.
Proof.
  destruct (scan_next_exact opt_mode combine_op nbrs fs next_layer)
    as [Hbest Hties].
  split.
  - intros Hnil v tot Hv Hc.
    pose proof (scan_next_empty_best_val _ _ _ _ _ Hnil) as Hinit.
    cbv zeta in Hinit. rewrite Hinit in Hbest, Hties. rewrite Hnil in Hties.
    symmetry in Hties. pose proof (filter_nil_inv _ _ Hties v Hv) as Hne.
    simpl in Hne. rewrite Hc in Hne.
    destruct (PrimFloat.eqb tot tot) eqn:Htot; [|done].
    destruct (better_total opt_mode tot (agg_init opt_mode) Htot
                (agg_init_eqb_refl opt_mode)) as [H | [H | H]].
    + by rewrite (Hbest v tot Hv Hc) in H.
    + congruence.
    + by rewrite better_agg_init in H.
  - intros Hnan. rewrite Hties. apply filter_none. intros v Hv.
    destruct (candidate opt_mode combine_op nbrs fs v) as [tot|] eqn:Hc;
      [|done].
    destruct (PrimFloat.eqb tot _) eqn:He; [|done].
    apply float_eqb_refl_of_eqb_l in He. by rewrite (Hnan v tot Hv Hc) in He.
Qed.

(** After the backward pass, the value of a node is not beaten by any of
    its candidate totals, and its policy lists exactly the successors whose
    candidate total equals the value, in the order of the next stage. *)
Theorem policy_lists_all_ties
  layers edges start goal opt_mode combine_op r u j :
  solve_stagecoach_dp layers edges start goal opt_mode combine_op = Ok r ->
  u ∈ layer_at layers j -> j < length layers - 1 ->
  exists fu,
    f_star r !! u = Some fu /\
    policy r !! u =
      Some (ties opt_mode combine_op (edges_get edges u) (f_star r) fu
              (layer_at layers (j + 1))) /\
    forall v tot, v ∈ layer_at layers (j + 1) ->
      candidate opt_mode combine_op (edges_get edges u) (f_star r) v
        = Some tot ->
      better opt_mode tot fu = false.
Proof.
  intros Hsolve Hu Hj. apply solve_solved in Hsolve as (stage_of & Hs).
  destruct Hs as [_ _ Hvs Hinv _ _ _].
  apply (layer_at_stage _ _ _ _ Hvs) in Hu.
  destruct (final_entry _ _ _ _ _ _ _ _ Hinv u j Hu Hj) as (Hfu & Hpu & _).
  destruct (scan_next_exact opt_mode combine_op (edges_get edges u) (f_star r)
              (layer_at layers (j + 1))) as [Hbest Hties].
  eexists. split; [exact Hfu|]. split; [|exact Hbest].
  rewrite Hpu. f_equal. exact Hties.
Qed.

Lemma policy_lists_all_ties_witness :
  exists r fu,
    solve_stagecoach_dp ex_layers ex_edges "S" "T" "min" "+" = Ok r /\
    f_star r !! "A" = Some fu /\
    policy r !! "A" =
      Some (ties "min" "+" (edges_get ex_edges "A") (f_star r) fu
              (layer_at ex_layers (1 + 1))) /\
    forall v tot, v ∈ layer_at ex_layers (1 + 1) ->
      candidate "min" "+" (edges_get ex_edges "A") (f_star r) v = Some tot ->
      better "min" tot fu = false.
Proof.
  destruct ex_min_solved as [r Hs].
  destruct (policy_lists_all_ties ex_layers ex_edges "S" "T" "min" "+" r
              "A" 1 Hs) as (fu & H).
  - by left.
  - simpl. lia.
  - exists r, fu. split; [exact Hs | exact H].
Defined.

(** The body of the loop over the nodes of a stage raises the dead-end
    error exactly when every candidate total of the node is NaN, which
    includes the node without edge into the next stage. *)
Theorem dead_end_iff_no_candidate
  opt_mode combine_op edges t next_layer st u e :
  relax_node opt_mode combine_op edges t next_layer st u = Err e <->
  e = EDeadEnd u (t + 1) /\
  forall v tot, v ∈ next_layer ->
    candidate opt_mode combine_op (edges_get edges u) (st_f_star st) v
      = Some tot ->
    PrimFloat.eqb tot tot = false.
Proof.
  by rewrite relax_node_Err, scan_next_dead_end.
Qed.
(** ** Optimality over all the routes of the graph *)

Lemma edge_of_weight edges u v w :
  dict_get v (edges_get edges u) = Some w ->
  exists nbrs, (u, nbrs) ∈ edges /\ (v, w) ∈ nbrs.
Proof.
  unfold edges_get. destruct (dict_get u edges) as [nbrs|] eqn:Hu; simpl;
    [|discriminate].
  intros Hv. exists nbrs. split; by apply dict_get_elem.
Qed.

Lemma edge_weights_cons edges u v rest :
  edge_weights edges (u :: v :: rest) =
  (w ← dict_get v (edges_get edges u);
   ws ← edge_weights edges (v :: rest);
   Some (w :: ws)).
Proof. reflexivity. Qed.

Lemma aggregate_sum_cons (w : float) (ws : list float) :
  aggregate "+" (w :: ws) = (w + aggregate "+" ws)%float.
Proof. reflexivity. Qed.

Section MinRoutes.
Variables (layers : layers_t) (edges : edges_t) (start goal : string).
Variables (stage_of : gmap string nat).
Variables (fs : gmap string float) (pol : gmap string (list string)).
Hypothesis Hvs : valid_stages layers start goal stage_of.
Hypothesis Hinv : dp_inv "min" "+" layers edges goal stage_of 0 [] fs pol.
Hypothesis Hpos : positive_weights edges.
Hypothesis Hedges :
  forall u nbrs v w, (u, nbrs) ∈ edges -> (v, w) ∈ nbrs ->
  exists su, stage_of !! u = Some su /\ stage_of !! v = Some (su + 1).

Lemma min_value_nonneg_stage (n : nat) :
  forall j v, j + n = length layers - 1 -> stage_of !! v = Some j ->
  fl_nonneg (f_star_get "min" fs v) = true.
Proof.
  induction n as [|n IH]; intros j v Hj Hv.
  - destruct (fs !! v) as [x|] eqn:Hx;
      [|unfold f_star_get; by rewrite Hx].
    assert (is_Some (fs !! v)) as Hs by eauto.
    apply (inv_dom_f _ _ _ _ _ _ _ _ _ _ Hinv) in Hs as [-> | Hp].
    + unfold f_star_get. by rewrite (inv_goal_f _ _ _ _ _ _ _ _ _ _ Hinv).
    + apply final_processed in Hp as (j' & Hj' & Hlt).
      rewrite Hv in Hj'. injection Hj' as <-. lia.
  - destruct (final_entry _ _ _ _ _ _ _ _ Hinv v j Hv ltac:(lia))
      as (Hf & _ & _).
    unfold f_star_get. rewrite Hf. simpl. unfold scan_of.
    apply scan_min_lower_bound. intros v' w Hv' Hw.
    apply float_add_nonneg.
    + eapply float_pos_nonneg, edge_weight_positive; eauto.
    + apply (layer_at_stage _ _ _ _ Hvs) in Hv'.
      apply (IH (j + 1)); [lia | exact Hv'].
Qed.

Lemma min_value_nonneg (v : string) :
  fl_nonneg (f_star_get "min" fs v) = true.
Proof.
  destruct (fs !! v) as [x|] eqn:Hx; [|unfold f_star_get; by rewrite Hx].
  assert (is_Some (fs !! v)) as Hs by eauto.
  apply (inv_dom_f _ _ _ _ _ _ _ _ _ _ Hinv) in Hs as [-> | Hp].
  - unfold f_star_get. by rewrite (inv_goal_f _ _ _ _ _ _ _ _ _ _ Hinv).
  - apply final_processed in Hp as (j & Hj & Hlt).
    apply (min_value_nonneg_stage (length layers - 1 - j) j); [lia | done].
Qed.

Lemma route_min_bound (p : list string) :
  forall ws u,
  head p = Some u -> last p = Some goal ->
  edge_weights edges p = Some ws ->
  fl_nonneg (aggregate "+" ws) = true /\
  (fl_units (f_star_get "min" fs u) <= fl_units (aggregate "+" ws))%Z.
Proof.
  induction p as [|u' p IH]; intros ws u Hh Hl Hws; [discriminate|].
  simpl in Hh. injection Hh as ->. destruct p as [|v rest].
  - simpl in Hl, Hws. injection Hl as ->. injection Hws as <-.
    unfold f_star_get. rewrite (inv_goal_f _ _ _ _ _ _ _ _ _ _ Hinv).
    split; [reflexivity | done].
  - rewrite edge_weights_cons in Hws.
    destruct (dict_get v (edges_get edges u)) as [w|] eqn:Hw;
      [|discriminate].
    destruct (edge_weights edges (v :: rest)) as [ws'|] eqn:Hws';
      [|discriminate].
    injection Hws as <-.
    destruct (IH ws' v eq_refl Hl eq_refl) as [Hagg Hle].
    destruct (edge_of_weight _ _ _ _ Hw) as (nbrs & Hu & Hv).
    destruct (Hedges _ _ _ _ Hu Hv) as (su & Hsu & Hsv).
    pose proof (stage_lt_length _ _ _ _ Hvs _ _ Hsv) as Hlt.
    destruct (final_entry _ _ _ _ _ _ _ _ Hinv u su Hsu ltac:(lia))
      as (Hf & _ & _).
    pose proof (edge_weight_positive _ _ _ _ Hpos Hw) as Hw0.
    apply float_pos_nonneg in Hw0.
    rewrite aggregate_sum_cons.
    split; [by apply float_add_nonneg|].
    destruct (scan_min_lower_bound (edges_get edges u) fs
                (layer_at layers (su + 1))) as [_ Hlow].
    { intros v' w' Hv' Hw'. apply float_add_nonneg.
      - eapply float_pos_nonneg, edge_weight_positive; eauto.
      - apply min_value_nonneg. }
    specialize (Hlow v w ltac:(by apply (layer_at_stage _ _ _ _ Hvs)) Hw).
    unfold f_star_get at 1. rewrite Hf. simpl. unfold scan_of.
    pose proof (float_add_mono w _ _ Hw0 (min_value_nonneg v) Hagg Hle).
    lia.
Qed.
End MinRoutes.

Lemma scan_max_upper_bound nbrs fs next_layer :
  (forall v w, dict_get v nbrs = Some w -> fl_nonneg w = true) ->
  (forall v, v ∈ next_layer ->
     fl_nonneg (f_star_get "max" fs v) = true \/
     fl_neg_inf (f_star_get "max" fs v) = true) ->
  let s := scan_next "max" "+" nbrs fs next_layer in
  (fl_nonneg (best_val s) = true \/ fl_neg_inf (best_val s) = true) /\
  forall v w, v ∈ next_layer -> dict_get v nbrs = Some w ->
    fl_nonneg (f_star_get "max" fs v) = true ->
    fl_nonneg (best_val s) = true /\
    (fl_units (w + f_star_get "max" fs v) <= fl_units (best_val s))%Z.
Proof.
  intros Hpos Hnext.
  apply (scan_next_ind "max" "+" nbrs fs (fun seen s =>
    (forall v, v ∈ seen -> v ∈ next_layer) ->
    (fl_nonneg (best_val s) = true \/ fl_neg_inf (best_val s) = true) /\
    forall v w, v ∈ seen -> dict_get v nbrs = Some w ->
      fl_nonneg (f_star_get "max" fs v) = true ->
      fl_nonneg (best_val s) = true /\
      (fl_units (w + f_star_get "max" fs v) <= fl_units (best_val s))%Z));
    [| |done].
  - intros _. split; [right; reflexivity|]. intros v w Hv. inversion Hv.
  - intros seen v s IH Hsub.
    destruct IH as [IHo IHle];
      [intros v' Hv'; apply Hsub, elem_of_app; by left|].
    assert (v ∈ next_layer) as Hv by (apply Hsub, elem_of_app; right; by left).
    unfold scan_step.
    destruct (dict_get v nbrs) as [w|] eqn:Hw; simpl.
    2:{ split; [exact IHo|]. intros v' w' Hv' Hw'.
        apply elem_of_app in Hv' as [Hv' | Hv']; [by apply IHle|].
        apply list_elem_of_singleton in Hv' as ->. congruence. }
    change (combine "+" w (f_star_get "max" fs v))
      with (w + f_star_get "max" fs v)%float.
    set (f := f_star_get "max" fs v) in *.
    set (tot := (w + f)%float).
    change (better "max" tot (best_val s))
      with (PrimFloat.ltb (best_val s) tot).
    pose proof (Hpos v w Hw) as Hw0.
    assert (Hold : forall v' w', v' ∈ seen ++ [v] ->
              dict_get v' nbrs = Some w' ->
              fl_nonneg (f_star_get "max" fs v') = true ->
              (v' ∈ seen /\ fl_nonneg (best_val s) = true /\
               (fl_units (w' + f_star_get "max" fs v')
                <= fl_units (best_val s))%Z) \/
              (w' = w /\ v' = v /\ fl_nonneg f = true)).
    { intros v' w' Hv' Hw' Hf'. apply elem_of_app in Hv' as [Hv' | Hv'].
      - left. split; [done|]. by apply IHle.
      - apply list_elem_of_singleton in Hv' as ->. right.
        rewrite Hw in Hw'. by injection Hw' as <-. }
    destruct (Hnext v Hv) as [Hf | Hf]; fold f in Hf.
    + destruct (float_add_nonneg w f Hw0 Hf) as [Htot _]. fold tot in Htot.
      rewrite (float_ltb_units (best_val s) tot) by auto.
      pose proof (fl_nonneg_units _ Htot) as Htot0.
      destruct (Z.ltb_spec (fl_units (best_val s)) (fl_units tot))
        as [Hlt | Hge]; simpl.
      * split; [by left|]. intros v' w' Hv' Hw' Hf'. split; [done|].
        destruct (Hold v' w' Hv' Hw' Hf')
          as [(_ & _ & Hle) | (-> & -> & _)]; [lia|]. fold f tot. lia.
      * assert (Hbn : fl_nonneg (best_val s) = true).
        { destruct IHo as [|Hni]; [done|].
          apply fl_neg_inf_units in Hni. lia. }
        assert (forall v' w', v' ∈ seen ++ [v] ->
                  dict_get v' nbrs = Some w' ->
                  fl_nonneg (f_star_get "max" fs v') = true ->
                  fl_nonneg (best_val s) = true /\
                  (fl_units (w' + f_star_get "max" fs v')
                   <= fl_units (best_val s))%Z) as Hall.
        { intros v' w' Hv' Hw' Hf'. split; [done|].
          destruct (Hold v' w' Hv' Hw' Hf')
            as [(_ & _ & Hle) | (-> & -> & _)]; [lia|]. fold f tot. lia. }
        destruct (PrimFloat.eqb tot (best_val s)); simpl; auto.
    + destruct (float_add_neg_inf w f Hf) as [Hnn Hni]. fold tot in Hnn, Hni.
      assert (PrimFloat.ltb (best_val s) tot = false) as ->.
      { destruct (PrimFloat.ltb (best_val s) tot) eqn:Hlt; [|done].
        pose proof (float_eqb_refl_of_ltb_r _ _ Hlt) as Hr.
        specialize (Hni Hr).
        rewrite (float_ltb_units (best_val s) tot) in Hlt by auto.
        rewrite (fl_neg_inf_units _ Hni) in Hlt.
        apply Z.ltb_lt in Hlt.
        destruct IHo as [Hb | Hb].
        - apply fl_nonneg_units in Hb. lia.
        - apply fl_neg_inf_units in Hb. lia. }
      assert (forall v' w', v' ∈ seen ++ [v] ->
                dict_get v' nbrs = Some w' ->
                fl_nonneg (f_star_get "max" fs v') = true ->
                fl_nonneg (best_val s) = true /\
                (fl_units (w' + f_star_get "max" fs v')
                 <= fl_units (best_val s))%Z) as Hall.
      { intros v' w' Hv' Hw' Hf'.
        destruct (Hold v' w' Hv' Hw' Hf')
          as [(_ & Hb & Hle) | (-> & -> & Hbad)]; [done|].
        by destruct (fl_nonneg_not_neg_inf _ Hbad Hf). }
      destruct (PrimFloat.eqb tot (best_val s)); simpl; auto.
Qed.

Section MaxRoutes.
Variables (layers : layers_t) (edges : edges_t) (start goal : string).
Variables (stage_of : gmap string nat).
Variables (fs : gmap string float) (pol : gmap string (list string)).
Hypothesis Hvs : valid_stages layers start goal stage_of.
Hypothesis Hinv : dp_inv "max" "+" layers edges goal stage_of 0 [] fs pol.
Hypothesis Hpos : positive_weights edges.
Hypothesis Hedges :
  forall u nbrs v w, (u, nbrs) ∈ edges -> (v, w) ∈ nbrs ->
  exists su, stage_of !! u = Some su /\ stage_of !! v = Some (su + 1).

Lemma nbrs_nonneg (u v : string) (w : float) :
  dict_get v (edges_get edges u) = Some w -> fl_nonneg w = true.
Proof.
  intros Hw. eapply float_pos_nonneg, edge_weight_positive; eauto.
Qed.

Lemma max_value_ordered_stage (n : nat) :
  forall j v, j + n = length layers - 1 -> stage_of !! v = Some j ->
  fl_nonneg (f_star_get "max" fs v) = true \/
  fl_neg_inf (f_star_get "max" fs v) = true.
Proof.
  induction n as [|n IH]; intros j v Hj Hv.
  - destruct (fs !! v) as [x|] eqn:Hx;
      [|right; unfold f_star_get; by rewrite Hx].
    assert (is_Some (fs !! v)) as Hs by eauto.
    apply (inv_dom_f _ _ _ _ _ _ _ _ _ _ Hinv) in Hs as [-> | Hp].
    + left. unfold f_star_get.
      by rewrite (inv_goal_f _ _ _ _ _ _ _ _ _ _ Hinv).
    + apply final_processed in Hp as (j' & Hj' & Hlt).
      rewrite Hv in Hj'. injection Hj' as <-. lia.
  - destruct (final_entry _ _ _ _ _ _ _ _ Hinv v j Hv ltac:(lia))
      as (Hf & _ & _).
    unfold f_star_get. rewrite Hf. simpl. unfold scan_of.
    apply scan_max_upper_bound; [apply nbrs_nonneg|].
    intros v' Hv'. apply (layer_at_stage _ _ _ _ Hvs) in Hv'.
    apply (IH (j + 1)); [lia | exact Hv'].
Qed.

Lemma route_max_bound (p : list string) :
  forall ws u,
  head p = Some u -> last p = Some goal ->
  edge_weights edges p = Some ws ->
  fl_nonneg (aggregate "+" ws) = true /\
  fl_nonneg (f_star_get "max" fs u) = true /\
  (fl_units (aggregate "+" ws) <= fl_units (f_star_get "max" fs u))%Z.
Proof.
  induction p as [|u' p IH]; intros ws u Hh Hl Hws; [discriminate|].
  simpl in Hh. injection Hh as ->. destruct p as [|v rest].
  - simpl in Hl, Hws. injection Hl as ->. injection Hws as <-.
    unfold f_star_get. rewrite (inv_goal_f _ _ _ _ _ _ _ _ _ _ Hinv).
    split; [reflexivity|]. split; [reflexivity | done].
  - rewrite edge_weights_cons in Hws.
    destruct (dict_get v (edges_get edges u)) as [w|] eqn:Hw;
      [|discriminate].
    destruct (edge_weights edges (v :: rest)) as [ws'|] eqn:Hws';
      [|discriminate].
    injection Hws as <-.
    destruct (IH ws' v eq_refl Hl eq_refl) as (Hagg & Hfv & Hle).
    destruct (edge_of_weight _ _ _ _ Hw) as (nbrs & Hu & Hv).
    destruct (Hedges _ _ _ _ Hu Hv) as (su & Hsu & Hsv).
    pose proof (stage_lt_length _ _ _ _ Hvs _ _ Hsv) as Hlt.
    destruct (final_entry _ _ _ _ _ _ _ _ Hinv u su Hsu ltac:(lia))
      as (Hf & _ & _).
    pose proof (nbrs_nonneg _ _ _ Hw) as Hw0.
    rewrite aggregate_sum_cons.
    split; [by apply float_add_nonneg|].
    destruct (scan_max_upper_bound (edges_get edges u) fs
                (layer_at layers (su + 1))) as [_ Hup].
    { apply nbrs_nonneg. }
    { intros v' Hv'. apply (layer_at_stage _ _ _ _ Hvs) in Hv'.
      apply (max_value_ordered_stage (length layers - 1 - (su + 1)) (su + 1));
        [lia | done]. }
    destruct (Hup v w ltac:(by apply (layer_at_stage _ _ _ _ Hvs)) Hw Hfv)
      as [Hbn Hble].
    unfold f_star_get at 1 2. rewrite Hf. simpl. unfold scan_of.
    split; [done|].
    pose proof (float_add_mono w _ _ Hw0 Hagg Hfv Hle). lia.
Qed.
End MaxRoutes.

(** With the sum and positive weights, in mode "min" no route from the
    start to the goal along edges of the graph costs less than the optimal
    cost of the result. *)
Theorem min_cost_is_minimum layers edges start goal r p ws :
  positive_weights edges ->
  solve_stagecoach_dp layers edges start goal "min" "+" = Ok r ->
  head p = Some start -> last p = Some goal ->
  edge_weights edges p = Some ws ->
  PrimFloat.leb (optimal_cost r) (aggregate "+" ws) = true.
Proof.
  intros Hpos Hsolve Hh Hl Hws.
  apply solve_Ok_inv in Hsolve
    as (so & fl & ps & _ & _ & Hval & Hps & _ & Hc & Hf & _).
  pose proof (validate_stages _ _ _ _ _ _ Hval) as Hvs.
  destruct (backward_pass_inv _ _ _ _ _ _ _ Hvs _ Hps) as [Hinv _].
  pose proof (validate_Ok_edges _ _ _ _ _ _ Hval) as Hedges.
  destruct (route_min_bound _ _ _ _ _ _ _ Hvs Hinv Hpos Hedges p ws start
              Hh Hl Hws) as [Hagg Hle].
  pose proof (min_value_nonneg _ _ _ _ _ _ _ Hvs Hinv Hpos start) as Hnn.
  unfold f_star_get in Hle, Hnn. rewrite Hc in Hle, Hnn. simpl in Hle, Hnn.
  rewrite float_leb_units by auto. by apply Z.leb_le.
Qed.

Lemma min_cost_is_minimum_witness :
  exists r,
    solve_stagecoach_dp ex_layers ex_edges "S" "T" "min" "+" = Ok r /\
    PrimFloat.leb (optimal_cost r) (aggregate "+" [5; 2; 3]%float) = true.
Proof.
  destruct ex_min_solved as [r Hs].
  exists r. split; [exact Hs|].
  apply (min_cost_is_minimum ex_layers ex_edges "S" "T" r
           ["S"; "B"; "C"; "T"]).
  - apply positive_weightsb_spec. vm_compute. reflexivity.
  - exact Hs.
  - reflexivity.
  - reflexivity.
  - vm_compute. reflexivity.
Defined.

(** With the sum and positive weights, in mode "max" no route from the
    start to the goal along edges of the graph is worth more than the
    optimal value of the result. *)
Theorem max_value_is_maximum layers edges start goal r p ws :
  positive_weights edges ->
  solve_stagecoach_dp layers edges start goal "max" "+" = Ok r ->
  head p = Some start -> last p = Some goal ->
  edge_weights edges p = Some ws ->
  PrimFloat.leb (aggregate "+" ws) (optimal_cost r) = true.
Proof.
  intros Hpos Hsolve Hh Hl Hws.
  apply solve_Ok_inv in Hsolve
    as (so & fl & ps & _ & _ & Hval & Hps & _ & Hc & Hf & _).
  pose proof (validate_stages _ _ _ _ _ _ Hval) as Hvs.
  destruct (backward_pass_inv _ _ _ _ _ _ _ Hvs _ Hps) as [Hinv _].
  pose proof (validate_Ok_edges _ _ _ _ _ _ Hval) as Hedges.
  destruct (route_max_bound _ _ _ _ _ _ _ Hvs Hinv Hpos Hedges p ws start
              Hh Hl Hws) as (Hagg & Hnn & Hle).
  unfold f_star_get in Hle, Hnn. rewrite Hc in Hle, Hnn. simpl in Hle, Hnn.
  rewrite float_leb_units by auto. by apply Z.leb_le.
Qed.

Lemma max_value_is_maximum_witness :
  exists r,
    solve_stagecoach_dp ex_layers ex_edges "S" "T" "max" "+" = Ok r /\
    PrimFloat.leb (aggregate "+" [2; 1; 2]%float) (optimal_cost r) = true.
Proof.
  destruct ex_max_solved as [r Hs].
  exists r. split; [exact Hs|].
  apply (max_value_is_maximum ex_layers ex_edges "S" "T" r
           ["S"; "A"; "D"; "T"]).
  - apply positive_weightsb_spec. vm_compute. reflexivity.
  - exact Hs.
  - reflexivity.
  - reflexivity.
  - vm_compute. reflexivity.
Defined.
(** ** When the solver returns a result *)

Lemma fl_nonneg_eqb_refl (x : float) :
  fl_nonneg x = true -> PrimFloat.eqb x x = true.
Proof.
  intros H. apply float_not_nan. unfold fl_nonneg in H.
  intros Hn. by rewrite Hn in H.
Qed.

Lemma foldM_progress {S A : Type} (body : S -> A -> result S)
  (I : S -> Prop) (l : list A) :
  (forall s a, a ∈ l -> I s -> exists s', body s a = Ok s' /\ I s') ->
  forall s, I s -> exists s', foldM body l s = Ok s' /\ I s'.
Proof.
  induction l as [|a l IH]; intros Hstep s Hs; simpl; [eauto|].
  destruct (Hstep s a ltac:(by left) Hs) as (s1 & -> & Hs1). simpl.
  apply IH; [|done]. intros s' a' Ha'. apply Hstep. by right.
Qed.

Section Progress.
Variables (opt_mode : string) (layers : layers_t) (edges : edges_t).
Hypothesis Hmode : opt_mode = "min" \/ opt_mode = "max".
Hypothesis Hpos : positive_weights edges.

Lemma relax_node_progress (t : nat) (next dom : list string) (st : dp_state)
  (u : string) :
  values_nonneg (next ++ dom) (st_f_star st) ->
  successors_in edges u next <> [] ->
  exists st',
    relax_node opt_mode "+" edges t next st u = Ok st' /\
    values_nonneg (next ++ dom ++ [u]) (st_f_star st').
Proof.
  intros [Hnn Hdom] Hsucc.
  set (fs := st_f_star st) in *.
  set (s := scan_next opt_mode "+" (edges_get edges u) fs next).
  assert (Hval : forall v, v ∈ next ->
            fl_nonneg (f_star_get opt_mode fs v) = true).
  { intros v Hv. destruct (Hdom v ltac:(apply elem_of_app; by left))
      as [x Hx]. unfold f_star_get. rewrite Hx. simpl. by eapply Hnn. }
  assert (Hcand : forall v w, v ∈ next ->
            dict_get v (edges_get edges u) = Some w ->
            fl_nonneg (w + f_star_get opt_mode fs v) = true).
  { intros v w Hv Hw. apply float_add_nonneg; [|by apply Hval].
    eapply float_pos_nonneg, edge_weight_positive; eauto. }
  destruct (successors_in edges u next) as [|v0 l0] eqn:Hs0; [done|].
  assert (v0 ∈ successors_in edges u next) as Hv0 by (rewrite Hs0; by left).
  unfold successors_in in Hv0. apply list_elem_of_filter in Hv0 as [[w0 Hw0] Hv0].
  assert (Hbest : best_vs s <> []).
  { intros Hnil. unfold s in Hnil.
    pose proof (proj1 (scan_next_dead_end _ _ _ _ _) Hnil) as Hnan.
    clear Hnil. rename Hnan into Hnil.
    specialize (Hnil v0 (w0 + f_star_get opt_mode fs v0)%float Hv0).
    rewrite fl_nonneg_eqb_refl in Hnil by (by apply Hcand).
    unfold candidate in Hnil. rewrite Hw0 in Hnil. simpl in Hnil.
    by specialize (Hnil eq_refl). }
  assert (Hbn : fl_nonneg (best_val s) = true).
  { destruct Hmode as [-> | ->].
    - by apply scan_min_lower_bound.
    - destruct (scan_max_upper_bound (edges_get edges u) fs next) as [_ Hup].
      + intros v w Hw. eapply float_pos_nonneg, edge_weight_positive; eauto.
      + intros v Hv. left. by apply Hval.
      + by destruct (Hup v0 w0 Hv0 Hw0 (Hval v0 Hv0)). }
  unfold relax_node. fold fs s.
  destruct (best_vs s) as [|b bs] eqn:Hb; [done|].
  eexists. split; [reflexivity|]. simpl. split.
  - intros v x. destruct (decide (u = v)) as [-> | Hne].
    + rewrite lookup_insert_eq. by intros [= <-].
    + rewrite lookup_insert_ne by done. apply Hnn.
  - intros v Hv. destruct (decide (u = v)) as [-> | Hne].
    + rewrite lookup_insert_eq. eauto.
    + rewrite lookup_insert_ne by done. apply Hdom.
      rewrite app_assoc in Hv. apply elem_of_app in Hv as [Hv | Hv]; [done|].
      apply list_elem_of_singleton in Hv. congruence.
Qed.

Lemma relax_nodes_progress (t : nat) (next : list string) (L : list string) :
  (forall u, u ∈ L -> successors_in edges u next <> []) ->
  forall dom st,
  values_nonneg (next ++ dom) (st_f_star st) ->
  exists st',
    foldM (relax_node opt_mode "+" edges t next) L st = Ok st' /\
    values_nonneg (next ++ dom ++ L) (st_f_star st').
Proof.
  induction L as [|u L IH]; intros Hsucc dom st Hst; simpl.
  - exists st. by rewrite app_nil_r.
  - destruct (relax_node_progress t next dom st u Hst
                (Hsucc u ltac:(by left))) as (st1 & -> & Hst1). simpl.
    destruct (IH ltac:(intros u' Hu'; apply Hsucc; by right)
                (dom ++ [u]) st1 Hst1) as (st' & -> & Hst').
    exists st'. split; [done|]. by rewrite <- app_assoc in Hst'.
Qed.

Lemma relax_stages_progress (n : nat) :
  (forall t u, t < n -> u ∈ layer_at layers t ->
     successors_in edges u (layer_at layers (t + 1)) <> []) ->
  forall ps,
  values_nonneg (layer_at layers n) (ps_f_star ps) ->
  exists ps',
    foldM (relax_stage opt_mode "+" layers edges) (stage_range n) ps = Ok ps'.
Proof.
  induction n as [|n IH]; intros Hsucc ps Hps; [simpl; eauto|].
  rewrite stage_range_S. simpl.
  destruct (relax_nodes_progress n (layer_at layers (n + 1))
              (layer_at layers n)
              ltac:(intros u Hu; apply Hsucc; [lia | done]) []
              {| st_f_star := ps_f_star ps; st_policy := ps_policy ps;
                 st_rows := [] |})
    as (st & Hfold & Hst).
  { rewrite app_nil_r, Nat.add_1_r. exact Hps. }
  assert (exists ps1, relax_stage opt_mode "+" layers edges ps n = Ok ps1 /\
            ps_f_star ps1 = st_f_star st) as (ps1 & -> & Hps1).
  { unfold relax_stage. cbv zeta. rewrite Hfold. simpl. eauto. }
  simpl. apply IH.
  - intros t u Ht. apply Hsucc. lia.
  - rewrite Hps1. destruct Hst as [Hnn Hdom]. split; [done|].
    intros v Hv. apply Hdom. simpl. apply elem_of_app. by right.
Qed.
End Progress.

(** With the sum and positive weights, on stages whose last one holds the
    goal only, the solver returns a result exactly when the validation
    passes and every node before the last stage has an edge into the next
    stage. *)
Theorem solver_succeeds_iff layers edges start goal opt_mode :
  opt_mode = "min" \/ opt_mode = "max" ->
  positive_weights edges ->
  layer_at layers (length layers - 1) = [goal] ->
  (exists r, solve_stagecoach_dp layers edges start goal opt_mode "+" = Ok r)
  <->
  (exists sm, _validate_stagecoach layers edges start goal = Ok sm) /\
  (forall t u, t < length layers - 1 -> u ∈ layer_at layers t ->
     successors_in edges u (layer_at layers (t + 1)) <> []).
Proof.
  intros Hmode Hpos Hlast. split.
  - intros [r Hsolve]. pose proof Hsolve as Hs.
    apply solve_Ok_inv in Hs
      as (so & fl & ps & _ & _ & Hval & Hps & _ & _ & Hf & Hp & _).
    split; [eauto|]. intros t u Ht Hu.
    pose proof (validate_stages _ _ _ _ _ _ Hval) as Hvs.
    destruct (backward_pass_inv _ _ _ _ _ _ _ Hvs _ Hps) as [Hinv _].
    apply (layer_at_stage _ _ _ _ Hvs) in Hu.
    destruct (final_entry _ _ _ _ _ _ _ _ Hinv u t Hu Ht) as (_ & _ & Hne).
    intros Hnil. apply Hne. unfold scan_of. apply scan_next_no_edge.
    intros v Hv. destruct (dict_get v (edges_get edges u)) as [w|] eqn:Hw;
      [|done].
    assert (v ∈ successors_in edges u (layer_at layers (t + 1))) as Hin.
    { unfold successors_in. apply list_elem_of_filter. split; [|done].
      rewrite Hw. eauto. }
    rewrite Hnil in Hin. inversion Hin.
  - intros [[[so fl] Hval] Hsucc].
    pose proof (validate_stages _ _ _ _ _ _ Hval) as Hvs.
    destruct (relax_stages_progress opt_mode layers edges Hmode Hpos
                (length layers - 1) Hsucc (pass_init "+" goal)) as [ps Hps].
    { rewrite Hlast. simpl. split.
      - intros v x. destruct (decide (goal = v)) as [-> | Hne].
        + rewrite lookup_singleton_eq. by intros [= <-].
        + by rewrite lookup_singleton_ne.
      - intros v Hv. apply list_elem_of_singleton in Hv as ->.
        rewrite lookup_singleton_eq. eauto. }
    pose proof (solve_outcome _ _ _ _ _ _ _ _ Hmode (or_introl eq_refl) Hval)
      as Hout.
    unfold backward_pass in Hout. rewrite Hps in Hout.
    destruct Hout as [(r & Hr & _) | (x & _ & Hx & Hsx & _)]; [eauto|].
    apply (layer_at_stage _ _ _ _ Hvs) in Hsx. rewrite Hlast in Hsx.
    by apply list_elem_of_singleton in Hsx.
Qed.

Lemma solver_succeeds_iff_witness :
  (exists r, solve_stagecoach_dp ex_layers ex_edges "S" "T" "max" "+" = Ok r)
  <->
  (exists sm, _validate_stagecoach ex_layers ex_edges "S" "T" = Ok sm) /\
  (forall t u, t < length ex_layers - 1 -> u ∈ layer_at ex_layers t ->
     successors_in ex_edges u (layer_at ex_layers (t + 1)) <> []).
Proof.
  apply (solver_succeeds_iff ex_layers ex_edges "S" "T" "max").
  - by right.
  - apply positive_weightsb_spec. vm_compute. reflexivity.
  - reflexivity.
Defined.
(** On a single stage there is no transition: the solver returns the value
    of the goal, the path made of the start alone and no table when the
    start is the goal, and the walk is stuck at the start otherwise. *)
Theorem single_stage_outcome
  layers edges start goal opt_mode combine_op stage_of flat :
  opt_mode = "min" \/ opt_mode = "max" ->
  combine_op = "+" \/ combine_op = "*" ->
  _validate_stagecoach layers edges start goal = Ok (stage_of, flat) ->
  length layers = 1 ->
  (start = goal ->
   solve_stagecoach_dp layers edges start goal opt_mode combine_op =
     Ok {| optimal_cost := combine_identity combine_op;
           path := [start];
           tables := [];
           f_star := {[ goal := combine_identity combine_op ]};
           policy := {[ goal := [] ]} |}) /\
  (start <> goal ->
   solve_stagecoach_dp layers edges start goal opt_mode combine_op =
     Err (EPathStuck start)).
Proof.
  intros Hm Ho Hval Hlen.
  unfold solve_stagecoach_dp. rewrite Hval. simpl.
  unfold backward_pass. rewrite Hlen. simpl. split.
  - intros ->.
    destruct Hm as [-> | ->], Ho as [-> | ->]; simpl;
      rewrite String.eqb_refl, !lookup_singleton_eq; reflexivity.
  - intros Hne. apply String.eqb_neq in Hne as Hne'.
    assert (goal <> start) as Hne'' by congruence.
    destruct Hm as [-> | ->], Ho as [-> | ->]; simpl;
      rewrite Hne', !lookup_singleton_ne by done; reflexivity.
Qed.

Lemma single_stage_outcome_witness :
  solve_stagecoach_dp [["S"; "T"]] [] "S" "S" "min" "+" =
    Ok {| optimal_cost := 0%float; path := ["S"]; tables := [];
          f_star := {[ "S" := 0%float ]}; policy := {[ "S" := [] ]} |} /\
  solve_stagecoach_dp [["S"; "T"]] [] "S" "T" "min" "+" = Err (EPathStuck "S").
Proof.
  split.
  - apply (single_stage_outcome [["S"; "T"]] [] "S" "S" "min" "+"
             {[ "S" := 0; "T" := 0 ]} ["S"; "T"]);
      [by left | by left | vm_compute; reflexivity | reflexivity | reflexivity].
  - apply (single_stage_outcome [["S"; "T"]] [] "S" "T" "min" "+"
             {[ "S" := 0; "T" := 0 ]} ["S"; "T"]);
      [by left | by left | vm_compute; reflexivity | reflexivity | done].
Defined.
(** ** The checks of the input page *)

Lemma index_nodes_lookup (i : nat) (L : list string) :
  forall (idx : gmap string nat) (u : string),
  fold_left (fun idx node => <[node := i]> idx) L idx !! u
  = if bool_decide (u ∈ L) then Some i else idx !! u.
Proof.
  induction L as [|a L IH]; intros idx u; cbn [fold_left].
  - rewrite bool_decide_eq_false_2; [done|]. intros H. inversion H.
  - rewrite IH. destruct (decide (u ∈ L)) as [HL | HL].
    + rewrite !bool_decide_eq_true_2; [done| by right | done].
    + rewrite (bool_decide_eq_false_2 _ HL).
      destruct (decide (a = u)) as [-> | Hne].
      * rewrite lookup_insert_eq, bool_decide_eq_true_2; [done | by left].
      * rewrite lookup_insert_ne by done.
        rewrite bool_decide_eq_false_2; [done|].
        intros H. apply elem_of_cons in H as [-> | H]; done.
Qed.

Lemma index_layers_lookup (layers : layers_t) :
  forall i (idx : gmap string nat) (u : string) (j : nat),
  index_layers i layers idx !! u = Some j <->
  (exists k, j = i + k /\ u ∈ layer_at layers k /\
     forall k', u ∈ layer_at layers k' -> k' <= k) \/
  (idx !! u = Some j /\ u ∉ concat layers).
Proof.
  induction layers as [|L rest IH]; intros i idx u j; simpl.
  - split.
    + intros H. right. split; [done|]. intros Hin. inversion Hin.
    + intros [(k & _ & Hk & _) | [H _]]; [|done].
      apply layer_at_elem in Hk as (L & HL & _). destruct k; discriminate.
  - rewrite IH, index_nodes_lookup. split.
    + intros [(k & -> & Hk & Hmax) | [Hidx Hnot]].
      * left. exists (S k). split; [lia|]. split; [done|].
        intros [|k'] Hk'; [lia|]. apply Hmax in Hk'. lia.
      * destruct (decide (u ∈ L)) as [HL | HL].
        -- rewrite bool_decide_eq_true_2 in Hidx by done.
           injection Hidx as <-. left. exists 0. split; [lia|].
           split; [done|]. intros [|k'] Hk'; [lia|].
           destruct Hnot. apply layer_at_concat. by exists k'.
        -- rewrite bool_decide_eq_false_2 in Hidx by done.
           right. split; [done|]. intros Hin.
           apply elem_of_app in Hin as [Hin | Hin]; done.
    + intros [(k & -> & Hk & Hmax) | [Hidx Hnot]].
      * destruct k as [|k].
        -- right. change (u ∈ L) in Hk.
           rewrite bool_decide_eq_true_2 by done.
           split; [f_equal; lia|]. intros Hin.
           apply layer_at_concat in Hin as [k' Hk'].
           specialize (Hmax (S k') Hk'). lia.
        -- left. exists k. split; [lia|]. split; [done|].
           intros k' Hk'. specialize (Hmax (S k') Hk'). lia.
      * right. rewrite bool_decide_eq_false_2.
        -- split; [done|]. intros Hin. apply Hnot, elem_of_app. by right.
        -- intros Hin. apply Hnot, elem_of_app. by left.
Qed.

Lemma build_stage_index_dom (layers : layers_t) (u : string) :
  is_Some (build_stage_index layers !! u) <-> u ∈ concat layers.
Proof.
  split.
  - intros [j Hj]. apply index_layers_lookup in Hj
      as [(k & _ & Hk & _) | [Hj _]]; [|by rewrite lookup_empty in Hj].
    apply layer_at_concat. by exists k.
  - intros Hin.
    destruct (build_stage_index layers !! u) as [j|] eqn:Hj; [by eexists|].
    exfalso. apply layer_at_concat in Hin as [k Hk].
    assert (exists k', u ∈ layer_at layers k' /\
              forall k'', u ∈ layer_at layers k'' -> k'' <= k') as (k' & Hk' & Hmax).
    { assert (forall n, (exists k', k' < n /\ u ∈ layer_at layers k') ->
                exists k', u ∈ layer_at layers k' /\
                  forall k'', k'' < n -> u ∈ layer_at layers k'' -> k'' <= k')
        as Hn.
      { induction n as [|n IHn]; intros (k0 & Hlt & Hk0); [lia|].
        destruct (decide (u ∈ layer_at layers n)) as [Hn | Hn].
        - exists n. split; [done|]. intros k'' Hlt' _. lia.
        - destruct IHn as (k' & Hk' & Hmax).
          + exists k0. split; [|done].
            destruct (decide (k0 = n)) as [-> | ?]; [done | lia].
          + exists k'. split; [done|]. intros k'' Hlt' Hk''.
            destruct (decide (k'' = n)) as [-> | ?]; [done|].
            apply Hmax; [lia | done]. }
      destruct (Hn (length layers)) as (k' & Hk' & Hmax).
      - exists k. split; [|done]. apply layer_at_elem in Hk as (L & HL & _).
        by apply lookup_lt_Some in HL.
      - exists k'. split; [done|]. intros k'' Hk''. apply Hmax; [|done].
        apply layer_at_elem in Hk'' as (L & HL & _).
        by apply lookup_lt_Some in HL. }
    assert (build_stage_index layers !! u = Some k') as Hs.
    { apply index_layers_lookup. left. exists k'. auto. }
    congruence.
Qed.

Lemma build_stage_index_spec (layers : layers_t) (u : string) (j : nat) :
  build_stage_index layers !! u = Some j <->
  u ∈ layer_at layers j /\ forall j', u ∈ layer_at layers j' -> j' <= j.
Proof.
  split.
  - intros Hj. apply index_layers_lookup in Hj
      as [(k & -> & Hk & Hmax) | [Hj _]]; [done|].
    by rewrite lookup_empty in Hj.
  - intros [Hj Hmax]. apply index_layers_lookup. left. exists j. auto.
Qed.

(** [build_stage_index] gives a node the index of the last stage that
    lists it. *)
Theorem build_stage_index_last_stage (layers : layers_t) (u : string) (j : nat) :
  build_stage_index layers !! u = Some j <->
  u ∈ layer_at layers j /\ forall j', u ∈ layer_at layers j' -> j' <= j.
Proof. apply build_stage_index_spec. Qed.

Lemma build_stage_index_NoDup (layers : layers_t) (u : string) (j : nat) :
  NoDup (concat layers) ->
  build_stage_index layers !! u = Some j <-> u ∈ layer_at layers j.
Proof.
  intros Hnd. rewrite build_stage_index_spec. split; [by intros [H _]|].
  intros Hj. split; [done|]. intros j' Hj'.
  by rewrite (stage_unique layers u j' j Hnd Hj' Hj).
Qed.

Lemma note_nodes_spec (l : list string) :
  forall (seen : gset string) (errs : list message),
  exists dups,
    snd (fold_left note_node l (seen, errs)) = errs ++ map MDuplicate dups /\
    forall n, n ∈ dups <->
      exists l1 l2, l = l1 ++ n :: l2 /\ (n ∈ seen \/ n ∈ l1).
Proof.
  induction l as [|a l IH]; intros seen errs; simpl.
  - exists []. rewrite app_nil_r. split; [done|]. intros n. split.
    + intros H. inversion H.
    + intros (l1 & l2 & H & _). by destruct l1.
  - unfold note_node at 2. simpl.
    destruct (decide (a ∈ seen)) as [Ha | Ha].
    + rewrite bool_decide_eq_true_2 by done.
      destruct (IH ({[a]} ∪ seen) (errs ++ [MDuplicate a]))
        as (dups & -> & Hd).
      exists (a :: dups). rewrite <- app_assoc. split; [done|].
      intros n. rewrite elem_of_cons, Hd. split.
      * intros [-> | (l1 & l2 & -> & Hn)]; [exists [], l; auto|].
        exists (a :: l1), l2. split; [done|].
        rewrite elem_of_cons.
        rewrite elem_of_union, elem_of_singleton in Hn. tauto.
      * intros ([|b l1] & l2 & Heq & Hn); injection Heq as -> ->; [by left|].
        right. exists l1, l2. split; [done|].
        rewrite elem_of_cons in Hn.
        rewrite elem_of_union, elem_of_singleton. tauto.
    + rewrite bool_decide_eq_false_2 by done.
      destruct (IH ({[a]} ∪ seen) errs) as (dups & -> & Hd).
      exists dups. split; [done|].
      intros n. rewrite Hd. split.
      * intros (l1 & l2 & -> & Hn).
        exists (a :: l1), l2. split; [done|].
        rewrite elem_of_cons.
        rewrite elem_of_union, elem_of_singleton in Hn. tauto.
      * intros ([|b l1] & l2 & Heq & Hn); injection Heq as -> ->.
        -- destruct Hn as [Hn | Hn]; [done | inversion Hn].
        -- exists l1, l2. split; [done|].
           rewrite elem_of_cons in Hn.
        rewrite elem_of_union, elem_of_singleton. tauto.
Qed.

Lemma note_layers_flat (layers : layers_t) :
  forall st,
  fold_left (fun st s => fold_left note_node s st) layers st
  = fold_left note_node (concat layers) st.
Proof.
  induction layers as [|L rest IH]; intros st; simpl; [done|].
  by rewrite fold_left_app, IH.
Qed.

Lemma first_repeat_NoDup {A : Type} (l : list A) :
  NoDup l <-> forall n l1 l2, l = l1 ++ n :: l2 -> n ∉ l1.
Proof.
  split.
  - intros Hnd n l1 l2 -> Hn. apply NoDup_app in Hnd as (_ & Hd & _).
    apply (Hd n Hn). by left.
  - induction l as [|a l IH] using rev_ind; intros H; [constructor|].
    apply NoDup_app. split.
    + apply IH. intros n l1 l2 -> Hn.
      apply (H n l1 (l2 ++ [a])); [by rewrite <- app_assoc | done].
    + split; [|apply NoDup_singleton].
      intros x Hx Hx'. apply list_elem_of_singleton in Hx' as ->.
      by apply (H a l []).
Qed.

Lemma duplicate_errors_spec (layers : layers_t) :
  exists dups,
    snd (note_layers layers) = map MDuplicate dups /\
    (forall n, n ∈ dups <->
       exists l1 l2, concat layers = l1 ++ n :: l2 /\ n ∈ l1) /\
    (dups = [] <-> NoDup (concat layers)).
Proof.
  unfold note_layers. rewrite note_layers_flat.
  destruct (note_nodes_spec (concat layers) ∅ []) as (dups & -> & Hd).
  exists dups. split; [done|].
  assert (forall n, n ∈ dups <->
            exists l1 l2, concat layers = l1 ++ n :: l2 /\ n ∈ l1) as Hd'.
  { intros n. rewrite Hd. split; intros (l1 & l2 & Heq & Hn); exists l1, l2.
    - split; [done|]. destruct Hn as [Hn | Hn]; [|done].
      by apply not_elem_of_empty in Hn.
    - auto. }
  split; [done|]. rewrite first_repeat_NoDup. split.
  - intros -> n l1 l2 Heq Hn.
    assert (n ∈ @nil string) as Hnil by (apply Hd'; eauto). inversion Hnil.
  - intros H. destruct dups as [|n dups]; [done|].
    destruct (proj1 (Hd' n)) as (l1 & l2 & Heq & Hn); [by left|].
    by destruct (H n l1 l2 Heq).
Qed.

Lemma check_targets_elem stage_of u su (nbrs : nbrs_t) :
  forall (errs : list message) (m : message),
  m ∈ fold_left (check_target stage_of u su) nbrs errs <->
  m ∈ errs \/
  exists v w, (v, w) ∈ nbrs /\
    ((stage_of !! v = None /\ m = MTargetUnknown v) \/
     (exists sv, stage_of !! v = Some sv /\ sv <> su + 1 /\
        m = MJump u v su sv)).
Proof.
  induction nbrs as [|[v w] nbrs IH]; intros errs m; simpl.
  - split; [auto|]. intros [H | (v & w & H & _)]; [done | inversion H].
  - rewrite IH. unfold check_target. simpl.
    destruct (stage_of !! v) as [sv|] eqn:Hv;
      [destruct (Nat.eqb sv (su + 1)) eqn:E|].
    + apply Nat.eqb_eq in E. split.
      * intros [H | (v' & w' & H & Hm)]; [by left|].
        right. exists v', w'. split; [by right | done].
      * intros [H | (v' & w' & H & Hm)]; [by left|].
        apply elem_of_cons in H as [[= -> ->] | H].
        -- destruct Hm as [[Hn _] | (sv' & Hs & Hne & _)]; congruence.
        -- right. exists v', w'. auto.
    + apply Nat.eqb_neq in E. rewrite elem_of_app, list_elem_of_singleton.
      split.
      * intros [[H | ->] | (v' & w' & H & Hm)]; [by left | |].
        -- right. exists v, w. split; [by left|]. right. eauto.
        -- right. exists v', w'. split; [by right | done].
      * intros [H | (v' & w' & H & Hm)]; [by left; left|].
        apply elem_of_cons in H as [[= -> ->] | H].
        -- destruct Hm as [[Hn _] | (sv' & Hs & _ & ->)]; [congruence|].
           left. right. congruence.
        -- right. exists v', w'. auto.
    + rewrite elem_of_app, list_elem_of_singleton. split.
      * intros [[H | ->] | (v' & w' & H & Hm)]; [by left | |].
        -- right. exists v, w. split; [by left|]. left. eauto.
        -- right. exists v', w'. split; [by right | done].
      * intros [H | (v' & w' & H & Hm)]; [by left; left|].
        apply elem_of_cons in H as [[= -> ->] | H].
        -- destruct Hm as [[_ ->] | (sv' & Hs & _)]; [|congruence].
           left. by right.
        -- right. exists v', w'. auto.
Qed.

Lemma check_entries_elem stage_of (edges : edges_t) :
  forall (errs : list message) (m : message),
  m ∈ fold_left (check_entry stage_of) edges errs <->
  m ∈ errs \/
  exists u nbrs, (u, nbrs) ∈ edges /\
    ((stage_of !! u = None /\ m = MSourceUnknown u) \/
     (exists su, stage_of !! u = Some su /\
        exists v w, (v, w) ∈ nbrs /\
          ((stage_of !! v = None /\ m = MTargetUnknown v) \/
           (exists sv, stage_of !! v = Some sv /\ sv <> su + 1 /\
              m = MJump u v su sv)))).
Proof.
  induction edges as [|[u nbrs] edges IH]; intros errs m; simpl.
  - split; [auto|]. intros [H | (u & nbrs & H & _)]; [done | inversion H].
  - rewrite IH. unfold check_entry. simpl.
    destruct (stage_of !! u) as [su|] eqn:Hu.
    + rewrite check_targets_elem. split.
      * intros [[H | (v & w & Hv & Hm)] | (u' & nbrs' & H & Hm)].
        -- by left.
        -- right. exists u, nbrs. split; [by left|]. right.
           exists su. split; [done|]. exists v, w. auto.
        -- right. exists u', nbrs'. split; [by right | done].
      * intros [H | (u' & nbrs' & H & Hm)]; [by left; left|].
        apply elem_of_cons in H as [[= -> ->] | H].
        -- destruct Hm as [[Hn _] | (su' & Hs & Hm)]; [congruence|].
           assert (su' = su) by congruence. subst su'. left. by right.
        -- right. exists u', nbrs'. auto.
    + rewrite elem_of_app, list_elem_of_singleton. split.
      * intros [[H | ->] | (u' & nbrs' & H & Hm)]; [by left | |].
        -- right. exists u, nbrs. split; [by left|]. by left.
        -- right. exists u', nbrs'. split; [by right | done].
      * intros [H | (u' & nbrs' & H & Hm)]; [by left; left|].
        apply elem_of_cons in H as [[= -> ->] | H].
        -- destruct Hm as [[_ ->] | (su' & Hs & _)]; [|congruence].
           left. by right.
        -- right. exists u', nbrs'. auto.
Qed.
Lemma nil_iff_no_elem {A : Type} (l : list A) : l = [] <-> forall m, m ∉ l.
Proof.
  split; [intros -> m H; inversion H|].
  destruct l as [|a l]; [done|]. intros H. destruct (H a). by left.
Qed.

(** The errors gathered before the edges are read, and the early return. *)
Lemma validate_layers_edges_steps layers edges start goal :
  exists dups early,
    (forall n, n ∈ dups <->
       exists l1 l2, concat layers = l1 ++ n :: l2 /\ n ∈ l1) /\
    (dups = [] <-> NoDup (concat layers)) /\
    early = map MDuplicate dups ++
              (if decide (start ∈ concat layers) then []
               else [MStartMissing start]) ++
              (if decide (goal ∈ concat layers) then []
               else [MGoalMissing goal]) /\
    validate_layers_edges layers edges start goal =
      match early with
      | [] => fold_left (check_entry (build_stage_index layers)) edges []
      | _ => early
      end.
Proof.
  destruct (duplicate_errors_spec layers) as (dups & Heq & Hd & Hnil).
  exists dups. eexists. split; [done|]. split; [done|]. split; [reflexivity|].
  unfold validate_layers_edges. rewrite Heq.
  pose proof (build_stage_index_dom layers start) as Hs.
  pose proof (build_stage_index_dom layers goal) as Hg.
  destruct (build_stage_index layers !! start) as [s0|];
    destruct (build_stage_index layers !! goal) as [sK|];
    repeat case_decide.
  all: repeat match goal with
       | H : is_Some None <-> ?P, H' : ?P |- _ =>
           apply H in H' as [? [=]]
       | H : is_Some (Some ?x) <-> ?P, H' : ~ ?P |- _ =>
           destruct H'; apply H; by eexists
       end.
  all: rewrite ?app_nil_r, <- ?app_assoc; by destruct (map MDuplicate dups).
Qed.

Lemma gui_message_spec layers edges start goal (m : message) :
  m ∈ validate_layers_edges layers edges start goal <->
  match m with
  | MDuplicate n => exists l1 l2, concat layers = l1 ++ n :: l2 /\ n ∈ l1
  | MStartMissing s => s = start /\ (start ∉ concat layers)
  | MGoalMissing g => g = goal /\ (goal ∉ concat layers)
  | MSourceUnknown u =>
      NoDup (concat layers) /\ start ∈ concat layers /\
      goal ∈ concat layers /\
      (u ∉ concat layers) /\ exists nbrs, (u, nbrs) ∈ edges
  | MTargetUnknown v =>
      NoDup (concat layers) /\ start ∈ concat layers /\
      goal ∈ concat layers /\
      (v ∉ concat layers) /\
      exists u nbrs w, (u, nbrs) ∈ edges /\ u ∈ concat layers /\ (v, w) ∈ nbrs
  | MJump u v su sv =>
      NoDup (concat layers) /\ start ∈ concat layers /\
      goal ∈ concat layers /\
      u ∈ layer_at layers su /\ v ∈ layer_at layers sv /\ sv <> su + 1 /\
      exists nbrs w, (u, nbrs) ∈ edges /\ (v, w) ∈ nbrs
  end.
Proof.
  destruct (validate_layers_edges_steps layers edges start goal)
    as (dups & early & Hd & Hnil & Hearly & ->).
  assert (Hearly_elem : m ∈ early <->
            match m with
            | MDuplicate n => n ∈ dups
            | MStartMissing s => s = start /\ (start ∉ concat layers)
            | MGoalMissing g => g = goal /\ (goal ∉ concat layers)
            | _ => False
            end).
  { rewrite Hearly, !elem_of_app, list_elem_of_fmap.
    assert (forall (P : Prop) `{Decision P} (x : message),
              m ∈ (if decide P then [] else [x]) <-> m = x /\ ~ P) as Hif.
    { intros P ? x. destruct (decide P).
      - split; [intros H'; inversion H' | intros [_ Hn]; by destruct Hn].
      - rewrite list_elem_of_singleton. tauto. }
    rewrite !Hif.
    destruct m as [n|s|g|u|v|u v su sv]; split;
      try (intros [(n' & Heq & Hn) | [[Heq Hn] | [Heq Hn]]];
           try discriminate Heq; injection Heq as ->; by auto);
      try done.
    - intros Hn. left. eauto.
    - intros [-> Hn]. right. left. done.
    - intros [-> Hn]. right. right. done. }
  assert (Hearly_nil : early = [] <->
            NoDup (concat layers) /\ start ∈ concat layers /\
            goal ∈ concat layers).
  { rewrite Hearly. split.
    - intros H. apply app_eq_nil in H as [H1 H]. apply app_eq_nil in H as [H2 H3].
      apply fmap_nil_inv in H1. repeat case_decide; try discriminate.
      split; [by apply Hnil|done].
    - intros (H1 & H2 & H3). apply Hnil in H1 as ->.
      by repeat (case_decide; [|done]). }
  destruct early as [|e0 early'].
  - destruct Hearly_nil as [Hok _]. destruct (Hok eq_refl) as (Hnd & Hs & Hg).
    assert (Hidx : forall u j, build_stage_index layers !! u = Some j <->
                     u ∈ layer_at layers j)
      by (intros u j; by apply build_stage_index_NoDup).
    assert (Hnone : forall u, build_stage_index layers !! u = None <->
                      u ∉ concat layers).
    { intros u. rewrite <- build_stage_index_dom.
      destruct (build_stage_index layers !! u); split; try done.
      intros H. destruct H. eauto. }
    rewrite check_entries_elem. split.
    + intros [H | (u & nbrs & Hu & Hm)]; [inversion H|].
      destruct Hm as [[Hn ->] | (su & Hsu & v & w & Hv & Hm)].
      * repeat (split; [done|]). split; [by apply Hnone | eauto].
      * destruct Hm as [[Hn ->] | (sv & Hsv & Hne & ->)].
        -- repeat (split; [done|]). split; [by apply Hnone|].
           exists u, nbrs, w. split; [done|]. split; [|done].
           apply layer_at_concat. exists su. by apply Hidx.
        -- repeat (split; [done|]). split; [by apply Hidx|].
           split; [by apply Hidx|]. split; [done|]. eauto.
    + intros Hm. right. destruct m as [n|s|g|u|v|u v su sv].
      * exfalso. destruct Hm as (l1 & l2 & Heq & Hn).
        rewrite Heq in Hnd. apply NoDup_app in Hnd as (_ & Hdis & _).
        apply (Hdis n Hn). by left.
      * by destruct Hm as [_ Hm].
      * by destruct Hm as [_ Hm].
      * destruct Hm as (_ & _ & _ & Hu & nbrs & Hin).
        exists u, nbrs. split; [done|]. left. split; [by apply Hnone | done].
      * destruct Hm as (_ & _ & _ & Hv & u & nbrs & w & Hin & Hu & Hvw).
        apply layer_at_concat in Hu as [su Hsu]. apply Hidx in Hsu.
        exists u, nbrs. split; [done|]. right. exists su. split; [done|].
        exists v, w. split; [done|]. left. split; [by apply Hnone | done].
      * destruct Hm as (_ & _ & _ & Hu & Hv & Hne & nbrs & w & Hin & Hvw).
        exists u, nbrs. split; [done|]. right. exists su.
        split; [by apply Hidx|]. exists v, w. split; [done|]. right.
        exists sv. split; [by apply Hidx | done].
  - rewrite Hearly_elem.
    destruct m as [n|s|g|u|v|u v su sv]; [apply Hd | done | done | | |].
    all: split; [done|]; intros (Hnd & Hs & Hg & _);
      by pose proof (proj2 Hearly_nil (conj Hnd (conj Hs Hg))).
Qed.

(** What each message of the input page says about the input.  The edges
    are only read when no node is listed twice and the start and the goal
    are known. *)
Theorem gui_message_meaning layers edges start goal (m : message) :
  m ∈ validate_layers_edges layers edges start goal <->
  match m with
  | MDuplicate n => exists l1 l2, concat layers = l1 ++ n :: l2 /\ n ∈ l1
  | MStartMissing s => s = start /\ (start ∉ concat layers)
  | MGoalMissing g => g = goal /\ (goal ∉ concat layers)
  | MSourceUnknown u =>
      NoDup (concat layers) /\ start ∈ concat layers /\
      goal ∈ concat layers /\
      (u ∉ concat layers) /\ exists nbrs, (u, nbrs) ∈ edges
  | MTargetUnknown v =>
      NoDup (concat layers) /\ start ∈ concat layers /\
      goal ∈ concat layers /\
      (v ∉ concat layers) /\
      exists u nbrs w, (u, nbrs) ∈ edges /\ u ∈ concat layers /\ (v, w) ∈ nbrs
  | MJump u v su sv =>
      NoDup (concat layers) /\ start ∈ concat layers /\
      goal ∈ concat layers /\
      u ∈ layer_at layers su /\ v ∈ layer_at layers sv /\ sv <> su + 1 /\
      exists nbrs w, (u, nbrs) ∈ edges /\ (v, w) ∈ nbrs
  end.
Proof. apply gui_message_spec. Qed.
Lemma gui_accepts_spec layers edges start goal :
  validate_layers_edges layers edges start goal = [] <->
  NoDup (concat layers) /\ start ∈ concat layers /\ goal ∈ concat layers /\
  (forall u nbrs, (u, nbrs) ∈ edges ->
     exists j, u ∈ layer_at layers j /\
       forall v w, (v, w) ∈ nbrs -> v ∈ layer_at layers (j + 1)).
Proof.
  rewrite nil_iff_no_elem. split.
  - intros Hno.
    assert (Hnd : NoDup (concat layers)).
    { apply first_repeat_NoDup. intros n l1 l2 Heq Hn.
      apply (Hno (MDuplicate n)), gui_message_spec. eauto. }
    assert (Hs : start ∈ concat layers).
    { destruct (decide (start ∈ concat layers)) as [|Hs]; [done|].
      destruct (Hno (MStartMissing start)). by apply gui_message_spec. }
    assert (Hg : goal ∈ concat layers).
    { destruct (decide (goal ∈ concat layers)) as [|Hg]; [done|].
      destruct (Hno (MGoalMissing goal)). by apply gui_message_spec. }
    repeat (split; [done|]). intros u nbrs Hu.
    destruct (decide (u ∈ concat layers)) as [Hin | Hin].
    2:{ destruct (Hno (MSourceUnknown u)). apply gui_message_spec.
        eauto 10. }
    pose proof Hin as Hin'. apply layer_at_concat in Hin' as [j Hj].
    exists j. split; [done|]. intros v w Hv.
    destruct (decide (v ∈ concat layers)) as [Hvin | Hvin].
    2:{ destruct (Hno (MTargetUnknown v)). apply gui_message_spec.
        repeat (split; [done|]). exists u, nbrs, w. auto. }
    apply layer_at_concat in Hvin as [j' Hj'].
    destruct (decide (j' = j + 1)) as [-> | Hne]; [done|].
    destruct (Hno (MJump u v j j')). apply gui_message_spec.
    repeat (split; [done|]). eauto.
  - intros (Hnd & Hs & Hg & Hedges) m Hm.
    apply gui_message_spec in Hm.
    destruct m as [n|s|g|u|v|u v su sv].
    + destruct Hm as (l1 & l2 & Heq & Hn).
      by apply (proj1 (first_repeat_NoDup _) Hnd n l1 l2).
    + by destruct Hm as [_ Hm].
    + by destruct Hm as [_ Hm].
    + destruct Hm as (_ & _ & _ & Hu & nbrs & Hin).
      destruct (Hedges u nbrs Hin) as (j & Hj & _).
      apply Hu, layer_at_concat. eauto.
    + destruct Hm as (_ & _ & _ & Hv & u & nbrs & w & Hin & _ & Hvw).
      destruct (Hedges u nbrs Hin) as (j & _ & Hn).
      apply Hv, layer_at_concat. eauto.
    + destruct Hm as (_ & _ & _ & Hu & Hv & Hne & nbrs & w & Hin & Hvw).
      destruct (Hedges u nbrs Hin) as (j & Hj & Hn).
      assert (su = j) by (by apply (stage_unique layers u)). subst j.
      apply Hne. apply (stage_unique layers v); eauto.
Qed.


(** On inputs of the declared types (the weights are floats, so that the
    weight check of the page passes), an input that the validation of the
    solver accepts raises no message on the input page, and the page
    computes the stage index of the solver. *)
Theorem solver_accepts_gui_accepts layers edges start goal stage_of flat :
  _validate_stagecoach layers edges start goal = Ok (stage_of, flat) ->
  validate_layers_edges layers edges start goal = [] /\
  build_stage_index layers = stage_of.
Proof.
  intros Hval.
  assert (exists so, _validate_stagecoach layers edges start goal
                     = Ok (so, concat layers)) as Hacc.
  { exists stage_of. pose proof Hval as H.
    apply validate_Ok_steps in H as (_ & _ & _ & _ & _ & ->). done. }
  apply validate_accepts_spec in Hacc as (_ & _ & Hnd & Hs & Hg & Hedges).
  split.
  - apply gui_accepts_spec. split; [done|].
    split; [apply layer_at_concat; eauto|].
    split; [apply layer_at_concat; eauto | done].
  - apply validate_Ok_steps in Hval as (_ & Hreg & _).
    apply registered_stage in Hreg as [_ Hst].
    apply map_eq. intros u. apply option_eq. intros j.
    by rewrite Hst, build_stage_index_NoDup.
Qed.

Lemma solver_accepts_gui_accepts_witness :
  exists stage_of flat,
    _validate_stagecoach ex_layers ex_edges "S" "T" = Ok (stage_of, flat) /\
    validate_layers_edges ex_layers ex_edges "S" "T" = [] /\
    build_stage_index ex_layers = stage_of.
Proof.
  destruct ex_validated as (stage_of & flat & Hval).
  exists stage_of, flat. split; [exact Hval|].
  apply (solver_accepts_gui_accepts ex_layers ex_edges "S" "T" _ _ Hval).
Defined.

Lemma gui_accepted_solver_errors_bound
  layers edges start goal opt_mode combine_op e :
  validate_layers_edges layers edges start goal = [] ->
  solve_stagecoach_dp layers edges start goal opt_mode combine_op = Err e ->
  match e with
  | EOptMode | ECombineOp | ELayers | EStartGoalBoundary
  | EDeadEnd _ _ | EPathStuck _ => True
  | _ => False
  end.
Proof.
  intros Hgui Hsolve.
  apply gui_accepts_spec in Hgui as (Hnd & Hs & Hg & Hedges).
  destruct (String.eqb opt_mode "min" || String.eqb opt_mode "max") eqn:Hm.
  2: { unfold solve_stagecoach_dp in Hsolve. rewrite Hm in Hsolve.
       by injection Hsolve as <-. }
  destruct (String.eqb combine_op "+" || String.eqb combine_op "*") eqn:Ho.
  2: { unfold solve_stagecoach_dp in Hsolve. rewrite Hm, Ho in Hsolve.
       by injection Hsolve as <-. }
  destruct (_validate_stagecoach layers edges start goal) as [[so fl]|e']
    eqn:Hval.
  2: { unfold solve_stagecoach_dp in Hsolve. rewrite Hm, Ho, Hval in Hsolve.
       injection Hsolve as <-.
       apply validate_error_spec in Hval.
       destruct e' as [| | |u| | |x|u v| | | |]; try done.
       - destruct Hval as (pre & post & Heq & _ & Hu).
         by apply (proj1 (first_repeat_NoDup _) Hnd u pre post).
       - destruct Hval as [_ [H | H]]; done.
       - destruct Hval as (Hx & u & nbrs & Hu & Hor).
         destruct (Hedges u nbrs Hu) as (j & Hj & Hn). apply Hx.
         apply layer_at_concat. destruct Hor as [-> | [w Hw]]; eauto.
       - destruct Hval as (nbrs & w & j & j' & Hu & Hv & Hj & Hj' & Hne).
         destruct (Hedges u nbrs Hu) as (k & Hk & Hn).
         assert (k = j) by (by apply (stage_unique layers u)). subst k.
         apply Hne. apply (stage_unique layers v); eauto. }
  apply orb_true_iff in Hm, Ho. rewrite !String.eqb_eq in Hm, Ho.
  pose proof (solve_outcome _ _ _ _ _ _ _ _ Hm Ho Hval) as Hout.
  destruct (backward_pass opt_mode combine_op layers edges goal) as [ps|e'].
  - destruct Hout as [(r & Hr & _) | (x & Hx & _)]; [congruence|].
    rewrite Hx in Hsolve. by injection Hsolve as <-.
  - destruct Hout as [He (u & t & ->)]. rewrite He in Hsolve.
    by injection Hsolve as <-.
Qed.

(** On inputs of the declared types, after the input page has let an input
    through the solver can still fail, and only in these ways: on each of
    the two options, on an empty stage, on a start outside the first stage
    or a goal outside the last one, on a node without optimal successor, and
    on a walk that ends outside the goal.  Each of the six errors is raised
    on some input that the page lets through; the solver raises no other
    error there: none on a repeated or unknown node and none on an edge. *)
Theorem gui_accepted_solver_errors :
  (forall layers edges start goal opt_mode combine_op e,
     validate_layers_edges layers edges start goal = [] ->
     solve_stagecoach_dp layers edges start goal opt_mode combine_op
       = Err e ->
     match e with
     | EOptMode | ECombineOp | ELayers | EStartGoalBoundary
     | EDeadEnd _ _ | EPathStuck _ => True
     | _ => False
     end) /\
  raised_after_page EOptMode /\
  raised_after_page ECombineOp /\
  raised_after_page ELayers /\
  raised_after_page EStartGoalBoundary /\
  (exists u t, raised_after_page (EDeadEnd u t)) /\
  (exists u, raised_after_page (EPathStuck u)).
Proof.
  split; [exact gui_accepted_solver_errors_bound|].
  split; [exists ex_layers, ex_edges, "S", "T", "avg", "+";
          split; vm_compute; reflexivity|].
  split; [exists ex_layers, ex_edges, "S", "T", "min", "-";
          split; vm_compute; reflexivity|].
  split; [exists [["S"]; []; ["T"]], [], "S", "T", "min", "+";
          split; vm_compute; reflexivity|].
  split; [exists swapped_layers, swapped_edges, "T", "S", "min", "+";
          split; vm_compute; reflexivity|].
  split.
  - exists "A", 2, dead_layers, dead_edges, "S", "T", "min", "+".
    split; vm_compute; reflexivity.
  - exists "X", [["S"]; ["T"; "X"]], [("S", [("X", 1%float)])],
      "S", "T", "min", "+".
    split; vm_compute; reflexivity.
Qed.
